(** * Earth 3.0 demo dashboard (app.py): a shallow embedding and its properties

    The program is a Streamlit page with two computational helpers,
    [generate_time_series] and [make_pdf_bytes], and two button handlers
    (the simulated audit and the impact simulation).  Python floats are
    IEEE-754 binary64 numbers: they are embedded as Rocq's primitive floats,
    whose operations are specified by [SpecFloat].  The wall clock, NumPy's
    global random generator and Streamlit's data cache are explicit state. *)

From Stdlib Require Import ZArith Lia Bool List String Ascii DecimalString.
From Stdlib Require Import DecimalPos DecimalN.
From Stdlib Require Import Sorted Floats Reals Lra.
Import ListNotations.

Local Open Scope Z_scope.

(** ** Binary64 helpers *)

Module Binary64.

(** Python's [float(n)] for an integer [n]: the nearest binary64 number. *)
Definition Z2F (z : Z) : float := SF2Prim (binary_normalize prec emax z 0 false).

(** C's [rint] in the default rounding mode: round to an integral value,
    ties to even, keeping the sign (also of a zero result). *)
Definition rintSF (x : spec_float) : spec_float :=
  match x with
  | S754_finite s m e =>
      if 0 <=? e then x
      else
        let '(mrs, _) := shr (shr_record_of_loc (Zpos m) loc_Exact) e (- e) in
        let k := round_nearest_even (shr_m mrs) (loc_of_shr_record mrs) in
        binary_normalize prec emax (cond_Zopp s k) 0 s
  | _ => x
  end.

Definition rint (x : float) : float := SF2Prim (rintSF (Prim2SF x)).

(** [x <= y], [x >= y] and [x == y] of Python floats are the IEEE
    comparisons: false as soon as an operand is a NaN. *)
Definition fle (x y : float) : Prop := PrimFloat.leb x y = true.
Definition feq (x y : float) : Prop := PrimFloat.eqb x y = true.

End Binary64.

Export Binary64.

(** ** Calendar dates (datetime.date) and month-end ranges (pandas) *)

Module Calendar.

Record date := mkdate { year : Z; month : Z; day : Z }.

Record datetime := mkdatetime
  { dt_date : date; hour : Z; minute : Z; second : Z }.

Definition is_leap (y : Z) : bool :=
  ((y mod 4 =? 0) && negb (y mod 100 =? 0)) || (y mod 400 =? 0).

Definition days_in_month (y m : Z) : Z :=
  if m =? 2 then (if is_leap y then 29 else 28)
  else if (m =? 4) || (m =? 6) || (m =? 9) || (m =? 11) then 30
  else 31.

Definition valid_date (d : date) : Prop :=
  1 <= month d <= 12 /\ 1 <= day d <= days_in_month (year d) (month d).

Definition date_eqb (a b : date) : bool :=
  (year a =? year b) && (month a =? month b) && (day a =? day b).

(** Chronological order on dates, as a lexicographic comparison. *)
Definition date_ltb (a b : date) : bool :=
  (year a <? year b)
  || ((year a =? year b)
      && ((month a <? month b) || ((month a =? month b) && (day a <? day b)))).

Definition date_leb (a b : date) : bool := date_ltb a b || date_eqb a b.

(** Months counted from year 0: [12 * year + (month - 1)]. *)
Definition month_index (d : date) : Z := 12 * year d + (month d - 1).

(** The last day of the month with index [n]. *)
Definition month_end (n : Z) : date :=
  let y := n / 12 in
  let m := n mod 12 + 1 in
  mkdate y m (days_in_month y m).

(** pandas' MonthEnd offset (freq='M'). *)
Definition is_on_offset (d : date) : bool :=
  day d =? days_in_month (year d) (month d).

Definition rollback (d : date) : date :=
  if is_on_offset d then d else month_end (month_index d - 1).

(** [d + n * MonthEnd] for a date [d] that is on the offset. *)
Definition add_months (d : date) (n : Z) : date := month_end (month_index d + n).

(** The loop of pandas' range generator: yield [cur] while [cur <= end],
    stepping by one offset and stopping once [end] has been produced. *)
Fixpoint generate_range (fuel : nat) (cur end_ : date) : list date :=
  match fuel with
  | O => []
  | S fuel' =>
      if date_leb cur end_
      then cur :: (if date_eqb cur end_ then []
                   else generate_range fuel' (add_months cur 1) end_)
      else []
  end.

(** [pd.date_range(end=end_, periods=periods, freq='M')]: the end is rolled
    back onto the offset, the start lies [periods - 1] offsets before it. *)
Definition date_range (end_ : date) (periods : Z) : list date :=
  let e := rollback end_ in
  let start := add_months e (- (periods - 1)) in
  generate_range (Z.to_nat periods) start e.

Definition month_name (m : Z) : string :=
  nth (Z.to_nat (m - 1))
      ["January"; "February"; "March"; "April"; "May"; "June"; "July";
       "August"; "September"; "October"; "November"; "December"]%string
      ""%string.

Definition decimal (n : Z) : string := NilZero.string_of_uint (N.to_uint (Z.to_N n)).

(** [%d], [%H] and [%M] of strftime: two digits, zero padded. *)
Definition two_digits (n : Z) : string :=
  if n <? 10 then ("0" ++ decimal n)%string else decimal n.

(** [f"{t:%B %d, %Y %H:%M UTC}"]. *)
Definition strftime (t : datetime) : string :=
  (month_name (month (dt_date t)) ++ " " ++ two_digits (day (dt_date t)) ++ ", "
   ++ decimal (year (dt_date t)) ++ " " ++ two_digits (hour t) ++ ":"
   ++ two_digits (minute t) ++ " UTC")%string.

End Calendar.

Export Calendar.

(** ** reportlab: the canvas, as far as its page bookkeeping goes *)

Module Reportlab.

Record text_object := mktext
  { text_x : float; text_y : float;
    text_font : string; text_size : float;
    text_lines : list string }.

(** Drawing operators accumulated in the content stream of a page. *)
Inductive op : Type :=
| SetFont (name : string) (size : float)
| DrawString (x y : float) (s : string)
| DrawText (t : text_object).

Definition page := list op.

Record document := mkdocument
  { doc_pagesize : float * float;
    doc_created : datetime;
    doc_pages : list page }.

(** [_code] is the stream of the page being drawn, [_doc] the pages that
    [showPage] has closed. *)
Record canvas := mkcanvas
  { pagesize : float * float;
    created : datetime;
    _code : list op;
    _doc : list page }.

Definition A4 : float * float := (595.2755905511812%float, 841.8897637795276%float).

Definition Canvas (size : float * float) (t : datetime) : canvas :=
  mkcanvas size t [] [].

Definition emit (o : op) (c : canvas) : canvas :=
  mkcanvas (pagesize c) (created c) (_code c ++ [o])%list (_doc c).

Definition setFont (name : string) (size : float) : canvas -> canvas :=
  emit (SetFont name size).

Definition drawString (x y : float) (s : string) : canvas -> canvas :=
  emit (DrawString x y s).

Definition beginText (x y : float) : text_object :=
  mktext x y "Helvetica" 12%float [].

Definition text_setFont (name : string) (size : float) (t : text_object) : text_object :=
  mktext (text_x t) (text_y t) name size (text_lines t).

Definition textLine (line : string) (t : text_object) : text_object :=
  mktext (text_x t) (text_y t) (text_font t) (text_size t) (text_lines t ++ [line])%list.

Definition drawText (t : text_object) : canvas -> canvas := emit (DrawText t).

(** [showPage] closes the current page and starts an empty one. *)
Definition showPage (c : canvas) : canvas :=
  mkcanvas (pagesize c) (created c) [] (_doc c ++ [_code c])%list.

(** [save] first closes a page that still has operators pending. *)
Definition save (c : canvas) : document :=
  let c' := match _code c with [] => c | _ :: _ => showPage c end in
  mkdocument (pagesize c') (created c') (_doc c').

(** The strings a page shows, in drawing order. *)
Definition op_strings (o : op) : list string :=
  match o with
  | SetFont _ _ => []
  | DrawString _ _ s => [s]
  | DrawText t => text_lines t
  end.

Definition page_strings (p : page) : list string := flat_map op_strings p.

(** io.BytesIO: a byte buffer with a position. *)
Record BytesIO := mkbytesio { getvalue : list Byte.byte; tell : nat }.

Definition BytesIO_new : BytesIO := mkbytesio [] 0.

Definition write (data : list Byte.byte) (b : BytesIO) : BytesIO :=
  mkbytesio (firstn (tell b) (getvalue b) ++ data
             ++ skipn (tell b + List.length data) (getvalue b))%list
            (tell b + List.length data)%nat.

Definition seek (n : nat) (b : BytesIO) : BytesIO := mkbytesio (getvalue b) n.

Definition read (b : BytesIO) : list Byte.byte * BytesIO :=
  (skipn (tell b) (getvalue b), mkbytesio (getvalue b) (List.length (getvalue b))).

End Reportlab.

Export Reportlab.

(** ** pandas: a frame of float columns with a row index *)

Module Pandas.

Inductive label : Type :=
| Position (i : Z)
| Stamp (d : date).

Record DataFrame := mkframe
  { columns : list string;
    index : list label;
    rows : list (list float) }.

Definition map_cells (f : float -> float) (df : DataFrame) : DataFrame :=
  mkframe (columns df) (index df) (map (map f) (rows df)).

(** [df.clip(lower, upper)]: cells below [lower] become [lower], cells above
    [upper] become [upper]; a NaN cell stays a NaN. *)
Definition clip_cell (lower upper x : float) : float :=
  if PrimFloat.is_nan x then x
  else if PrimFloat.ltb x lower then lower
  else if PrimFloat.ltb upper x then upper
  else x.

Definition clip (lower upper : float) : DataFrame -> DataFrame :=
  map_cells (clip_cell lower upper).

(** [10 ** decimals] as a float, for a small non-negative [decimals]. *)
Definition power_of_ten (decimals : Z) : float := Z2F (10 ^ decimals).

(** [df.round(decimals)] for [decimals > 0] is NumPy's round: scale by the
    power of ten, [rint], scale back. *)
Definition round_cell (decimals : Z) (x : float) : float :=
  (rint (x * power_of_ten decimals) / power_of_ten decimals)%float.

Definition round (decimals : Z) : DataFrame -> DataFrame :=
  map_cells (round_cell decimals).

(** [df.iloc[-1]]: the last row, as (column, value) pairs. *)
Definition iloc_last (df : DataFrame) : option (list (string * float)) :=
  match rev (rows df) with
  | [] => None
  | r :: _ => Some (combine (columns df) r)
  end.

End Pandas.

Export Pandas.

(** ** The libraries behind the calls whose results the source does not fix

    NumPy's Mersenne Twister and its Gaussian sampler, Python's conversion of
    a float to text and reportlab's PDF writer are taken as they come. *)

Class Libraries := mklibraries
  { rng_state : Type;
    (** the generator state [np.random.seed(seed)] installs *)
    seed_state : Z -> rng_state;
    (** one draw of [np.random.normal(loc, scale)] *)
    normal_draw : float -> float -> rng_state -> float * rng_state;
    (** [str(v)] of a float, as an f-string prints it *)
    float_str : float -> string;
    (** the bytes reportlab writes for a document *)
    SaveToFile : document -> list Byte.byte }.

(** ** The runtime: clock, global random generator, Streamlit's cache *)

Module Runtime.

(** One reading of the clocks: UTC wall time and the monotonic timer. *)
Record instant := mkinstant { utc : datetime; monotonic : Z }.

Record cache_entry := mkentry { cached : DataFrame; expires : Z }.

Inductive exn : Type := ValueError | IndexError.

Inductive result (A : Type) : Type :=
| Ok (a : A)
| Raise (e : exn).

Arguments Ok {A} a.
Arguments Raise {A} e.

Section WithLibraries.

Context {L : Libraries}.

(** [clock n] is what the [n]-th reading of the clocks returns. *)
Record world := mkworld
  { clock : nat -> instant;
    ticks : nat;
    rng : rng_state;
    cache : list ((Z * Z) * cache_entry) }.

Definition M (A : Type) : Type := world -> result A * world.

Definition ret {A : Type} (a : A) : M A := fun w => (Ok a, w).

Definition raise {A : Type} (e : exn) : M A := fun w => (Raise e, w).

Definition bind {A B : Type} (c : M A) (k : A -> M B) : M B :=
  fun w =>
    match c w with
    | (Ok a, w') => k a w'
    | (Raise e, w') => (Raise e, w')
    end.

Definition read_clock : M instant :=
  fun w => (Ok (clock w (ticks w)),
            mkworld (clock w) (S (ticks w)) (rng w) (cache w)).

Definition get_rng : M rng_state := fun w => (Ok (rng w), w).

Definition set_rng (s : rng_state) : M unit :=
  fun w => (Ok tt, mkworld (clock w) (ticks w) s (cache w)).

Definition get_cache : M (list ((Z * Z) * cache_entry)) :=
  fun w => (Ok (cache w), w).

Definition set_cache (c : list ((Z * Z) * cache_entry)) : M unit :=
  fun w => (Ok tt, mkworld (clock w) (ticks w) (rng w) c).

End WithLibraries.

End Runtime.

Export Runtime.

Declare Scope monad_scope.
Delimit Scope monad_scope with monad.
Notation "x <- c ;; k" := (bind c (fun x => k))
  (at level 61, c at next level, right associativity) : monad_scope.
Notation "c ;;; k" := (bind c (fun _ => k))
  (at level 61, right associativity) : monad_scope.

(** ** NumPy: seeding, Gaussian draws, linspace *)

Module Numpy.

Section WithLibraries.

Context {L : Libraries}.

Local Open Scope monad_scope.

(** [np.random.seed(seed)] accepts an integer between 0 and 2^32 - 1. *)
Definition random_seed (seed : Z) : M unit :=
  if (0 <=? seed) && (seed <? 2 ^ 32) then set_rng (seed_state seed)
  else raise ValueError.

Fixpoint draw_row (loc scale : float) (n : nat) (s : rng_state)
  : list float * rng_state :=
  match n with
  | O => ([], s)
  | S n' =>
      let '(x, s1) := normal_draw loc scale s in
      let '(xs, s2) := draw_row loc scale n' s1 in
      (x :: xs, s2)
  end.

Fixpoint draw_rows (loc scale : float) (nrows ncols : nat) (s : rng_state)
  : list (list float) * rng_state :=
  match nrows with
  | O => ([], s)
  | S n' =>
      let '(r, s1) := draw_row loc scale ncols s in
      let '(rs, s2) := draw_rows loc scale n' ncols s1 in
      (r :: rs, s2)
  end.

(** [np.random.normal(loc, scale, (nrows, ncols))]: the array is filled in
    row-major order from the global generator. *)
Definition random_normal (loc scale : float) (nrows ncols : Z)
  : M (list (list float)) :=
  if (nrows <? 0) || (ncols <? 0) then raise ValueError
  else
    s <- get_rng ;;
    let '(a, s') := draw_rows loc scale (Z.to_nat nrows) (Z.to_nat ncols) s in
    set_rng s' ;;; ret a.

(** [np.arange(0, num)] as floats. *)
Definition arange (num : Z) : list float :=
  map (fun i => Z2F (Z.of_nat i)) (seq 0 (Z.to_nat num)).

(** [y[-1] = stop]. *)
Definition set_last (y : list float) (stop : float) : list float :=
  match y with
  | [] => []
  | _ :: _ => removelast y ++ [stop]
  end.

(** The samples of [np.linspace(start, stop, num)], end point included:
    [arange(0, num) * step + start] with the last one overwritten by [stop]
    (NumPy divides first when the step rounds to zero). *)
Definition linspace_fill (start stop : float) (num : Z) : list float :=
  let div := num - 1 in
  let delta := (stop - start)%float in
  let y := arange num in
  let y :=
    if 0 <? div then
      let step := (delta / Z2F div)%float in
      if PrimFloat.eqb step 0%float
      then map (fun v => (v / Z2F div * delta)%float) y
      else map (fun v => (v * step)%float) y
    else map (fun v => (v * delta)%float) y in
  let y := map (fun v => (v + start)%float) y in
  if 1 <? num then set_last y stop else y.

(** [np.linspace(start, stop, num)]: an array cannot have a negative length
    or one beyond the signed 64-bit range. *)
Definition linspace (start stop : float) (num : Z) : M (list float) :=
  if (num <? 0) || (2 ^ 63 <=? num) then raise ValueError
  else ret (linspace_fill start stop num).

(** [column.reshape(-1, 1) + a]: each row of [a] is shifted by the entry of
    [column] at the same position. *)
Definition add_column (column : list float) (a : list (list float))
  : list (list float) :=
  map (fun '(b, r) => map (fun x => (b + x)%float) r) (combine column a).

End WithLibraries.

End Numpy.

(** ** The program *)

Section Program.

Context {L : Libraries}.

Local Open Scope monad_scope.

(** [pd.DataFrame(data, columns=cols)]: every row must have one cell per
    column; the rows are labelled by position. *)
Definition pd_DataFrame (data : list (list float)) (cols : list string)
  : M DataFrame :=
  if forallb (fun r => Nat.eqb (List.length r) (List.length cols)) data
  then ret (mkframe cols
                    (map (fun i => Position (Z.of_nat i)) (seq 0 (List.length data)))
                    data)
  else raise ValueError.

(** [df.index = idx]: the new index must be as long as the frame. *)
Definition set_index (idx : list label) (df : DataFrame) : M DataFrame :=
  if Nat.eqb (List.length idx) (List.length (rows df))
  then ret (mkframe (columns df) idx (rows df))
  else raise ValueError.

(** [datetime.utcnow()]. *)
Definition utcnow : M datetime := i <- read_clock ;; ret (utc i).

(** The body of [generate_time_series], below the caching decorator. *)
Definition generate_time_series_wrapped (seed periods : Z) : M DataFrame :=
  Numpy.random_seed seed ;;;
  base <- Numpy.linspace 60 85 periods ;;
  noise <- Numpy.random_normal 0 4 periods 3 ;;
  let cols := ["Governance"; "ESG"; "Finance"]%string in
  df <- pd_DataFrame (Numpy.add_column base noise) cols ;;
  today <- utcnow ;;
  df <- set_index (map Stamp (date_range (dt_date today) periods)) df ;;
  ret (Pandas.round 1 (clip 0 100 df)).

Fixpoint lookup (k : Z * Z) (c : list ((Z * Z) * cache_entry))
  : option cache_entry :=
  match c with
  | [] => None
  | (k', e) :: c' =>
      if (fst k =? fst k') && (snd k =? snd k') then Some e else lookup k c'
  end.

(** [@st.cache_data(ttl=...)]: a call with arguments seen less than [ttl]
    seconds ago returns the stored frame; otherwise the function runs and
    its result is stored.  A call that raises stores nothing. *)
Definition cache_data (ttl : Z) (f : Z -> Z -> M DataFrame) (seed periods : Z)
  : M DataFrame :=
  t <- read_clock ;;
  c <- get_cache ;;
  match lookup (seed, periods) c with
  | Some e =>
      if monotonic t <? expires e then ret (cached e)
      else
        df <- f seed periods ;;
        c' <- get_cache ;;
        set_cache (((seed, periods), mkentry df (monotonic t + ttl)) :: c') ;;;
        ret df
  | None =>
      df <- f seed periods ;;
      c' <- get_cache ;;
      set_cache (((seed, periods), mkentry df (monotonic t + ttl)) :: c') ;;;
      ret df
  end.

Definition generate_time_series : Z -> Z -> M DataFrame :=
  cache_data (60 * 10) generate_time_series_wrapped.

(** The default values of the parameters [seed] and [periods]. *)
Definition default_seed : Z := 0.
Definition default_periods : Z := 12.

Definition make_pdf_bytes (org_name : string) (summary_lines : list string)
  : M (list Byte.byte) :=
  let buffer := BytesIO_new in
  stamp <- utcnow ;;
  let c := Canvas A4 stamp in
  let '(width, height) := A4 in
  let c := setFont "Helvetica-Bold" 16 c in
  let c := drawString 40 (height - 60)
             ("Earth 3.0 — Board Audit Snapshot • " ++ org_name)%string c in
  let c := setFont "Helvetica" 10 c in
  now <- utcnow ;;
  let c := drawString 40 (height - 82) ("Generated: " ++ strftime now)%string c in
  let text := beginText 40 (height - 120) in
  let text := text_setFont "Helvetica" 11 text in
  let text := fold_left (fun t line => textLine line t) summary_lines text in
  let c := drawText text c in
  let c := showPage c in
  let buffer := write (SaveToFile (save c)) buffer in
  let buffer := seek 0 buffer in
  ret (fst (read buffer)).

(** What the audit handler hands to the page: the score table, the frame
    behind the chart, and the download. *)
Record audit_view := mkaudit
  { audit_df : list (string * float);
    chart : DataFrame;
    summary : list string;
    pdf_bytes : list Byte.byte;
    file_name : string }.

(** [time.sleep]: time passes, nothing else happens. *)
Definition sleep : M unit := read_clock ;;; ret tt.

(** The handler of the "Run Simulated Audit" button. *)
Definition run_simulated_audit (org : string) : M audit_view :=
  sleep ;;;
  df <- generate_time_series 42 default_periods ;;
  latest <- match iloc_last df with
            | Some r => ret r
            | None => raise IndexError
            end ;;
  now <- utcnow ;;
  let summary_lines :=
    ([("Organization: " ++ org)%string;
      ("Generated: " ++ strftime now)%string]
     ++ map (fun '(k, v) => (k ++ ": " ++ float_str v)%string) latest)%list in
  pdf <- make_pdf_bytes org summary_lines ;;
  ret (mkaudit latest df summary_lines pdf (org ++ "_earth3_audit.pdf")%string).

End Program.

(** The impact simulation: [base_revenue] is a float, [invest_pct] an
    integer taken from the slider. *)
Definition uplift (base_revenue : float) (invest_pct : Z) : float :=
  (base_revenue * Z2F invest_pct / 100)%float.

Definition projected (base_revenue : float) (invest_pct : Z) : float :=
  (base_revenue + uplift base_revenue invest_pct)%float.

(** [f"{x:.1f}"]: the exact value of the float rounded to one decimal,
    ties to the even digit; the sign is kept, also that of a zero. *)
Definition round_tenths (m : positive) (e : Z) : Z :=
  if 0 <=? e then Z.pos m * 10 * 2 ^ e
  else
    let d := 2 ^ (- e) in
    let q := (Z.pos m * 10) / d in
    let r := (Z.pos m * 10) mod d in
    if 2 * r <? d then q
    else if d <? 2 * r then q + 1
    else if Z.even q then q else q + 1.

Definition fixed_1 (n : Z) : string :=
  (decimal (n / 10) ++ "." ++ decimal (n mod 10))%string.

Definition format_1f (x : float) : string :=
  match Prim2SF x with
  | S754_nan => "nan"%string
  | S754_infinity s => if s then "-inf"%string else "inf"%string
  | S754_zero s => if s then "-0.0"%string else "0.0"%string
  | S754_finite s m e =>
      ((if s then "-" else "") ++ fixed_1 (round_tenths m e))%string
  end.

Section ImpactHandler.

Context {L : Libraries}.

Local Open Scope monad_scope.

(** What the impact handler hands to the page: the metric with its delta
    and the two bars of the chart. *)
Record impact_view := mkimpact
  { metric_value : string;
    metric_delta : string;
    sim_df : list (string * float) }.

(** The handler of the "Run Impact Simulation" button. *)
Definition run_impact_simulation (base_revenue : float) (invest_pct : Z)
  : M impact_view :=
  sleep ;;;
  let uplift := (base_revenue * Z2F invest_pct / 100)%float in
  let projected := (base_revenue + uplift)%float in
  ret (mkimpact (format_1f projected ++ "M")%string
                ("+" ++ format_1f uplift ++ "M")%string
                [("Current"%string, base_revenue);
                 ("With Earth 3.0"%string, projected)]).

End ImpactHandler.

(** ** A small instance of the libraries, to run the program on

    The generator is a counter, a draw is [loc + scale * g] for [g] cycling
    through a few fixed values; the writer lists the strings of each page. *)

Module Toy.

Definition toy_gauss (s : Z) : float :=
  nth (Z.to_nat (s mod 5)) [0.5; -1.25; 2; -0.75; 11]%float 0%float.

Definition toy_draw (loc scale : float) (s : Z) : float * Z :=
  ((loc + scale * toy_gauss s)%float, s + 1).

Definition toy_str (v : float) : string :=
  match Prim2SF (rint (v * 10)) with
  | S754_finite false m e => decimal (Z.shiftl (Zpos m) e)
  | _ => "0"%string
  end.

Definition toy_writer (d : document) : list Byte.byte :=
  flat_map (fun p => flat_map list_byte_of_string (page_strings p)) (doc_pages d).

#[export] Instance toy_libraries : Libraries :=
  mklibraries Z (fun seed => seed) toy_draw toy_str toy_writer.

Definition toy_clock (d : date) (n : nat) : instant :=
  mkinstant (mkdatetime d 9 30 0) (Z.of_nat n).

Definition toy_world (d : date) : world := mkworld (toy_clock d) 0 0 [].



End Toy.

(** * Notions of the statements *)

(** ** The series, the report, the cache *)

Section ProgramNotions.

Context {L : Libraries}.

(** The cells of the series: they are fixed by the seed and the period
    count alone. *)
Definition series_rows (seed periods : Z) : list (list float) :=
  map (map (round_cell 1))
    (map (map (clip_cell 0 100))
       (Numpy.add_column (Numpy.linspace_fill 60 85 periods)
          (fst (Numpy.draw_rows 0 4 (Z.to_nat periods) 3 (seed_state seed))))).

Definition series_frame (seed periods : Z) (today : date) : DataFrame :=
  mkframe ["Governance"; "ESG"; "Finance"]%string
          (map Stamp (date_range today periods))
          (series_rows seed periods).

Definition valid_seed (seed : Z) : Prop := 0 <= seed < 2 ^ 32.

(** Every reading of the clock is a calendar date. *)
Definition valid_clock (w : world) : Prop :=
  forall n, valid_date (dt_date (utc (clock w n))).

Definition today (w : world) : date := dt_date (utc (clock w (ticks w))).



(** The world after one more reading of the clock. *)
Definition tick (w : world) : world :=
  mkworld (clock w) (S (ticks w)) (rng w) (cache w).

Definition report_title (org_name : string) : string :=
  ("Earth 3.0 — Board Audit Snapshot • " ++ org_name)%string.

(** The one page of the report: title, timestamp line, summary lines. *)
Definition report_page (org_name : string) (summary_lines : list string)
  (generated : string) : page :=
  [SetFont "Helvetica-Bold" 16;
   DrawString 40 (snd A4 - 60) (report_title org_name);
   SetFont "Helvetica" 10;
   DrawString 40 (snd A4 - 82) ("Generated: " ++ generated)%string;
   DrawText (mktext 40 (snd A4 - 120) "Helvetica" 11 summary_lines)].

Definition report_document (org_name : string) (summary_lines : list string)
  (stamp : datetime) (generated : string) : document :=
  mkdocument A4 stamp [report_page org_name summary_lines generated].



(** Every frame in the cache was returned by a run of the generator's body
    on its key, in a world whose clock shows calendar dates. *)
Definition cache_ok (w : world) : Prop :=
  forall k e,
    lookup k (cache w) = Some e ->
    exists w0 w0',
      valid_clock w0
      /\ generate_time_series_wrapped (fst k) (snd k) w0 = (Ok (cached e), w0').

(** The scores of the audit: the last row of the series for seed 42 and the
    default period count, under the three column names. *)
Definition audit_scores : list (string * float) :=
  combine ["Governance"; "ESG"; "Finance"]%string
          (last (series_rows 42 default_periods) []).

Definition score_line (kv : string * float) : string :=
  (fst kv ++ ": " ++ float_str (snd kv))%string.

End ProgramNotions.

(** ** Binary64 numbers as real numbers, and their rounding *)

Section RealPositions.

Local Open Scope R_scope.

Definition bpow (e : Z) : R := powerRZ 2 e.

(** The value of the mantissa [m] at exponent [e]. *)
Definition F2R (m e : Z) : R := IZR m * bpow e.

(** [x] lies at the position that mantissa [m], exponent [e] and location
    [l] describe: on [m * 2^e], or strictly between it and the next multiple,
    below, on or above the middle. *)
Definition inbetween (x : R) (m e : Z) (l : location) : Prop :=
  match l with
  | loc_Exact => x = F2R m e
  | loc_Inexact Lt => F2R m e < x < F2R m e + bpow e / 2
  | loc_Inexact Eq => x = F2R m e + bpow e / 2
  | loc_Inexact Gt => F2R m e + bpow e / 2 < x < F2R m e + bpow e
  end.

End RealPositions.

Section FloatNotions.

Local Open Scope Z_scope.

(** A record describes [x] at exponent [e]. *)
Definition located (x : R) (mrs : shr_record) (e : Z) : Prop :=
  0 <= shr_m mrs /\ inbetween x (shr_m mrs) e (loc_of_shr_record mrs).

(** The canonical position of [x]: at the exponent the format gives to its
    magnitude, with a mantissa below [2^53] that is normalised unless the
    exponent is the smallest one. *)
Definition canon (x : R) (M E : Z) (l : location) : Prop :=
  inbetween x M E l /\ 0 <= M < 2 ^ 53 /\ -1074 <= E
  /\ (E = -1074 \/ 2 ^ 52 <= M).

(** The float that mantissa [N] (already rounded) at exponent [E] stands
    for: zero, a finite number (renormalised when the rounding carried into
    a 54th bit) or an infinity on overflow. *)
Definition rounded (s : bool) (N E : Z) : spec_float :=
  if N =? 0 then S754_zero s
  else if N <? 2 ^ 53
       then (if E <=? 971 then S754_finite s (Z.to_pos N) E else S754_infinity s)
       else (if E + 1 <=? 971 then S754_finite s (Z.to_pos (2 ^ 52)) (E + 1)
             else S754_infinity s).

(** Locations in the order of the positions they describe. *)
Definition loc_rank (l : location) : Z :=
  match l with
  | loc_Exact => 0
  | loc_Inexact Lt => 1
  | loc_Inexact Eq => 2
  | loc_Inexact Gt => 3
  end.

(** [f] is the float that the real number [x >= 0] rounds to: the rounded
    mantissa of its canonical position, at that exponent. *)
Definition rounds_to (x : R) (f : spec_float) : Prop :=
  exists M E l, canon x M E l /\ f = rounded false (round_nearest_even M l) E.

(** The real number a float stands for (0 for infinities and NaN). *)
Definition SF2R (f : spec_float) : R :=
  match f with
  | S754_finite s m e => F2R (cond_Zopp s (Z.pos m)) e
  | _ => 0%R
  end.

Definition B2R (x : float) : R := SF2R (Prim2SF x).

(** Finite and not negative: [+0] or a positive finite number. *)
Definition fin_nn (x : float) : Prop :=
  Prim2SF x = S754_zero false \/ exists m e, Prim2SF x = S754_finite false m e.

Definition finite_pos (x : float) : Prop :=
  exists m e, Prim2SF x = S754_finite false m e.

(** Not negative and not a NaN: [+0], positive finite or [+infinity]. *)
Definition nonneg (x : float) : Prop :=
  fin_nn x \/ Prim2SF x = S754_infinity false.

End FloatNotions.

(** Some floats used as bounds: powers of two, and the float next above
    25. *)

Definition two_63 : float := 0x1p63%float.
Definition two_68 : float := 0x1p68%float.
Definition two_1010 : float := 0x1p1010%float.

(** ** The impact simulation in closed form, and scores *)

(** The closed forms of the impact simulation as binary64 expressions. *)
Definition closed_form_projected (r : float) (pct : Z) : float :=
  (r * (1 + Z2F pct / 100))%float.

Definition closed_form_uplift (r : float) (pct : Z) : float :=
  (projected r pct - r)%float.

(** A score: between 0 and 100 and equal to [k / 10] for an integer [k],
    in the comparisons of Python floats. *)
Definition one_decimal (v : float) : Prop :=
  exists k : Z, 0 <= k <= 1000 /\ feq v (Z2F k / 10).

Definition score (v : float) : Prop :=
  fle 0 v /\ fle v 100 /\ one_decimal v.

(** A date and time that [datetime.utcnow()] can return. *)
Definition valid_time (t : datetime) : Prop :=
  valid_date (dt_date t) /\ 1000 <= year (dt_date t) <= 9999
  /\ 0 <= hour t < 24 /\ 0 <= minute t < 60.

(** The character [c] does not occur in [s]. *)
Fixpoint free_of (c : ascii) (s : string) : Prop :=
  match s with
  | EmptyString => True
  | String a s' => a <> c /\ free_of c s'
  end.

(** The values the clipping returns, a negative zero, or a
    non-negative number that is at most 100. *)
Definition clipped (c : float) : Prop :=
  Prim2SF c = S754_zero true \/ (fin_nn c /\ (B2R c <= 100)%R).



(** ** The steps of the series, cell by cell

    The generator as the specification words it: a baseline that ramps
    linearly from 60 to 85 over the periods, for each metric of each period a
    draw of its own from the seeded generator with mean 0 and standard
    deviation 4, the sum clipped into [0, 100] and rounded to one decimal. *)

Section StatedSteps.

Context {L : Libraries}.

Local Open Scope Z_scope.

(** The baseline of period [i] of [periods]: 60 at the start, 85 at the end,
    equal steps of [(85 - 60) / (periods - 1)] between; a single period
    sits at the start. *)
Definition stated_baseline (periods i : Z) : float :=
  if periods =? 1 then 60%float
  else if i =? periods - 1 then 85%float
  else (Z2F i * ((85 - 60) / Z2F (periods - 1)) + 60)%float.

(** The generator after [n] draws with mean [loc] and deviation [scale]. *)
Fixpoint skip (loc scale : float) (n : nat) (s : rng_state) : rng_state :=
  match n with
  | O => s
  | S n' => skip loc scale n' (snd (normal_draw loc scale s))
  end.

(** Draw number [n] (from 0) after seeding with [seed]. *)
Definition stated_noise (seed : Z) (n : nat) : float :=
  fst (normal_draw 0 4 (skip 0 4 n (seed_state seed))).

Definition stated_clip (x : float) : float :=
  if PrimFloat.ltb x 0 then 0%float
  else if PrimFloat.ltb 100 x then 100%float
  else x.

Definition stated_round (x : float) : float := (rint (x * 10) / 10)%float.

(** Metric [j] of period [i]. *)
Definition stated_cell (seed periods : Z) (i j : nat) : float :=
  stated_round
    (stated_clip (stated_baseline periods (Z.of_nat i)
                  + stated_noise seed (i * 3 + j))%float).

Definition stated_rows (seed periods : Z) : list (list float) :=
  map (fun i => map (stated_cell seed periods i) (seq 0 3))
      (seq 0 (Z.to_nat periods)).

(** No draw with mean 0 and deviation 4 is a NaN. *)
Definition draws_are_numbers : Prop :=
  forall s : rng_state, PrimFloat.is_nan (fst (normal_draw 0 4 s)) = false.

End StatedSteps.

(** * Properties *)

(** ** Month-end ranges *)

Section CalendarFacts.

Lemma days_in_month_pos (y m : Z) : 28 <= days_in_month y m <= 31.
Proof.
  unfold days_in_month.
  destruct (m =? 2); [destruct (is_leap y); lia|].
  destruct ((m =? 4) || (m =? 6) || (m =? 9) || (m =? 11)); lia.
Qed.

Lemma month_index_month_end (n : Z) : month_index (month_end n) = n.
Proof.
  unfold month_index, month_end; cbn [year month].
  pose proof (Z.div_mod n 12 ltac:(lia)). lia.
Qed.



Lemma month_end_month_index (d : date) :
  1 <= month d <= 12 -> is_on_offset d = true -> month_end (month_index d) = d.
Proof.
  intros Hm Hd. unfold is_on_offset in Hd. apply Z.eqb_eq in Hd.
  destruct d as [y m dd]; cbn [year month day] in *.
  unfold month_end, month_index; cbn [year month].
  assert (Hq : (12 * y + (m - 1)) / 12 = y).
  { symmetry. apply (Z.div_unique _ 12 y (m - 1)); lia. }
  assert (Hr : (12 * y + (m - 1)) mod 12 = m - 1).
  { symmetry. apply (Z.mod_unique _ 12 y (m - 1)); lia. }
  rewrite Hq, Hr. replace (m - 1 + 1) with m by lia. now rewrite <- Hd.
Qed.

Lemma month_end_ltb (a b : Z) : a < b -> date_ltb (month_end a) (month_end b) = true.
Proof.
  intros Hab. unfold date_ltb, month_end; cbn [year month day].
  pose proof (Z.div_mod a 12 ltac:(lia)).
  pose proof (Z.div_mod b 12 ltac:(lia)).
  pose proof (Z.mod_pos_bound a 12 ltac:(lia)).
  pose proof (Z.mod_pos_bound b 12 ltac:(lia)).
  destruct (Z.ltb_spec (a / 12) (b / 12)) as [Hlt|Hge]; [reflexivity|].
  assert (Heq : a / 12 = b / 12) by lia.
  rewrite Heq, Z.eqb_refl. cbn [orb andb].
  assert (Hm : a mod 12 + 1 < b mod 12 + 1) by lia.
  apply Z.ltb_lt in Hm. now rewrite Hm.
Qed.

Lemma date_eqb_eq (a b : date) : date_eqb a b = true <-> a = b.
Proof.
  unfold date_eqb. destruct a as [y m d], b as [y' m' d']; cbn [year month day].
  rewrite !andb_true_iff, !Z.eqb_eq. split.
  - intros [[-> ->] ->]. reflexivity.
  - intros H; inversion H; auto.
Qed.

Lemma date_ltb_irrefl (a : date) : date_ltb a a = false.
Proof.
  unfold date_ltb. rewrite !Z.ltb_irrefl, !Z.eqb_refl. reflexivity.
Qed.

Lemma month_end_eqb (a b : Z) : date_eqb (month_end a) (month_end b) = true <-> a = b.
Proof.
  rewrite date_eqb_eq. split; [|now intros ->].
  intros H. rewrite <- (month_index_month_end a), <- (month_index_month_end b).
  now rewrite H.
Qed.

Lemma month_end_leb (a b : Z) : a <= b -> date_leb (month_end a) (month_end b) = true.
Proof.
  intros Hab. unfold date_leb.
  destruct (Z.eq_dec a b) as [->|Hne].
  - replace (date_eqb (month_end b) (month_end b)) with true; [apply orb_true_r|].
    symmetry. now apply month_end_eqb.
  - rewrite month_end_ltb by lia. reflexivity.
Qed.

(** With enough fuel the range loop yields the month ends from [a] to [b]. *)
Lemma generate_range_month_ends (fuel : nat) (a b : Z) :
  a <= b -> Z.of_nat fuel = b - a + 1 ->
  generate_range fuel (month_end a) (month_end b)
  = map (fun i => month_end (a + Z.of_nat i)) (seq 0 fuel).
Proof.
  revert a. induction fuel as [|fuel IH]; intros a Hab Hfuel; [lia|].
  cbn [generate_range]. rewrite month_end_leb by lia.
  change (seq 0 (S fuel)) with (0%nat :: seq 1 fuel).
  cbn [map]. replace (a + Z.of_nat 0) with a by lia. f_equal.
  destruct (date_eqb (month_end a) (month_end b)) eqn:Heq.
  - apply month_end_eqb in Heq. subst b.
    assert (fuel = 0%nat) by lia. subst fuel. reflexivity.
  - assert (a <> b) by (intros ->; rewrite (proj2 (month_end_eqb b b) eq_refl) in Heq; discriminate).
    unfold add_months. rewrite month_index_month_end.
    rewrite IH by lia. rewrite <- seq_shift, map_map.
    apply map_ext. intros i. f_equal. lia.
Qed.

Lemma rollback_month_end (d : date) :
  1 <= month d <= 12 ->
  rollback d = month_end (if is_on_offset d then month_index d else month_index d - 1).
Proof.
  intros Hm. unfold rollback. destruct (is_on_offset d) eqn:Hon; [|reflexivity].
  symmetry. now apply month_end_month_index.
Qed.

(** The range is made of the [periods] month ends up to the rolled-back end. *)
Lemma date_range_month_ends (end_ : date) (periods : Z) :
  1 <= month end_ <= 12 ->
  date_range end_ periods
  = map (fun i => month_end (month_index (rollback end_) - (periods - 1) + Z.of_nat i))
        (seq 0 (Z.to_nat periods)).
Proof.
  intros Hm. unfold date_range.
  destruct (Z.le_gt_cases periods 0) as [Hp|Hp].
  - replace (Z.to_nat periods) with 0%nat by lia. reflexivity.
  - rewrite (rollback_month_end end_ Hm).
    set (k := if is_on_offset end_ then month_index end_ else month_index end_ - 1).
    unfold add_months. rewrite month_index_month_end.
    apply generate_range_month_ends; lia.
Qed.

Lemma date_range_length (end_ : date) (periods : Z) :
  1 <= month end_ <= 12 -> List.length (date_range end_ periods) = Z.to_nat periods.
Proof.
  intros Hm. rewrite date_range_month_ends by assumption.
  now rewrite length_map, length_seq.
Qed.

End CalendarFacts.

(** ** Running the series generator *)

Section SeriesFacts.

Context {L : Libraries}.

Lemma draw_row_length (loc scale : float) (n : nat) (s : rng_state) :
  List.length (fst (Numpy.draw_row loc scale n s)) = n.
Proof.
  revert s. induction n as [|n IH]; intros s; [reflexivity|].
  cbn [Numpy.draw_row]. destruct (normal_draw loc scale s) as [x s1].
  specialize (IH s1). destruct (Numpy.draw_row loc scale n s1) as [xs s2].
  cbn [fst List.length] in *. now rewrite IH.
Qed.

Lemma draw_rows_length (loc scale : float) (nrows ncols : nat) (s : rng_state) :
  List.length (fst (Numpy.draw_rows loc scale nrows ncols s)) = nrows.
Proof.
  revert s. induction nrows as [|n IH]; intros s; [reflexivity|].
  cbn [Numpy.draw_rows]. destruct (Numpy.draw_row loc scale ncols s) as [r s1].
  specialize (IH s1). destruct (Numpy.draw_rows loc scale n ncols s1) as [rs s2].
  cbn [fst List.length] in *. now rewrite IH.
Qed.

Lemma draw_rows_width (loc scale : float) (nrows ncols : nat) (s : rng_state) :
  Forall (fun r => List.length r = ncols) (fst (Numpy.draw_rows loc scale nrows ncols s)).
Proof.
  revert s. induction nrows as [|n IH]; intros s; [constructor|].
  cbn [Numpy.draw_rows].
  pose proof (draw_row_length loc scale ncols s) as Hr.
  destruct (Numpy.draw_row loc scale ncols s) as [r s1].
  specialize (IH s1). destruct (Numpy.draw_rows loc scale n ncols s1) as [rs s2].
  cbn [fst] in *. now constructor.
Qed.

Lemma set_last_length (y : list float) (stop : float) :
  List.length (Numpy.set_last y stop) = List.length y.
Proof.
  destruct y as [|a y]; [reflexivity|].
  unfold Numpy.set_last.
  rewrite length_app, removelast_firstn_len, length_firstn. cbn [List.length]. lia.
Qed.

Lemma linspace_fill_length (start stop : float) (num : Z) :
  List.length (Numpy.linspace_fill start stop num) = Z.to_nat num.
Proof.
  unfold Numpy.linspace_fill.
  assert (Ha : List.length (Numpy.arange num) = Z.to_nat num).
  { unfold Numpy.arange. now rewrite length_map, length_seq. }
  destruct (1 <? num); [rewrite set_last_length|];
    rewrite length_map;
    destruct (0 <? num - 1); try destruct (PrimFloat.eqb _ _);
    now rewrite length_map.
Qed.

Lemma add_column_length (column : list float) (a : list (list float)) :
  List.length column = List.length a ->
  List.length (Numpy.add_column column a) = List.length a.
Proof.
  intros H. unfold Numpy.add_column. rewrite length_map, length_combine. lia.
Qed.

Lemma add_column_width (n : nat) (column : list float) (a : list (list float)) :
  Forall (fun r => List.length r = n) a ->
  Forall (fun r => List.length r = n) (Numpy.add_column column a).
Proof.
  intros Ha. revert column. induction Ha as [|r a Hr Ha IH]; intros column.
  - destruct column; constructor.
  - destruct column as [|b column]; [constructor|].
    cbn. constructor; [now rewrite length_map|apply IH].
Qed.

Lemma series_rows_length (seed periods : Z) :
  List.length (series_rows seed periods) = Z.to_nat periods.
Proof.
  unfold series_rows. rewrite !length_map, add_column_length;
    rewrite draw_rows_length; [reflexivity|apply linspace_fill_length].
Qed.

(** A run of the body, written out: an error for a seed or a length that
    NumPy refuses or for an index of the wrong length, and otherwise the frame
    [series_frame], after one reading of the clock and [3 * periods] draws
    from the freshly seeded generator. *)
Lemma generate_time_series_wrapped_eq (seed periods : Z) (w : world) :
  generate_time_series_wrapped seed periods w
  = if (0 <=? seed) && (seed <? 2 ^ 32) then
      if (periods <? 0) || (2 ^ 63 <=? periods)
      then (Raise ValueError,
            mkworld (clock w) (ticks w) (seed_state seed) (cache w))
      else
        let w' := mkworld (clock w) (S (ticks w))
                    (snd (Numpy.draw_rows 0 4 (Z.to_nat periods) 3 (seed_state seed)))
                    (cache w) in
        if Nat.eqb (List.length (date_range (today w) periods)) (Z.to_nat periods)
        then (Ok (series_frame seed periods (today w)), w')
        else (Raise ValueError, w')
    else (Raise ValueError, w).
Proof.
  unfold generate_time_series_wrapped, bind at 1, Numpy.random_seed.
  destruct ((0 <=? seed) && (seed <? 2 ^ 32)) eqn:Hs; [|reflexivity].
  unfold set_rng at 1.
  unfold bind at 1, Numpy.linspace.
  destruct ((periods <? 0) || (2 ^ 63 <=? periods)) eqn:Hp; [reflexivity|].
  apply orb_false_iff in Hp. destruct Hp as [Hp1 Hp2].
  unfold ret at 1.
  unfold bind at 1, Numpy.random_normal.
  rewrite Hp1. cbn [orb Z.ltb Z.compare].
  unfold bind at 1, get_rng at 1; cbn [rng].
  change (Z.to_nat 3) with 3%nat.
  pose proof (draw_rows_length 0 4 (Z.to_nat periods) 3 (seed_state seed)) as Hlen.
  pose proof (draw_rows_width 0 4 (Z.to_nat periods) 3 (seed_state seed)) as Hwid.
  unfold series_frame, series_rows.
  destruct (Numpy.draw_rows 0 4 (Z.to_nat periods) 3 (seed_state seed)) as [noise s'].
  cbn [fst snd] in *.
  unfold bind at 1, set_rng at 1. unfold ret at 1.
  unfold bind at 1, pd_DataFrame.
  assert (Hcheck : forallb (fun r => Nat.eqb (List.length r) 3)
                     (Numpy.add_column (Numpy.linspace_fill 60 85 periods) noise) = true).
  { apply forallb_forall. intros r Hr. apply Nat.eqb_eq.
    pose proof (add_column_width 3 (Numpy.linspace_fill 60 85 periods) noise Hwid) as Hw.
    rewrite Forall_forall in Hw. now apply Hw. }
  cbn [List.length]. rewrite Hcheck. unfold ret at 1.
  unfold bind at 1, utcnow, bind at 1, read_clock. unfold ret at 1.
  cbn [clock ticks rng cache].
  unfold bind at 1, set_index; cbn [rows columns].
  rewrite length_map.
  rewrite add_column_length by (now rewrite linspace_fill_length, Hlen).
  rewrite Hlen. fold (today w).
  destruct (Nat.eqb _ _); reflexivity.
Qed.

(** With a seed NumPy accepts, a length an array can have and a clock that
    shows calendar dates, the body returns that frame. *)
Lemma generate_time_series_wrapped_run (seed periods : Z) (w : world) :
  valid_seed seed -> 0 <= periods < 2 ^ 63 -> valid_clock w ->
  generate_time_series_wrapped seed periods w
  = (Ok (series_frame seed periods (today w)),
     mkworld (clock w) (S (ticks w))
             (snd (Numpy.draw_rows 0 4 (Z.to_nat periods) 3 (seed_state seed)))
             (cache w)).
Proof.
  intros [Hs1 Hs2] Hp Hc. rewrite generate_time_series_wrapped_eq.
  apply Z.leb_le in Hs1. apply Z.ltb_lt in Hs2. rewrite Hs1, Hs2. cbn [andb].
  replace ((periods <? 0) || (2 ^ 63 <=? periods)) with false
    by (symmetry; apply orb_false_iff; split; [apply Z.ltb_ge|apply Z.leb_gt]; lia).
  cbv zeta. rewrite date_range_length by apply Hc. now rewrite Nat.eqb_refl.
Qed.

Lemma generate_time_series_wrapped_inv (seed periods : Z) (w w' : world) (df : DataFrame) :
  generate_time_series_wrapped seed periods w = (Ok df, w') ->
  valid_seed seed /\ 0 <= periods < 2 ^ 63
  /\ df = series_frame seed periods (today w).
Proof.
  rewrite generate_time_series_wrapped_eq. unfold valid_seed.
  destruct (Z.leb_spec 0 seed); destruct (Z.ltb_spec seed (2 ^ 32));
    cbn [andb]; try discriminate.
  destruct (Z.ltb_spec periods 0); destruct (Z.leb_spec (2 ^ 63) periods);
    cbn [orb]; try discriminate.
  cbv zeta. destruct (Nat.eqb _ _); [|discriminate].
  intros Hrun. inversion Hrun. repeat split; auto; lia.
Qed.

End SeriesFacts.

(** ** The dates of the series *)

Section SeriesDates.

Context {L : Libraries}.


Lemma last_map_seq {A : Type} (f : nat -> A) (n : nat) (d : A) :
  last (map f (seq 0 (S n))) d = f n.
Proof.
  rewrite seq_S, map_app. cbn [map]. apply last_last.
Qed.



End SeriesDates.

(** ** C3: shape and dates of the series *)

Section SeriesShape.

Context {L : Libraries}.


End SeriesShape.



(** ** The report renderer *)

Section ReportFacts.

Context {L : Libraries}.

Lemma fold_textLine (lines : list string) (t : text_object) :
  fold_left (fun t line => textLine line t) lines t
  = mktext (text_x t) (text_y t) (text_font t) (text_size t)
           (text_lines t ++ lines)%list.
Proof.
  revert t. induction lines as [|l lines IH]; intros t; cbn [fold_left].
  - rewrite app_nil_r. now destruct t.
  - rewrite IH. unfold textLine; cbn. now rewrite <- app_assoc.
Qed.

(** Writing into a fresh buffer, rewinding and reading gives the data back. *)
Lemma read_back (data : list Byte.byte) :
  fst (read (seek 0 (write data BytesIO_new))) = data.
Proof.
  unfold read, seek, write, BytesIO_new; cbn.
  rewrite skipn_nil. apply app_nil_r.
Qed.

(** The renderer never raises: it reads the clock twice and returns the
    bytes of the one-page document [report_document]. *)
Lemma make_pdf_bytes_run (org_name : string) (summary_lines : list string) (w : world) :
  make_pdf_bytes org_name summary_lines w
  = (Ok (SaveToFile
           (report_document org_name summary_lines
              (utc (clock w (ticks w)))
              (strftime (utc (clock w (S (ticks w))))))),
     tick (tick w)).
Proof.
  unfold make_pdf_bytes, bind, utcnow, bind, read_clock, ret; cbn [clock ticks rng cache].
  unfold A4 at 1. cbv beta iota zeta. cbn [clock ticks rng cache].
  rewrite read_back, fold_textLine. reflexivity.
Qed.

(** C6.  For every organisation name and every list of summary lines the
    renderer returns, without raising, the bytes of a document of exactly one
    A4 page, which shows the title with the organisation name, the timestamp
    line and then the summary lines; for an empty list the page shows the
    title and the timestamp line only. *)
Theorem report_is_one_page (org_name : string) (summary_lines : list string) (w : world) :
  exists doc w' now,
    make_pdf_bytes org_name summary_lines w = (Ok (SaveToFile doc), w')
    /\ List.length (doc_pages doc) = 1%nat
    /\ doc_pagesize doc = A4
    /\ map page_strings (doc_pages doc)
       = [(report_title org_name :: ("Generated: " ++ strftime now)%string
             :: summary_lines)%list]
    /\ (summary_lines = [] ->
        map page_strings (doc_pages doc)
        = [[report_title org_name; ("Generated: " ++ strftime now)%string]]).
Proof.
  eexists _, _, (utc (clock w (S (ticks w)))). split; [apply make_pdf_bytes_run|].
  cbn [doc_pages doc_pagesize report_document List.length].
  assert (Hshow : map page_strings
            [report_page org_name summary_lines
               (strftime (utc (clock w (S (ticks w)))))]
          = [(report_title org_name
                :: ("Generated: " ++ strftime (utc (clock w (S (ticks w)))))%string
                :: summary_lines)%list]).
  { unfold report_page, page_strings.
    cbn [map flat_map op_strings text_lines app]. now rewrite app_nil_r. }
  split; [reflexivity|]. split; [reflexivity|].
  split; [exact Hshow|]. intros ->. exact Hshow.
Qed.


End ReportFacts.

(** ** The cached generator *)

Section CacheFacts.

Context {L : Libraries}.

Lemma lookup_cons (k k' : Z * Z) (e : cache_entry) (c : list ((Z * Z) * cache_entry)) :
  lookup k ((k', e) :: c) = if (fst k =? fst k') && (snd k =? snd k') then Some e else lookup k c.
Proof. reflexivity. Qed.

Lemma cached_frame (w : world) (seed periods : Z) (e : cache_entry) :
  cache_ok w -> lookup (seed, periods) (cache w) = Some e ->
  valid_seed seed /\ 0 <= periods < 2 ^ 63
  /\ exists d, valid_date d /\ cached e = series_frame seed periods d.
Proof.
  intros Hc Hl. destruct (Hc _ _ Hl) as (w0 & w0' & Hv & Hrun).
  apply generate_time_series_wrapped_inv in Hrun. cbn [fst snd] in Hrun.
  destruct Hrun as (Hs & Hp & Hdf).
  split; [exact Hs|]. split; [exact Hp|].
  exists (today w0). split; [apply Hv|exact Hdf].
Qed.

(** A call that finds nothing fresh in the cache runs the body one clock
    reading later and stores the frame. *)
Lemma generate_time_series_miss (seed periods : Z) (w : world) :
  valid_seed seed -> 0 <= periods < 2 ^ 63 -> valid_clock w ->
  (forall e, lookup (seed, periods) (cache w) = Some e ->
             expires e <= monotonic (clock w (ticks w))) ->
  generate_time_series seed periods w
  = (Ok (series_frame seed periods (today (tick w))),
     mkworld (clock w) (S (S (ticks w)))
       (snd (Numpy.draw_rows 0 4 (Z.to_nat periods) 3 (seed_state seed)))
       (((seed, periods),
         mkentry (series_frame seed periods (today (tick w)))
                 (monotonic (clock w (ticks w)) + 60 * 10)) :: cache w)).
Proof.
  intros Hs Hp Hc Hexp.
  assert (Hrun := generate_time_series_wrapped_run seed periods (tick w) Hs Hp Hc).
  unfold generate_time_series, cache_data.
  unfold bind at 1, read_clock at 1. fold (tick w).
  unfold bind at 1, get_cache at 1. cbn [cache tick].
  destruct (lookup (seed, periods) (cache w)) as [e|] eqn:Hl.
  - specialize (Hexp e eq_refl). apply Z.ltb_ge in Hexp. rewrite Hexp.
    unfold bind at 1. fold (tick w). rewrite Hrun. reflexivity.
  - unfold bind at 1. fold (tick w). rewrite Hrun. reflexivity.
Qed.

(** A call that finds a fresh frame returns it and only reads the clock. *)
Lemma generate_time_series_hit (seed periods : Z) (w : world) (e : cache_entry) :
  lookup (seed, periods) (cache w) = Some e ->
  monotonic (clock w (ticks w)) < expires e ->
  generate_time_series seed periods w = (Ok (cached e), tick w).
Proof.
  intros Hl Hlive. unfold generate_time_series, cache_data.
  unfold bind at 1, read_clock at 1. fold (tick w).
  unfold bind at 1, get_cache at 1. cbn [cache tick].
  rewrite Hl. apply Z.ltb_lt in Hlive. rewrite Hlive. reflexivity.
Qed.

(** Whatever the cache holds, a call with arguments the body accepts returns
    a frame with the cells [series_rows]; the world it leaves has the same
    clock and again a cache of frames the body returned. *)
Lemma generate_time_series_run (seed periods : Z) (w : world) :
  valid_seed seed -> 0 <= periods < 2 ^ 63 -> valid_clock w -> cache_ok w ->
  exists d w',
    valid_date d
    /\ generate_time_series seed periods w = (Ok (series_frame seed periods d), w')
    /\ clock w' = clock w /\ cache_ok w'.
Proof.
  intros Hs Hp Hc Hok.
  destruct (lookup (seed, periods) (cache w)) as [e|] eqn:Hl.
  - destruct (Z.lt_ge_cases (monotonic (clock w (ticks w))) (expires e)) as [Hlive|Hdead].
    + destruct (cached_frame w seed periods e Hok Hl) as (_ & _ & d & Hv & Hd).
      exists d, (tick w). split; [exact Hv|].
      rewrite <- Hd. split; [now apply generate_time_series_hit|].
      split; [reflexivity|exact Hok].
    + eexists _, _. split; [apply (Hc (S (ticks w)))|]. split.
      { apply generate_time_series_miss; try assumption.
        intros e' He'. rewrite Hl in He'. inversion He'. subst e'. lia. }
      split; [reflexivity|].
      intros k e' Hk. cbn [cache] in Hk. rewrite lookup_cons in Hk. cbn [fst snd] in Hk.
      destruct ((fst k =? seed) && (snd k =? periods)) eqn:Hkey.
      * inversion Hk. subst e'. apply andb_true_iff in Hkey.
        destruct Hkey as [H1 H2]. apply Z.eqb_eq in H1, H2. rewrite H1, H2.
        exists (tick w). eexists. split; [exact Hc|].
        cbn [cached]. now apply generate_time_series_wrapped_run.
      * now apply Hok.
  - eexists _, _. split; [apply (Hc (S (ticks w)))|]. split.
    { apply generate_time_series_miss; try assumption.
      intros e' He'. rewrite Hl in He'. discriminate. }
    split; [reflexivity|].
    intros k e' Hk. cbn [cache] in Hk. rewrite lookup_cons in Hk. cbn [fst snd] in Hk.
    destruct ((fst k =? seed) && (snd k =? periods)) eqn:Hkey.
    + inversion Hk. subst e'. apply andb_true_iff in Hkey.
      destruct Hkey as [H1 H2]. apply Z.eqb_eq in H1, H2. rewrite H1, H2.
      exists (tick w). eexists. split; [exact Hc|].
      cbn [cached]. now apply generate_time_series_wrapped_run.
    + now apply Hok.
Qed.

End CacheFacts.

(** ** C1: same arguments, same values *)

Section SameArguments.

Context {L : Libraries}.

Lemma valid_clock_same (w w' : world) :
  clock w' = clock w -> valid_clock w -> valid_clock w'.
Proof. unfold valid_clock. intros ->. auto. Qed.



End SameArguments.

Lemma empty_cache_ok {L : Libraries} (w : world) : cache w = [] -> cache_ok w.
Proof. intros H k e Hl. rewrite H in Hl. discriminate. Qed.

Lemma toy_clock_valid (d : date) :
  valid_date d -> valid_clock (Toy.toy_world d).
Proof. intros Hd n. exact Hd. Qed.



(** ** C9: the audit handler *)

Section AuditFacts.

Context {L : Libraries}.

Lemma iloc_last_some (df : DataFrame) :
  rows df <> [] ->
  iloc_last df = Some (combine (columns df) (last (rows df) [])).
Proof.
  intros Hne. unfold iloc_last.
  rewrite (app_removelast_last [] Hne) at 1.
  rewrite rev_app_distr. reflexivity.
Qed.

Lemma series_rows_nonempty (seed periods : Z) :
  1 <= periods -> series_rows seed periods <> [].
Proof.
  intros Hp Hnil. apply (f_equal (@List.length _)) in Hnil.
  rewrite series_rows_length in Hnil. cbn [List.length] in Hnil. lia.
Qed.

(** A run of the handler: it never raises, shows [audit_scores] and puts
    the organisation name only into the first summary line, the title of the
    report and the file name. *)
Lemma run_simulated_audit_run (org : string) (w : world) :
  valid_clock w -> cache_ok w ->
  exists v w' now,
    run_simulated_audit org w = (Ok v, w')
    /\ audit_df v = audit_scores
    /\ rows (chart v) = series_rows 42 default_periods
    /\ summary v = (("Organization: " ++ org)%string
                    :: ("Generated: " ++ strftime now)%string
                    :: map score_line audit_scores)%list
    /\ file_name v = (org ++ "_earth3_audit.pdf")%string
    /\ clock w' = clock w /\ cache_ok w'.
Proof.
  intros Hc Hok.
  assert (Hct : valid_clock (tick w)) by (apply (valid_clock_same w); [reflexivity|exact Hc]).
  assert (Hokt : cache_ok (tick w)) by exact Hok.
  destruct (generate_time_series_run 42 default_periods (tick w))
    as (d & w1 & Hd & Hrun & Hclk & Hok1);
    [unfold valid_seed; lia|unfold default_periods; lia|assumption|assumption|].
  unfold run_simulated_audit.
  unfold bind at 1, sleep, bind at 1, read_clock at 1, ret at 1. fold (tick w).
  unfold bind at 1. rewrite Hrun.
  rewrite iloc_last_some
    by (cbn [rows series_frame]; apply series_rows_nonempty; unfold default_periods; lia).
  unfold bind at 1, ret at 1.
  unfold bind at 1, utcnow at 1, bind at 1, read_clock at 1, ret at 1.
  unfold bind at 1. rewrite make_pdf_bytes_run. unfold ret.
  eexists _, _, (utc (clock w1 (ticks w1))).
  split; [reflexivity|].
  cbn [audit_df chart summary file_name rows columns series_frame].
  split; [reflexivity|]. split; [reflexivity|].
  split.
  { cbn [app]. do 2 f_equal. apply map_ext. intros [k v]. reflexivity. }
  split; [reflexivity|].
  split; [exact Hclk|exact Hok1].
Qed.

(** C9.  The handler calls the generator with seed 42 and the default period
    count: two audits, for any two organisation names and in any two worlds
    the program can be in, both succeed and show the same metric names and
    scores, plot the same values and write the same score lines into the
    report. *)
Theorem audit_scores_ignore_org (org1 org2 : string) (w1 w2 : world) :
  valid_clock w1 -> valid_clock w2 -> cache_ok w1 -> cache_ok w2 ->
  exists v1 w1' v2 w2',
    run_simulated_audit org1 w1 = (Ok v1, w1')
    /\ run_simulated_audit org2 w2 = (Ok v2, w2')
    /\ audit_df v1 = audit_scores
    /\ audit_df v1 = audit_df v2
    /\ rows (chart v1) = rows (chart v2)
    /\ skipn 2 (summary v1) = map score_line (audit_df v1)
    /\ skipn 2 (summary v1) = skipn 2 (summary v2).
Proof.
  intros Hc1 Hc2 Hok1 Hok2.
  destruct (run_simulated_audit_run org1 w1 Hc1 Hok1)
    as (v1 & w1' & t1 & Hrun1 & Ha1 & Hr1 & Hs1 & _).
  destruct (run_simulated_audit_run org2 w2 Hc2 Hok2)
    as (v2 & w2' & t2 & Hrun2 & Ha2 & Hr2 & Hs2 & _).
  exists v1, w1', v2, w2'.
  split; [exact Hrun1|]. split; [exact Hrun2|].
  split; [exact Ha1|]. split; [congruence|]. split; [congruence|].
  rewrite Hs1, Hs2, Ha1. cbn [skipn]. split; reflexivity.
Qed.

End AuditFacts.

Lemma audit_scores_ignore_org_witness :
  exists v1 w1' v2 w2',
    run_simulated_audit "Acme Global" (Toy.toy_world (mkdate 2026 11 3)) = (Ok v1, w1')
    /\ run_simulated_audit "Globex" (Toy.toy_world (mkdate 2026 2 28)) = (Ok v2, w2')
    /\ audit_df v1 = audit_scores (L := Toy.toy_libraries)
    /\ audit_df v1 = audit_df v2
    /\ rows (chart v1) = rows (chart v2)
    /\ skipn 2 (summary v1) = map (score_line (L := Toy.toy_libraries)) (audit_df v1)
    /\ skipn 2 (summary v1) = skipn 2 (summary v2).
Proof.
  apply (audit_scores_ignore_org "Acme Global" "Globex"
           (Toy.toy_world (mkdate 2026 11 3)) (Toy.toy_world (mkdate 2026 2 28))).
  - apply toy_clock_valid. unfold valid_date. vm_compute. intuition discriminate.
  - apply toy_clock_valid. unfold valid_date. vm_compute. intuition discriminate.
  - apply empty_cache_ok. reflexivity.
  - apply empty_cache_ok. reflexivity.
Defined.

(** ** Binary64: from primitive floats to their specification *)

Section Binary64Facts.

Local Open Scope Z_scope.

Lemma Prim2SF_inj (x y : float) : Prim2SF x = Prim2SF y -> x = y.
Proof.
  intros H. rewrite <- (SF2Prim_Prim2SF x), <- (SF2Prim_Prim2SF y). now rewrite H.
Qed.

Lemma SFcompare_refl_finite (s : bool) (m : positive) (e : Z) :
  SFcompare (S754_finite s m e) (S754_finite s m e) = Some Eq.
Proof.
  cbn [SFcompare]. rewrite Z.compare_refl.
  change (PosDef.Pos.compare_cont Eq m m) with (Pos.compare m m).
  rewrite Pos.compare_refl. now destruct s.
Qed.

(** [math.isfinite]: neither a NaN nor an infinity. *)
Lemma is_finite_SF (x : float) :
  PrimFloat.is_finite x
  = match Prim2SF x with
    | S754_zero _ | S754_finite _ _ _ => true
    | _ => false
    end.
Proof.
  unfold PrimFloat.is_finite, PrimFloat.is_nan, PrimFloat.is_infinity.
  rewrite !eqb_spec, abs_spec.
  change (Prim2SF infinity) with (S754_infinity false).
  destruct (Prim2SF x) as [s|s| |s m e]; try reflexivity.
  - now destruct s.
  - unfold SFeqb. rewrite SFcompare_refl_finite. reflexivity.
Qed.

(** A float that is at least a positive finite one and is not an infinity
    is a positive finite float. *)
Lemma leb_positive_finite (a x : float) (ma : positive) (ea : Z) :
  Prim2SF a = S754_finite false ma ea ->
  PrimFloat.leb a x = true -> PrimFloat.is_finite x = true ->
  exists m e, Prim2SF x = S754_finite false m e.
Proof.
  intros Ha Hle Hfin. rewrite leb_spec, Ha in Hle. rewrite is_finite_SF in Hfin.
  destruct (Prim2SF x) as [s|s| |s m e]; try discriminate.
  destruct s; [discriminate|eauto].
Qed.

End Binary64Facts.

(** ** C8: a percentage of zero *)

Lemma uplift_at_zero (r : float) :
  PrimFloat.is_finite r = true -> PrimFloat.leb 10 r = true ->
  uplift r 0 = 0%float /\ projected r 0 = r.
Proof.
  intros Hfin Hle.
  destruct (leb_positive_finite 10 r 5629499534213120 (-49) eq_refl Hle Hfin)
    as (m & e & Hr).
  assert (Hu : uplift r 0 = 0%float).
  { apply Prim2SF_inj. unfold uplift.
    rewrite div_spec, mul_spec, Hr.
    change (Prim2SF (Z2F 0)) with (S754_zero false).
    reflexivity. }
  split; [exact Hu|].
  apply Prim2SF_inj. unfold projected. rewrite Hu, add_spec, Hr. reflexivity.
Qed.

(** C8.  For every finite base revenue [r >= 10], a percentage of 0 gives
    an uplift of exactly 0 and a projected revenue equal to [r]. *)
Theorem zero_percent_no_uplift (r : float) :
  PrimFloat.is_finite r = true -> PrimFloat.leb 10 r = true ->
  uplift r 0 = 0%float /\ projected r 0 = r.
Proof. exact (uplift_at_zero r). Qed.

Lemma zero_percent_no_uplift_witness :
  uplift 500 0 = 0%float /\ projected 500 0 = 500%float.
Proof.
  apply (zero_percent_no_uplift 500); reflexivity.
Defined.

(** ** Binary64: real values and located positions *)

Section Rounding.

Local Open Scope R_scope.

Lemma bpow_gt_0 (e : Z) : 0 < bpow e.
Proof. apply powerRZ_lt. lra. Qed.

Lemma bpow_plus (a b : Z) : bpow (a + b) = bpow a * bpow b.
Proof. apply powerRZ_add. lra. Qed.

Lemma bpow_0 : bpow 0 = 1.
Proof. reflexivity. Qed.

Lemma bpow_1 : bpow 1 = 2.
Proof. apply (powerRZ_1 2). Qed.

Lemma bpow_succ (e : Z) : bpow (e + 1) = 2 * bpow e.
Proof. rewrite bpow_plus, bpow_1. lra. Qed.

Lemma bpow_le (a b : Z) : (a <= b)%Z -> bpow a <= bpow b.
Proof.
  intros H. replace b with (a + (b - a))%Z by lia. rewrite bpow_plus.
  assert (1 <= bpow (b - a)).
  { unfold bpow. destruct (b - a)%Z as [|p|p] eqn:Hd; [cbn; lra| |lia].
    cbn. apply pow_R1_Rle. lra. }
  pose proof (bpow_gt_0 a). nra.
Qed.

Lemma bpow_lt (a b : Z) : (a < b)%Z -> bpow a < bpow b.
Proof.
  intros H. assert (Hle := bpow_le (a + 1) b ltac:(lia)).
  rewrite bpow_succ in Hle. pose proof (bpow_gt_0 a). lra.
Qed.

Lemma bpow_lt_inv (a b : Z) : bpow a < bpow b -> (a < b)%Z.
Proof.
  intros H. destruct (Z.lt_ge_cases a b) as [Hlt|Hge]; [exact Hlt|].
  pose proof (bpow_le b a Hge). lra.
Qed.

Lemma bpow_IZR (n : Z) : (0 <= n)%Z -> IZR (2 ^ n) = bpow n.
Proof.
  intros Hn. unfold bpow. destruct n as [|p|p]; [reflexivity| |lia].
  rewrite <- Zpower_pos_powerRZ. reflexivity.
Qed.

Lemma F2R_shift (m e : Z) : F2R (2 * m) e = F2R m (e + 1).
Proof. unfold F2R. rewrite mult_IZR, bpow_succ. lra. Qed.

Lemma F2R_succ (m e : Z) : F2R (m + 1) e = F2R m e + bpow e.
Proof. unfold F2R. rewrite plus_IZR. lra. Qed.

Lemma F2R_le (m1 m2 e : Z) : (m1 <= m2)%Z -> F2R m1 e <= F2R m2 e.
Proof.
  intros H. unfold F2R. apply IZR_le in H. pose proof (bpow_gt_0 e). nra.
Qed.

Lemma F2R_lt_inv (m1 m2 e : Z) : F2R m1 e < F2R m2 e -> (m1 < m2)%Z.
Proof.
  intros H. destruct (Z.lt_ge_cases m1 m2) as [Hlt|Hge]; [exact Hlt|].
  pose proof (F2R_le m2 m1 e Hge). lra.
Qed.

Lemma inbetween_bounds (x : R) (m e : Z) (l : location) :
  inbetween x m e l -> F2R m e <= x < F2R (m + 1) e.
Proof.
  rewrite F2R_succ. pose proof (bpow_gt_0 e).
  destruct l as [|[| |]]; cbn [inbetween]; lra.
Qed.

(** One step of the right shift keeps the position. *)
Lemma shr_1_inbetween (x : R) (mrs : shr_record) (e : Z) :
  (0 <= shr_m mrs)%Z ->
  inbetween x (shr_m mrs) e (loc_of_shr_record mrs) ->
  (0 <= shr_m (shr_1 mrs))%Z
  /\ inbetween x (shr_m (shr_1 mrs)) (e + 1) (loc_of_shr_record (shr_1 mrs)).
Proof.
  destruct mrs as [m r s]. cbn [shr_m]. intros Hm Hx.
  pose proof (bpow_gt_0 e) as Hb.
  assert (Hs := bpow_succ e).
  destruct m as [|p|p]; [| |lia].
  - (* m = 0 *)
    cbn [shr_1 shr_m]. split; [lia|].
    destruct r, s; cbn [loc_of_shr_record orb inbetween] in *;
      unfold F2R in *; rewrite ?Hs; lra.
  - destruct p as [p|p|].
    + (* m = 2p + 1 *)
      cbn [shr_1 shr_m]. split; [lia|].
      assert (HF : F2R (Z.pos p~1) e = F2R (Z.pos p) (e + 1) + bpow e).
      { change (Z.pos p~1) with (2 * Z.pos p + 1)%Z.
        rewrite F2R_succ, F2R_shift. reflexivity. }
      destruct r, s; cbn [loc_of_shr_record orb inbetween] in *; rewrite ?Hs, ?HF in *; lra.
    + (* m = 2p *)
      cbn [shr_1 shr_m]. split; [lia|].
      assert (HF : F2R (Z.pos p~0) e = F2R (Z.pos p) (e + 1)).
      { change (Z.pos p~0) with (2 * Z.pos p)%Z. apply F2R_shift. }
      destruct r, s; cbn [loc_of_shr_record orb inbetween] in *; rewrite ?Hs, ?HF in *; lra.
    + (* m = 1 *)
      cbn [shr_1 shr_m]. split; [lia|].
      assert (HF : F2R 1 e = bpow e) by (unfold F2R; lra).
      assert (HF0 : F2R 0 (e + 1) = 0) by (unfold F2R; lra).
      destruct r, s; cbn [loc_of_shr_record orb inbetween] in *; rewrite ?Hs, ?HF, ?HF0 in *; lra.
Qed.

End Rounding.

Section Shifting.

Local Open Scope Z_scope.

Lemma loc_of_shr_record_of_loc (m : Z) (l : location) :
  loc_of_shr_record (shr_record_of_loc m l) = l.
Proof. now destruct l as [|[| |]]. Qed.

Lemma shr_m_shr_record_of_loc (m : Z) (l : location) :
  shr_m (shr_record_of_loc m l) = m.
Proof. now destruct l as [|[| |]]. Qed.

Lemma iter_shr_1_located (x : R) (n : positive) :
  forall mrs e, located x mrs e -> located x (SpecFloat.iter_pos shr_1 n mrs) (e + Z.pos n).
Proof.
  induction n as [n IH|n IH|]; intros mrs e H; cbn [SpecFloat.iter_pos].
  - replace (e + Z.pos n~1) with (e + 1 + Z.pos n + Z.pos n) by lia.
    apply IH, IH. destruct H. now apply shr_1_inbetween.
  - replace (e + Z.pos n~0) with (e + Z.pos n + Z.pos n) by lia.
    now apply IH, IH.
  - destruct H. now apply shr_1_inbetween.
Qed.

Lemma shr_located (x : R) (mrs : shr_record) (e n : Z) :
  located x mrs e ->
  located x (fst (shr mrs e n)) (snd (shr mrs e n))
  /\ snd (shr mrs e n) = e + Z.max n 0.
Proof.
  intros H. unfold shr. destruct n as [|p|p]; cbn [fst snd].
  - split; [exact H|lia].
  - split; [now apply iter_shr_1_located|lia].
  - split; [exact H|lia].
Qed.

Lemma digits2_pos_bounds (p : positive) :
  2 ^ (Z.pos (digits2_pos p) - 1) <= Z.pos p < 2 ^ Z.pos (digits2_pos p).
Proof.
  induction p as [p IH|p IH|]; cbn [digits2_pos].
  - change (PosDef.Pos.succ (digits2_pos p)) with (Pos.succ (digits2_pos p)).
    rewrite Pos2Z.inj_succ.
    replace (Z.succ (Z.pos (digits2_pos p)) - 1) with (Z.succ (Z.pos (digits2_pos p) - 1)) by lia.
    rewrite !Z.pow_succ_r by lia. lia.
  - change (PosDef.Pos.succ (digits2_pos p)) with (Pos.succ (digits2_pos p)).
    rewrite Pos2Z.inj_succ.
    replace (Z.succ (Z.pos (digits2_pos p)) - 1) with (Z.succ (Z.pos (digits2_pos p) - 1)) by lia.
    rewrite !Z.pow_succ_r by lia. lia.
  - cbn. lia.
Qed.

Lemma Zdigits2_bounds (m : Z) :
  0 < m -> 2 ^ (Zdigits2 m - 1) <= m < 2 ^ Zdigits2 m.
Proof.
  destruct m as [|p|p]; try lia. intros _. apply digits2_pos_bounds.
Qed.

Lemma Zdigits2_pos (m : Z) : 0 < m -> 0 < Zdigits2 m.
Proof. destruct m; cbn; lia. Qed.

(** The number of digits is fixed by the power-of-two bracket. *)
Lemma Zdigits2_unique (m d : Z) :
  2 ^ (d - 1) <= m < 2 ^ d -> 0 < m -> Zdigits2 m = d.
Proof.
  intros [H1 H2] Hm. pose proof (Zdigits2_bounds m Hm) as [H3 H4].
  pose proof (Zdigits2_pos m Hm) as Hd.
  assert (0 < d).
  { destruct (Z.lt_ge_cases 0 d); [assumption|].
    assert (2 ^ d <= 1).
    { destruct (Z.eq_dec d 0) as [->|]; [cbn; lia|].
      rewrite Z.pow_neg_r by lia. lia. }
    lia. }
  destruct (Z.lt_trichotomy (Zdigits2 m) d) as [Hlt|[Heq|Hgt]]; [|exact Heq|].
  - assert (2 ^ Zdigits2 m <= 2 ^ (d - 1)) by (apply Z.pow_le_mono_r; lia). lia.
  - assert (2 ^ d <= 2 ^ (Zdigits2 m - 1)) by (apply Z.pow_le_mono_r; lia). lia.
Qed.

(** The exponent function of binary64. *)
Lemma fexp_eq (k : Z) : fexp prec emax k = Z.max (k - 53) (-1074).
Proof. reflexivity. Qed.

Lemma shr_fexp_located (x : R) (m e : Z) (l : location) :
  0 <= m -> inbetween x m e l ->
  located x (fst (shr_fexp prec emax m e l)) (snd (shr_fexp prec emax m e l))
  /\ snd (shr_fexp prec emax m e l) = Z.max e (fexp prec emax (Zdigits2 m + e)).
Proof.
  intros Hm Hx. unfold shr_fexp.
  destruct (shr_located x (shr_record_of_loc m l) e
              (fexp prec emax (Zdigits2 m + e) - e)) as [H1 H2].
  { split; [now rewrite shr_m_shr_record_of_loc|].
    now rewrite shr_m_shr_record_of_loc, loc_of_shr_record_of_loc. }
  split; [exact H1|]. rewrite H2. lia.
Qed.

End Shifting.

Section Canonical.

Local Open Scope Z_scope.

Lemma F2R_ge_bpow (m e k : Z) : 0 <= k -> 2 ^ k <= m -> (bpow (k + e) <= F2R m e)%R.
Proof.
  intros Hk Hm. unfold F2R. rewrite bpow_plus, <- (bpow_IZR k) by assumption.
  apply IZR_le in Hm. pose proof (bpow_gt_0 e). nra.
Qed.

Lemma F2R_lt_bpow (m e k : Z) : 0 <= k -> m < 2 ^ k -> (F2R m e < bpow (k + e))%R.
Proof.
  intros Hk Hm. unfold F2R. rewrite bpow_plus, <- (bpow_IZR k) by assumption.
  apply IZR_lt in Hm. pose proof (bpow_gt_0 e). nra.
Qed.

Lemma F2R_le_bpow (m e k : Z) : 0 <= k -> m <= 2 ^ k -> (F2R m e <= bpow (k + e))%R.
Proof.
  intros Hk Hm. unfold F2R. rewrite bpow_plus, <- (bpow_IZR k) by assumption.
  apply IZR_le in Hm. pose proof (bpow_gt_0 e). nra.
Qed.

Lemma F2R_lt_bpow_inv (m e k : Z) : 0 <= k -> (F2R m e < bpow (k + e))%R -> m < 2 ^ k.
Proof.
  intros Hk H. unfold F2R in H. rewrite bpow_plus, <- (bpow_IZR k) in H by assumption.
  apply lt_IZR. pose proof (bpow_gt_0 e). nra.
Qed.

Lemma bpow_lt_F2R_inv (m e k : Z) : 0 <= k -> (bpow (k + e) < F2R m e)%R -> 2 ^ k < m.
Proof.
  intros Hk H. unfold F2R in H. rewrite bpow_plus, <- (bpow_IZR k) in H by assumption.
  apply lt_IZR. pose proof (bpow_gt_0 e). nra.
Qed.

(** The first shift of the rounding brings a position with enough digits
    to the canonical one. *)
Lemma first_shift_canon (x : R) (m e : Z) (l : location) :
  0 <= m -> inbetween x m e l -> e <= fexp prec emax (Zdigits2 m + e) ->
  canon x (shr_m (fst (shr_fexp prec emax m e l)))
        (snd (shr_fexp prec emax m e l))
        (loc_of_shr_record (fst (shr_fexp prec emax m e l))).
Proof.
  intros Hm Hx He.
  destruct (shr_fexp_located x m e l Hm Hx) as [[HM Hin] HE].
  set (M := shr_m (fst (shr_fexp prec emax m e l))) in *.
  set (E := snd (shr_fexp prec emax m e l)) in *.
  set (l' := loc_of_shr_record (fst (shr_fexp prec emax m e l))) in *.
  rewrite Z.max_r in HE by exact He. rewrite fexp_eq in HE, He.
  pose proof (inbetween_bounds x m e l Hx) as [Hx1 Hx2].
  pose proof (inbetween_bounds x M E l' Hin) as [HX1 HX2].
  destruct (Z.eq_dec m 0) as [->|Hm0].
  - (* nothing but the location: the exponent is the smallest one *)
    cbn [Zdigits2 Z.add] in HE, He.
    assert (HEm : E = -1074) by lia.
    assert (HM0 : M < 1).
    { apply (F2R_lt_bpow_inv M E 0); [lia|].
      assert (F2R (0 + 1) e <= bpow (0 + E))%R.
      { apply (F2R_le_bpow 1 e 0) in Hm; [|cbn; lia].
        cbn [Z.add] in *. pose proof (bpow_le e E ltac:(lia)). lra. }
      cbn [Z.add] in *. lra. }
    repeat split; try lia; assumption.
  - assert (Hmp : 0 < m) by lia.
    pose proof (Zdigits2_bounds m Hmp) as [Hd1 Hd2].
    pose proof (Zdigits2_pos m Hmp) as Hd.
    set (d := Zdigits2 m) in *.
    assert (Hup : (x < bpow (d + e))%R).
    { pose proof (F2R_le_bpow (m + 1) e d ltac:(lia) ltac:(lia)). lra. }
    assert (Hlo : (bpow (d - 1 + e) <= x)%R).
    { pose proof (F2R_ge_bpow m e (d - 1) ltac:(lia) Hd1). lra. }
    split; [exact Hin|]. split; [split; [exact HM|]|split; [lia|]].
    + apply (F2R_lt_bpow_inv M E 53); [lia|].
      pose proof (bpow_le (d + e) (53 + E) ltac:(lia)). lra.
    + destruct (Z.eq_dec E (-1074)) as [HEm|HEm]; [now left|right].
      assert (HEd : E = d + e - 53) by lia.
      assert (2 ^ 52 < M + 1); [|lia].
      apply (bpow_lt_F2R_inv (M + 1) E 52); [lia|].
      replace (52 + E) with (d - 1 + e) by lia. lra.
Qed.

End Canonical.

Section RoundingResult.

Local Open Scope Z_scope.

Lemma round_nearest_even_bounds (M : Z) (l : location) :
  M <= round_nearest_even M l <= M + 1.
Proof.
  unfold round_nearest_even. destruct l as [|[| |]]; try lia.
  destruct (IntDef.Z.even M); lia.
Qed.

Lemma second_shift (N E : Z) :
  0 <= N <= 2 ^ 53 -> -1074 <= E ->
  shr_fexp prec emax N E loc_Exact
  = if N <? 2 ^ 53 then (Build_shr_record N false false, E)
    else (Build_shr_record (2 ^ 52) false false, E + 1).
Proof.
  intros HN HE. unfold shr_fexp. cbn [shr_record_of_loc].
  destruct (Z.ltb_spec N (2 ^ 53)) as [Hlt|Hge].
  - assert (Hn : fexp prec emax (Zdigits2 N + E) - E <= 0).
    { rewrite fexp_eq. destruct (Z.eq_dec N 0) as [->|Hn0]; [cbn [Zdigits2]; lia|].
      pose proof (Zdigits2_bounds N ltac:(lia)) as [Hd1 Hd2].
      assert (Zdigits2 N - 1 < 53); [|lia].
      apply (Z.pow_lt_mono_r_iff 2); lia. }
    unfold shr. destruct (fexp prec emax (Zdigits2 N + E) - E); try reflexivity. lia.
  - assert (HN53 : N = 2 ^ 53) by lia. subst N.
    change (Zdigits2 (2 ^ 53)) with 54. rewrite fexp_eq.
    replace (Z.max (54 + E - 53) (-1074) - E) with 1 by lia.
    reflexivity.
Qed.

(** The rounding of a position with enough digits, in terms of its
    canonical position. *)
Lemma binary_round_aux_canon (s : bool) (x : R) (m e : Z) (l : location) :
  0 <= m -> inbetween x m e l -> e <= fexp prec emax (Zdigits2 m + e) ->
  exists M E l',
    canon x M E l'
    /\ binary_round_aux prec emax s m e l = rounded s (round_nearest_even M l') E.
Proof.
  intros Hm Hx He.
  pose proof (first_shift_canon x m e l Hm Hx He) as Hc.
  unfold binary_round_aux.
  destruct (shr_fexp prec emax m e l) as [mrs1 E] eqn:H1. cbn [fst snd] in Hc.
  exists (shr_m mrs1), E, (loc_of_shr_record mrs1). split; [exact Hc|].
  destruct Hc as (_ & HM & HE & _).
  pose proof (round_nearest_even_bounds (shr_m mrs1) (loc_of_shr_record mrs1)) as HN.
  set (N := round_nearest_even (shr_m mrs1) (loc_of_shr_record mrs1)) in *.
  rewrite (second_shift N E) by lia.
  unfold rounded. change (emax - prec) with 971.
  destruct (Z.ltb_spec N (2 ^ 53)) as [Hlt|Hge]; cbn [shr_m].
  - destruct N as [|p|p]; [reflexivity| |lia]. reflexivity.
  - assert (HN0 : (N =? 0) = false) by (apply Z.eqb_neq; lia). rewrite HN0. reflexivity.
Qed.

End RoundingResult.

Section Monotone.

Local Open Scope Z_scope.

(** Canonical positions are ordered like the numbers they describe:
    by exponent, then mantissa, then location. *)
Lemma canon_order (x1 x2 : R) (M1 E1 M2 E2 : Z) (l1 l2 : location) :
  canon x1 M1 E1 l1 -> canon x2 M2 E2 l2 -> (x1 <= x2)%R ->
  E1 < E2
  \/ (E1 = E2 /\ (M1 < M2 \/ (M1 = M2 /\ loc_rank l1 <= loc_rank l2))).
Proof.
  intros (Hin1 & HM1 & HE1 & Hn1) (Hin2 & HM2 & HE2 & Hn2) Hle.
  pose proof (inbetween_bounds x1 M1 E1 l1 Hin1) as [Hlo1 Hup1].
  pose proof (inbetween_bounds x2 M2 E2 l2 Hin2) as [Hlo2 Hup2].
  destruct (Z.lt_trichotomy E1 E2) as [Hlt|[Heq|Hgt]]; [now left| |exfalso].
  - right. split; [exact Heq|]. subst E2.
    assert (HM : M1 < M2 + 1) by (apply (F2R_lt_inv M1 (M2 + 1) E1); lra).
    destruct (Z.eq_dec M1 M2) as [HMeq|HMne]; [right|left; lia].
    split; [exact HMeq|]. subst M2.
    pose proof (bpow_gt_0 E1).
    destruct l1 as [|[| |]], l2 as [|[| |]]; cbn [loc_rank inbetween] in *; try lia; lra.
  - assert (H52 : 2 ^ 52 <= M1) by lia.
    pose proof (F2R_ge_bpow M1 E1 52 ltac:(lia) H52).
    pose proof (F2R_le_bpow (M2 + 1) E2 53 ltac:(lia) ltac:(lia)).
    pose proof (bpow_le (53 + E2) (52 + E1) ltac:(lia)). lra.
Qed.

Lemma round_nearest_even_mono (M1 M2 : Z) (l1 l2 : location) :
  M1 < M2 \/ (M1 = M2 /\ loc_rank l1 <= loc_rank l2) ->
  round_nearest_even M1 l1 <= round_nearest_even M2 l2.
Proof.
  intros [Hlt|[Heq Hl]].
  - pose proof (round_nearest_even_bounds M1 l1).
    pose proof (round_nearest_even_bounds M2 l2). lia.
  - subst M2. unfold round_nearest_even.
    destruct l1 as [|[| |]], l2 as [|[| |]]; cbn [loc_rank] in Hl; try lia;
      destruct (IntDef.Z.even M1); lia.
Qed.

Lemma SFleb_finite (m1 m2 : positive) (e1 e2 : Z) :
  SFleb (S754_finite false m1 e1) (S754_finite false m2 e2)
  = (e1 <? e2) || ((e1 =? e2) && (Z.pos m1 <=? Z.pos m2)).
Proof.
  unfold SFleb. cbn [SFcompare].
  change (PosDef.Pos.compare_cont Eq m1 m2) with (Pos.compare m1 m2).
  destruct (Z.compare_spec e1 e2) as [Heq|Hlt|Hgt].
  - subst e2. rewrite Z.ltb_irrefl, Z.eqb_refl. cbn [orb andb].
    unfold Z.leb. cbn [Z.compare]. now destruct (Pos.compare m1 m2).
  - apply Z.ltb_lt in Hlt. now rewrite Hlt.
  - destruct (Z.ltb_spec e1 e2); [lia|]. destruct (Z.eqb_spec e1 e2); [lia|]. reflexivity.
Qed.

(** Rounded mantissas in the order of their exponents and sizes give
    floats in the same order. *)
Lemma rounded_le (N1 E1 N2 E2 : Z) :
  0 <= N1 <= 2 ^ 53 -> 0 <= N2 <= 2 ^ 53 ->
  (E1 < E2 /\ 2 ^ 52 <= N2) \/ (E1 = E2 /\ N1 <= N2) ->
  SFleb (rounded false N1 E1) (rounded false N2 E2) = true.
Proof.
  intros HN1 HN2 Hord. unfold rounded.
  assert (H52 : Z.pos (Z.to_pos (2 ^ 52)) = 2 ^ 52) by reflexivity.
  destruct (Z.eqb_spec N1 0) as [HZ1|HZ1]; destruct (Z.eqb_spec N2 0) as [HZ2|HZ2];
    destruct (Z.ltb_spec N1 (2 ^ 53)) as [HL1|HL1];
    destruct (Z.ltb_spec N2 (2 ^ 53)) as [HL2|HL2];
    destruct (Z.leb_spec E1 971) as [HB1|HB1];
    destruct (Z.leb_spec E2 971) as [HB2|HB2];
    destruct (Z.leb_spec (E1 + 1) 971) as [HC1|HC1];
    destruct (Z.leb_spec (E2 + 1) 971) as [HC2|HC2];
    try lia; try reflexivity;
    rewrite SFleb_finite, ?H52, ?Z2Pos.id by lia;
    rewrite orb_true_iff, andb_true_iff, Z.ltb_lt, Z.eqb_eq, Z.leb_le; lia.
Qed.

(** Rounding to nearest is monotone. *)
Theorem rounds_to_mono (x1 x2 : R) (f1 f2 : spec_float) :
  rounds_to x1 f1 -> rounds_to x2 f2 -> (x1 <= x2)%R -> SFleb f1 f2 = true.
Proof.
  intros (M1 & E1 & l1 & Hc1 & ->) (M2 & E2 & l2 & Hc2 & ->) Hle.
  pose proof (canon_order x1 x2 M1 E1 M2 E2 l1 l2 Hc1 Hc2 Hle) as Hord.
  destruct Hc1 as (_ & HM1 & HE1 & _), Hc2 as (_ & HM2 & HE2 & Hn2).
  pose proof (round_nearest_even_bounds M1 l1).
  pose proof (round_nearest_even_bounds M2 l2).
  apply rounded_le; try lia.
  destruct Hord as [Hlt|[Heq Hm]].
  - left. split; [exact Hlt|]. lia.
  - right. split; [exact Heq|]. now apply round_nearest_even_mono.
Qed.

End Monotone.

Section ValidFloats.

Local Open Scope Z_scope.

Lemma Zdigits2_to_pos (N : Z) : 0 < N -> Z.pos (digits2_pos (Z.to_pos N)) = Zdigits2 N.
Proof. destruct N; try lia. reflexivity. Qed.

Lemma valid_finite_canon (s : bool) (m : positive) (e : Z) :
  valid_binary (S754_finite s m e) = true ->
  canon (F2R (Z.pos m) e) (Z.pos m) e loc_Exact /\ e <= 971.
Proof.
  cbn [SpecFloat.valid_binary]. unfold bounded, canonical_mantissa.
  intros H. apply andb_true_iff in H. destruct H as [Hc Hb].
  apply Z.eqb_eq in Hc. apply Z.leb_le in Hb. change (emax - prec) with 971 in Hb.
  rewrite fexp_eq in Hc.
  pose proof (digits2_pos_bounds m) as [Hd1 Hd2].
  set (d := Z.pos (digits2_pos m)) in *.
  assert (Hd : 0 < d) by (unfold d; lia).
  split; [|exact Hb].
  split; [reflexivity|].
  assert (Hd53 : d <= 53) by lia.
  split.
  { split; [lia|]. assert (2 ^ d <= 2 ^ 53) by (apply Z.pow_le_mono_r; lia). lia. }
  split; [lia|].
  destruct (Z.eq_dec e (-1074)) as [He|He]; [now left|right].
  assert (d = 53) by lia. replace 52 with (d - 1) by lia. exact Hd1.
Qed.

(** A valid finite non-negative float is what its own value rounds to. *)
Lemma rounds_to_valid (m : positive) (e : Z) :
  valid_binary (S754_finite false m e) = true ->
  rounds_to (F2R (Z.pos m) e) (S754_finite false m e).
Proof.
  intros Hv. destruct (valid_finite_canon false m e Hv) as [Hc He].
  exists (Z.pos m), e, loc_Exact. split; [exact Hc|].
  destruct Hc as (_ & HM & _ & _).
  cbn [round_nearest_even]. unfold rounded.
  destruct (Z.eqb_spec (Z.pos m) 0) as [H0|_]; [lia|].
  destruct (Z.ltb_spec (Z.pos m) (2 ^ 53)) as [_|H53]; [|lia].
  destruct (Z.leb_spec e 971) as [_|H971]; [|lia]. reflexivity.
Qed.

Lemma rounds_to_zero : rounds_to 0 (S754_zero false).
Proof.
  exists 0, (-1074), loc_Exact. split; [|reflexivity].
  split; [cbn; unfold F2R; lra|]. split; [lia|]. split; [lia|now left].
Qed.

(** What [rounded] returns is a valid float with the sign it was given,
    never a NaN. *)
Lemma rounded_valid (s : bool) (N E : Z) :
  0 <= N <= 2 ^ 53 -> -1074 <= E -> E = -1074 \/ 2 ^ 52 <= N ->
  valid_binary (rounded s N E) = true
  /\ (rounded s N E = S754_zero s
      \/ (exists m e, rounded s N E = S754_finite s m e)
      \/ rounded s N E = S754_infinity s).
Proof.
  intros HN HE Hn. unfold rounded.
  destruct (Z.eqb_spec N 0) as [H0|H0]; [split; [reflexivity|now left]|].
  destruct (Z.ltb_spec N (2 ^ 53)) as [H53|H53].
  - destruct (Z.leb_spec E 971) as [H971|H971];
      [|split; [reflexivity|now right; right]].
    split; [|right; left; eauto].
    cbn [SpecFloat.valid_binary]. unfold bounded, canonical_mantissa.
    apply andb_true_iff. split; [|apply Z.leb_le; exact H971].
    apply Z.eqb_eq. rewrite Zdigits2_to_pos by lia. rewrite fexp_eq.
    pose proof (Zdigits2_bounds N ltac:(lia)) as [Hd1 Hd2].
    pose proof (Zdigits2_pos N ltac:(lia)) as Hd.
    assert (Hd53 : Zdigits2 N <= 53).
    { assert (Zdigits2 N - 1 < 53); [|lia]. apply (Z.pow_lt_mono_r_iff 2); lia. }
    destruct Hn as [HEm|H52]; [lia|].
    assert (53 <= Zdigits2 N); [|lia].
    assert (52 < Zdigits2 N); [|lia]. apply (Z.pow_lt_mono_r_iff 2); lia.
  - destruct (Z.leb_spec (E + 1) 971) as [H971|H971];
      [|split; [reflexivity|now right; right]].
    split; [|right; left; eauto].
    cbn [SpecFloat.valid_binary]. unfold bounded, canonical_mantissa.
    apply andb_true_iff. split; [|apply Z.leb_le; exact H971].
    apply Z.eqb_eq. change (Z.pos (digits2_pos (Z.to_pos (2 ^ 52)))) with 53.
    rewrite fexp_eq. lia.
Qed.

Lemma rounded_of_canon (s : bool) (x : R) (M E : Z) (l : location) :
  canon x M E l ->
  valid_binary (rounded s (round_nearest_even M l) E) = true
  /\ (rounded s (round_nearest_even M l) E = S754_zero s
      \/ (exists m e, rounded s (round_nearest_even M l) E = S754_finite s m e)
      \/ rounded s (round_nearest_even M l) E = S754_infinity s).
Proof.
  intros (_ & HM & HE & Hn).
  pose proof (round_nearest_even_bounds M l).
  apply rounded_valid; lia.
Qed.

(** The comparison of valid finite non-negative floats is the comparison
    of their values. *)
Lemma SFleb_valid (m1 m2 : positive) (e1 e2 : Z) :
  valid_binary (S754_finite false m1 e1) = true ->
  valid_binary (S754_finite false m2 e2) = true ->
  SFleb (S754_finite false m1 e1) (S754_finite false m2 e2) = true
  <-> (F2R (Z.pos m1) e1 <= F2R (Z.pos m2) e2)%R.
Proof.
  intros Hv1 Hv2. split.
  - intros Hle.
    destruct (Rle_or_lt (F2R (Z.pos m1) e1) (F2R (Z.pos m2) e2)) as [H|H]; [exact H|exfalso].
    pose proof (rounds_to_mono _ _ _ _ (rounds_to_valid m2 e2 Hv2)
                  (rounds_to_valid m1 e1 Hv1) (Rlt_le _ _ H)) as Hge.
    rewrite SFleb_finite in Hle, Hge.
    rewrite orb_true_iff, andb_true_iff, Z.ltb_lt, Z.eqb_eq, Z.leb_le in Hle, Hge.
    assert (e1 = e2 /\ Z.pos m1 = Z.pos m2) as [-> Hm] by lia.
    rewrite Hm in H. lra.
  - intros H. exact (rounds_to_mono _ _ _ _ (rounds_to_valid m1 e1 Hv1)
                       (rounds_to_valid m2 e2 Hv2) H).
Qed.

End ValidFloats.

Section Operations.

Local Open Scope Z_scope.

(** What validity says about the digits of a mantissa. *)
Lemma valid_digits (s : bool) (m : positive) (e : Z) :
  valid_binary (S754_finite s m e) = true ->
  -1074 <= e <= 971
  /\ Zdigits2 (Z.pos m) <= 53
  /\ (e = -1074 \/ Zdigits2 (Z.pos m) = 53).
Proof.
  cbn [SpecFloat.valid_binary Zdigits2]. unfold bounded, canonical_mantissa.
  intros H. apply andb_true_iff in H. destruct H as [Hc Hb].
  apply Z.eqb_eq in Hc. apply Z.leb_le in Hb. change (emax - prec) with 971 in Hb.
  rewrite fexp_eq in Hc. lia.
Qed.

Lemma F2R_mult (m1 e1 m2 e2 : Z) :
  (F2R m1 e1 * F2R m2 e2)%R = F2R (m1 * m2) (e1 + e2).
Proof. unfold F2R. rewrite mult_IZR, bpow_plus. lra. Qed.

Lemma Zdigits2_mult (m1 m2 : Z) :
  0 < m1 -> 0 < m2 -> Zdigits2 m1 + Zdigits2 m2 - 1 <= Zdigits2 (m1 * m2).
Proof.
  intros H1 H2.
  pose proof (Zdigits2_bounds m1 H1) as [Ha _].
  pose proof (Zdigits2_bounds m2 H2) as [Hb _].
  pose proof (Zdigits2_bounds (m1 * m2) ltac:(lia)) as [_ Hc].
  pose proof (Zdigits2_pos m1 H1). pose proof (Zdigits2_pos m2 H2).
  assert (Hp : 2 ^ (Zdigits2 m1 - 1 + (Zdigits2 m2 - 1)) <= m1 * m2).
  { rewrite Z.pow_add_r by lia. apply Z.mul_le_mono_nonneg; lia. }
  assert (Zdigits2 m1 - 1 + (Zdigits2 m2 - 1) < Zdigits2 (m1 * m2)); [|lia].
  apply (Z.pow_lt_mono_r_iff 2); try lia.
  pose proof (Zdigits2_pos (m1 * m2) ltac:(lia)). lia.
Qed.

(** The product of two valid finite floats, before rounding, has enough
    digits for its exponent. *)
Lemma mult_enough_digits (s1 s2 : bool) (m1 m2 : positive) (e1 e2 : Z) :
  valid_binary (S754_finite s1 m1 e1) = true ->
  valid_binary (S754_finite s2 m2 e2) = true ->
  e1 + e2 <= fexp prec emax (Zdigits2 (Z.pos (m1 * m2)) + (e1 + e2)).
Proof.
  intros H1 H2.
  destruct (valid_digits _ _ _ H1) as (He1 & Hd1 & Hn1).
  destruct (valid_digits _ _ _ H2) as (He2 & Hd2 & Hn2).
  pose proof (Zdigits2_mult (Z.pos m1) (Z.pos m2) ltac:(lia) ltac:(lia)) as HD.
  pose proof (Zdigits2_pos (Z.pos m1) ltac:(lia)).
  pose proof (Zdigits2_pos (Z.pos m2) ltac:(lia)).
  rewrite Pos2Z.inj_mul, fexp_eq. lia.
Qed.

(** The product of two valid finite floats is the rounding of the product
    of their values, with the sign of the product. *)
Lemma SFmul_finite (s1 s2 : bool) (m1 m2 : positive) (e1 e2 : Z) :
  valid_binary (S754_finite s1 m1 e1) = true ->
  valid_binary (S754_finite s2 m2 e2) = true ->
  exists M E l,
    canon (F2R (Z.pos m1) e1 * F2R (Z.pos m2) e2) M E l
    /\ SFmul prec emax (S754_finite s1 m1 e1) (S754_finite s2 m2 e2)
       = rounded (xorb s1 s2) (round_nearest_even M l) E.
Proof.
  intros H1 H2. cbn [SFmul].
  apply binary_round_aux_canon.
  - lia.
  - cbn [inbetween]. rewrite Pos2Z.inj_mul. apply F2R_mult.
  - now apply (mult_enough_digits s1 s2).
Qed.

Lemma SFmul_rounds (m1 m2 : positive) (e1 e2 : Z) :
  valid_binary (S754_finite false m1 e1) = true ->
  valid_binary (S754_finite false m2 e2) = true ->
  rounds_to (F2R (Z.pos m1) e1 * F2R (Z.pos m2) e2)
            (SFmul prec emax (S754_finite false m1 e1) (S754_finite false m2 e2)).
Proof.
  intros H1 H2. destruct (SFmul_finite false false m1 m2 e1 e2 H1 H2) as (M & E & l & Hc & Heq).
  exists M, E, l. split; [exact Hc|exact Heq].
Qed.

Lemma pos_iter_xO (m d : positive) :
  Z.pos (PosDef.Pos.iter xO m d) = Z.pos m * 2 ^ Z.pos d.
Proof.
  change (PosDef.Pos.iter xO m d) with (Pos.iter xO m d).
  induction d as [|d IH] using Pos.peano_ind.
  - cbn. lia.
  - rewrite Pos.iter_succ, Pos2Z.inj_succ, Z.pow_succ_r by lia.
    rewrite Pos2Z.inj_xO, IH. lia.
Qed.

Lemma shl_align_spec (m : positive) (e e' : Z) :
  Z.pos (fst (shl_align m e e')) = Z.pos m * 2 ^ (e - Z.min e e')
  /\ snd (shl_align m e e') = Z.min e e'.
Proof.
  unfold shl_align. destruct (e' - e) as [|d|d] eqn:Hd; cbn [fst snd].
  - replace (e - Z.min e e') with 0 by lia. cbn. lia.
  - replace (e - Z.min e e') with 0 by lia. cbn. lia.
  - rewrite pos_iter_xO. replace (e - Z.min e e') with (Z.pos d) by lia. lia.
Qed.

Lemma F2R_shl (m e k : Z) : 0 <= k -> F2R (m * 2 ^ k) (e - k) = F2R m e.
Proof.
  intros Hk. unfold F2R. rewrite mult_IZR, bpow_IZR by exact Hk.
  replace (bpow e) with (bpow (k + (e - k))) by (f_equal; lia).
  rewrite bpow_plus. lra.
Qed.

Lemma Zdigits2_shl (m k : Z) : 0 < m -> 0 <= k -> Zdigits2 (m * 2 ^ k) = Zdigits2 m + k.
Proof.
  intros Hm Hk. pose proof (Zdigits2_bounds m Hm) as [H1 H2].
  pose proof (Zdigits2_pos m Hm).
  assert (0 < 2 ^ k) by (apply Z.pow_pos_nonneg; lia).
  apply Zdigits2_unique; [|nia].
  replace (Zdigits2 m + k - 1) with (Zdigits2 m - 1 + k) by lia.
  rewrite !Z.pow_add_r by lia. split; nia.
Qed.

(** [binary_round] rounds the value of its mantissa and exponent. *)
Lemma binary_round_canon (s : bool) (m : positive) (e : Z) :
  exists M E l,
    canon (F2R (Z.pos m) e) M E l
    /\ binary_round prec emax s m e = rounded s (round_nearest_even M l) E.
Proof.
  unfold binary_round.
  pose proof (shl_align_spec m e (fexp prec emax (Z.pos (digits2_pos m) + e))) as [Hm He].
  destruct (shl_align m e (fexp prec emax (Z.pos (digits2_pos m) + e))) as [mz ez].
  cbn [fst snd] in Hm, He.
  set (e' := fexp prec emax (Z.pos (digits2_pos m) + e)) in *.
  assert (Hk : 0 <= e - Z.min e e') by lia.
  apply binary_round_aux_canon.
  - lia.
  - cbn [inbetween]. rewrite Hm, He.
    replace (Z.min e e') with (e - (e - Z.min e e')) at 2 by lia.
    now rewrite F2R_shl.
  - rewrite Hm, He, Zdigits2_shl by lia.
    replace (Zdigits2 (Z.pos m) + (e - Z.min e e') + Z.min e e')
      with (Z.pos (digits2_pos m) + e) by (cbn [Zdigits2]; lia).
    fold e'. lia.
Qed.

(** [binary_normalize] of a non-negative integer mantissa. *)
Lemma binary_normalize_rounds (z e : Z) :
  0 <= z -> rounds_to (F2R z e) (binary_normalize prec emax z e false).
Proof.
  intros Hz. destruct z as [|p|p]; [| |lia].
  - replace (F2R 0 e) with 0%R by (unfold F2R; lra). apply rounds_to_zero.
  - cbn [binary_normalize].
    destruct (binary_round_canon false p e) as (M & E & l & Hc & Heq).
    exists M, E, l. split; [exact Hc|exact Heq].
Qed.

(** Whatever the sign of the mantissa, [binary_normalize] returns a valid
    float that is not a NaN. *)
Lemma binary_normalize_valid (z e : Z) (s0 : bool) :
  valid_binary (binary_normalize prec emax z e s0) = true
  /\ binary_normalize prec emax z e s0 <> S754_nan.
Proof.
  destruct z as [|p|p]; cbn [binary_normalize].
  - split; [reflexivity|discriminate].
  - destruct (binary_round_canon false p e) as (M & E & l & Hc & ->).
    destruct (rounded_of_canon false _ M E l Hc) as [Hv [H|[(m' & e' & H)|H]]];
      rewrite H in *; split; try exact Hv; discriminate.
  - destruct (binary_round_canon true p e) as (M & E & l & Hc & ->).
    destruct (rounded_of_canon true _ M E l Hc) as [Hv [H|[(m' & e' & H)|H]]];
      rewrite H in *; split; try exact Hv; discriminate.
Qed.

End Operations.

Section Division.

Local Open Scope Z_scope.

(** The location of [r / d] in the unit interval, for a remainder [r]. *)
Lemma new_location_spec (d r : Z) :
  0 < d -> 0 <= r < d ->
  new_location d r
  = if r =? 0 then loc_Exact else loc_Inexact (2 * r ?= d).
Proof.
  intros Hd Hr. unfold new_location, new_location_even, new_location_odd.
  change IntDef.Z.even with Z.even.
  destruct (Z.even d) eqn:Hev; [reflexivity|].
  destruct (Z.eqb_spec r 0); [reflexivity|]. f_equal.
  assert (Hodd : Z.odd d = true) by (rewrite <- Z.negb_even, Hev; reflexivity).
  apply Z.odd_spec in Hodd. destruct Hodd as [k Hk].
  destruct (Z.compare_spec (2 * r + 1) d); destruct (Z.compare_spec (2 * r) d);
    try reflexivity; lia.
Qed.

Lemma new_location_inbetween (x : R) (q d r e : Z) :
  0 < d -> 0 <= r < d ->
  x = ((IZR q + IZR r / IZR d) * bpow e)%R ->
  inbetween x q e (new_location d r).
Proof.
  intros Hd Hr Hx. rewrite new_location_spec by assumption.
  pose proof (bpow_gt_0 e) as Hb.
  assert (Hd' : (0 < IZR d)%R) by (apply IZR_lt; lia).
  set (t := (IZR r / IZR d)%R) in *.
  assert (Ht : (t * IZR d = IZR r)%R) by (unfold t; field; lra).
  assert (Hx' : x = (F2R q e + t * bpow e)%R) by (unfold F2R; lra).
  destruct (Z.eqb_spec r 0) as [->|Hr0].
  - cbn [inbetween]. assert (t = 0)%R by (unfold t; lra). nra.
  - assert (Hr1 : (0 < IZR r)%R) by (apply IZR_lt; lia).
    assert (Hr2 : (IZR r < IZR d)%R) by (apply IZR_lt; lia).
    assert (Ht0 : (0 < t)%R) by nra.
    assert (Ht1 : (t < 1)%R) by nra.
    destruct (Z.compare_spec (2 * r) d) as [Heq|Hlt|Hgt]; cbn [inbetween].
    + assert (2 * IZR r = IZR d)%R by (rewrite <- mult_IZR; f_equal; exact Heq).
      assert (t = 1 / 2)%R by nra. nra.
    + assert (2 * IZR r < IZR d)%R by (rewrite <- mult_IZR; apply IZR_lt; exact Hlt).
      assert (t < 1 / 2)%R by nra. nra.
    + assert (IZR d < 2 * IZR r)%R by (rewrite <- mult_IZR; apply IZR_lt; exact Hgt).
      assert (1 / 2 < t)%R by nra. nra.
Qed.

(** The core of the division: quotient, exponent and location describe the
    real quotient, and the quotient has enough digits for its exponent. *)
Lemma SFdiv_core_binary_spec (m1 m2 : positive) (e1 e2 : Z) :
  let '(q, e', l) := SFdiv_core_binary prec emax (Z.pos m1) e1 (Z.pos m2) e2 in
  0 <= q
  /\ inbetween (F2R (Z.pos m1) e1 / F2R (Z.pos m2) e2) q e' l
  /\ e' <= fexp prec emax (Zdigits2 q + e').
Proof.
  unfold SFdiv_core_binary.
  set (d1 := Zdigits2 (Z.pos m1)). set (d2 := Zdigits2 (Z.pos m2)).
  set (e' := IntDef.Z.min (fexp prec emax (d1 + e1 - (d2 + e2))) (e1 - e2)).
  change IntDef.Z.min with Z.min in e'.
  set (s := e1 - e2 - e').
  assert (Hs : 0 <= s) by (unfold s, e'; lia).
  set (m' := match s with 0 => Z.pos m1 | Z.pos _ => IntDef.Z.shiftl (Z.pos m1) s | Z.neg _ => 0 end).
  assert (Hm' : m' = Z.pos m1 * 2 ^ s).
  { unfold m'. change IntDef.Z.shiftl with Z.shiftl.
    destruct s as [|p|p] eqn:Hsp; [cbn; lia| |lia].
    now rewrite Z.shiftl_mul_pow2 by lia. }
  clearbody m'.
  change IntDef.Z.div_eucl with Z.div_eucl.
  pose proof (Z_div_mod m' (Z.pos m2) ltac:(lia)) as Hdm.
  destruct (Z.div_eucl m' (Z.pos m2)) as [q r]. destruct Hdm as [Hqr Hr].
  assert (H2s : 0 < 2 ^ s) by (apply Z.pow_pos_nonneg; lia).
  assert (Hq : 0 <= q) by nia.
  split; [exact Hq|]. split.
  - apply new_location_inbetween; [lia|lia|].
    pose proof (bpow_gt_0 e1). pose proof (bpow_gt_0 e2). pose proof (bpow_gt_0 e').
    assert (Hd : (0 < IZR (Z.pos m2))%R) by (apply IZR_lt; lia).
    assert (HZ : (IZR (Z.pos m1) * bpow s = IZR q * IZR (Z.pos m2) + IZR r)%R).
    { rewrite <- bpow_IZR by exact Hs. rewrite <- !mult_IZR, <- plus_IZR.
      f_equal. lia. }
    assert (He1 : bpow e1 = (bpow s * bpow e' * bpow e2)%R).
    { rewrite <- !bpow_plus. f_equal. unfold s. lia. }
    unfold F2R. rewrite He1. field_simplify_eq; [|lra]. nra.
  - pose proof (Zdigits2_bounds (Z.pos m1) ltac:(lia)) as [Hb1 Hb1'].
    pose proof (Zdigits2_bounds (Z.pos m2) ltac:(lia)) as [Hb2 Hb2'].
    pose proof (Zdigits2_pos (Z.pos m1) ltac:(lia)).
    pose proof (Zdigits2_pos (Z.pos m2) ltac:(lia)).
    fold d1 in Hb1, Hb1', H. fold d2 in Hb2, Hb2', H0.
    assert (Hk : e' <= fexp prec emax (d1 + e1 - (d2 + e2))) by (unfold e'; lia).
    rewrite fexp_eq in Hk |- *.
    assert (Hlow : 2 ^ (d1 - 1 + s) <= m').
    { rewrite Hm', Z.pow_add_r by lia. nia. }
    destruct (Z.eq_dec q 0) as [->|Hq0].
    + cbn [Zdigits2 Z.add].
      assert (d1 - 1 + s < d2).
      { apply (Z.pow_lt_mono_r_iff 2); lia. }
      unfold s in *. lia.
    + pose proof (Zdigits2_bounds q ltac:(lia)) as [_ HD].
      pose proof (Zdigits2_pos q ltac:(lia)) as HDp.
      assert (HDge : d1 - d2 + s <= Zdigits2 q).
      { destruct (Z.lt_ge_cases (d1 - 1 + s - d2) 0) as [Hneg|Hpos]; [lia|].
        assert (2 ^ (d1 - 1 + s - d2) <= q).
        { assert (Hsplit : 2 ^ (d1 - 1 + s) = 2 ^ (d1 - 1 + s - d2) * 2 ^ d2).
          { rewrite <- Z.pow_add_r by lia. f_equal. lia. }
          assert (0 < 2 ^ (d1 - 1 + s - d2)) by (apply Z.pow_pos_nonneg; lia).
          nia. }
        assert (d1 - 1 + s - d2 < Zdigits2 q); [|lia].
        apply (Z.pow_lt_mono_r_iff 2); lia. }
      unfold s in *. lia.
Qed.

(** The quotient of two valid finite floats is the rounding of the quotient
    of their values, with the sign of the quotient. *)
Lemma SFdiv_finite (s1 s2 : bool) (m1 m2 : positive) (e1 e2 : Z) :
  exists M E l,
    canon (F2R (Z.pos m1) e1 / F2R (Z.pos m2) e2) M E l
    /\ SFdiv prec emax (S754_finite s1 m1 e1) (S754_finite s2 m2 e2)
       = rounded (xorb s1 s2) (round_nearest_even M l) E.
Proof.
  cbn [SFdiv].
  pose proof (SFdiv_core_binary_spec m1 m2 e1 e2) as H.
  destruct (SFdiv_core_binary prec emax (Z.pos m1) e1 (Z.pos m2) e2) as [[q e'] l].
  destruct H as (Hq & Hin & He).
  now apply binary_round_aux_canon.
Qed.

Lemma SFdiv_rounds (m1 m2 : positive) (e1 e2 : Z) :
  rounds_to (F2R (Z.pos m1) e1 / F2R (Z.pos m2) e2)
            (SFdiv prec emax (S754_finite false m1 e1) (S754_finite false m2 e2)).
Proof.
  destruct (SFdiv_finite false false m1 m2 e1 e2) as (M & E & l & Hc & Heq).
  exists M, E, l. split; [exact Hc|exact Heq].
Qed.

End Division.

Section Addition.

Local Open Scope Z_scope.

Lemma F2R_plus (m1 m2 e : Z) : F2R (m1 + m2) e = (F2R m1 e + F2R m2 e)%R.
Proof. unfold F2R. rewrite plus_IZR. lra. Qed.

Lemma F2R_cond_Zopp (s : bool) (m e : Z) :
  F2R (cond_Zopp s m) e = (if s then - F2R m e else F2R m e)%R.
Proof. unfold F2R. destruct s; cbn [cond_Zopp]; [rewrite opp_IZR; lra|reflexivity]. Qed.

(** The integer that is rounded by an addition stands for the sum. *)
Lemma SFadd_aligned (s1 s2 : bool) (m1 m2 : positive) (e1 e2 : Z) :
  F2R (cond_Zopp s1 (Z.pos (fst (shl_align m1 e1 (Z.min e1 e2))))
       + cond_Zopp s2 (Z.pos (fst (shl_align m2 e2 (Z.min e1 e2)))))
      (Z.min e1 e2)
  = (F2R (cond_Zopp s1 (Z.pos m1)) e1 + F2R (cond_Zopp s2 (Z.pos m2)) e2)%R.
Proof.
  pose proof (shl_align_spec m1 e1 (Z.min e1 e2)) as [H1 _].
  pose proof (shl_align_spec m2 e2 (Z.min e1 e2)) as [H2 _].
  rewrite H1, H2, F2R_plus, !F2R_cond_Zopp.
  replace (Z.min e1 (Z.min e1 e2)) with (Z.min e1 e2) by lia.
  replace (Z.min e2 (Z.min e1 e2)) with (Z.min e1 e2) by lia.
  assert (Ha : F2R (Z.pos m1 * 2 ^ (e1 - Z.min e1 e2)) (Z.min e1 e2) = F2R (Z.pos m1) e1).
  { replace (Z.min e1 e2) with (e1 - (e1 - Z.min e1 e2)) at 2 by lia.
    apply F2R_shl. lia. }
  assert (Hb : F2R (Z.pos m2 * 2 ^ (e2 - Z.min e1 e2)) (Z.min e1 e2) = F2R (Z.pos m2) e2).
  { replace (Z.min e1 e2) with (e2 - (e2 - Z.min e1 e2)) at 2 by lia.
    apply F2R_shl. lia. }
  now rewrite Ha, Hb.
Qed.

(** The sum of two finite non-negative floats is the rounding of the sum of
    their values. *)
Lemma SFadd_rounds (m1 m2 : positive) (e1 e2 : Z) :
  rounds_to (F2R (Z.pos m1) e1 + F2R (Z.pos m2) e2)
            (SFadd prec emax (S754_finite false m1 e1) (S754_finite false m2 e2)).
Proof.
  cbn [SFadd]. change IntDef.Z.min with Z.min.
  pose proof (SFadd_aligned false false m1 m2 e1 e2) as Hv.
  cbn [cond_Zopp] in Hv |- *. rewrite <- Hv.
  apply binary_normalize_rounds. lia.
Qed.

(** The sum of two finite floats of any signs is a valid float, not a NaN. *)
Lemma SFadd_finite_valid (s1 s2 : bool) (m1 m2 : positive) (e1 e2 : Z) :
  valid_binary (SFadd prec emax (S754_finite s1 m1 e1) (S754_finite s2 m2 e2)) = true
  /\ SFadd prec emax (S754_finite s1 m1 e1) (S754_finite s2 m2 e2) <> S754_nan.
Proof. cbn [SFadd]. apply binary_normalize_valid. Qed.

End Addition.

(** ** Binary64: the operations of primitive floats *)

Section PrimFloats.

Local Open Scope Z_scope.

Lemma finite_pos_fin_nn (x : float) : finite_pos x -> fin_nn x.
Proof. intros H. now right. Qed.

Lemma B2R_finite (x : float) (m : positive) (e : Z) :
  Prim2SF x = S754_finite false m e -> B2R x = F2R (Z.pos m) e.
Proof. intros H. unfold B2R. now rewrite H. Qed.

Lemma B2R_zero (x : float) (s : bool) : Prim2SF x = S754_zero s -> B2R x = 0%R.
Proof. intros H. unfold B2R. now rewrite H. Qed.

Lemma valid_of_prim (x : float) (s : bool) (m : positive) (e : Z) :
  Prim2SF x = S754_finite s m e -> valid_binary (S754_finite s m e) = true.
Proof. intros H. rewrite <- H. apply Prim2SF_valid. Qed.

Lemma finite_pos_B2R (x : float) : finite_pos x -> (0 < B2R x)%R.
Proof.
  intros (m & e & H). rewrite (B2R_finite x m e H). unfold F2R.
  pose proof (bpow_gt_0 e). assert (0 < IZR (Z.pos m))%R by (apply IZR_lt; lia). nra.
Qed.

Lemma fin_nn_B2R (x : float) : fin_nn x -> (0 <= B2R x)%R.
Proof.
  intros [H|H]; [rewrite (B2R_zero x false H); lra|].
  apply Rlt_le, finite_pos_B2R, H.
Qed.

(** A finite non-negative float is what its own value rounds to. *)
Lemma rounds_to_prim (x : float) : fin_nn x -> rounds_to (B2R x) (Prim2SF x).
Proof.
  intros [H|(m & e & H)].
  - rewrite (B2R_zero x false H), H. apply rounds_to_zero.
  - rewrite (B2R_finite x m e H), H. apply rounds_to_valid. now apply (valid_of_prim x).
Qed.

Lemma rounds_to_class (x : R) (f : spec_float) :
  rounds_to x f ->
  valid_binary f = true
  /\ (f = S754_zero false \/ (exists m e, f = S754_finite false m e)
      \/ f = S754_infinity false).
Proof. intros (M & E & l & Hc & ->). now apply (rounded_of_canon false x). Qed.

Lemma rounds_to_nonneg (x : R) (y : float) : rounds_to x (Prim2SF y) -> nonneg y.
Proof.
  intros H. destruct (rounds_to_class x _ H) as [_ [Hz|[Hf|Hi]]].
  - left. now left.
  - left. now right.
  - now right.
Qed.

Lemma mul_rounds (a b : float) :
  fin_nn a -> fin_nn b -> rounds_to (B2R a * B2R b) (Prim2SF (a * b)).
Proof.
  intros [Ha|(ma & ea & Ha)] [Hb|(mb & eb & Hb)]; rewrite mul_spec;
    unfold B2R, SF64mul; rewrite Ha, Hb; cbn [SF2R SFmul xorb].
  - rewrite Rmult_0_l. apply rounds_to_zero.
  - rewrite Rmult_0_l. apply rounds_to_zero.
  - rewrite Rmult_0_r. apply rounds_to_zero.
  - apply SFmul_rounds; [now apply (valid_of_prim a)|now apply (valid_of_prim b)].
Qed.

Lemma div_rounds (a b : float) :
  fin_nn a -> finite_pos b -> rounds_to (B2R a / B2R b) (Prim2SF (a / b)).
Proof.
  intros [Ha|(ma & ea & Ha)] (mb & eb & Hb); rewrite div_spec;
    unfold B2R, SF64div; rewrite Ha, Hb; cbn [SF2R SFdiv xorb cond_Zopp].
  - unfold Rdiv. rewrite Rmult_0_l. apply rounds_to_zero.
  - apply SFdiv_rounds.
Qed.

Lemma add_rounds (a b : float) :
  fin_nn a -> fin_nn b -> rounds_to (B2R a + B2R b) (Prim2SF (a + b)).
Proof.
  intros [Ha|(ma & ea & Ha)] [Hb|(mb & eb & Hb)]; rewrite add_spec;
    unfold B2R, SF64add; rewrite Ha, Hb; cbn [SF2R cond_Zopp].
  - cbn [SFadd]. rewrite Rplus_0_l. apply rounds_to_zero.
  - cbn [SFadd]. rewrite Rplus_0_l. apply rounds_to_valid. now apply (valid_of_prim b).
  - cbn [SFadd]. rewrite Rplus_0_r. apply rounds_to_valid. now apply (valid_of_prim a).
  - apply SFadd_rounds.
Qed.

(** [float(z)] is the rounding of [z]. *)
Lemma Z2F_rounds (z : Z) : 0 <= z -> rounds_to (IZR z) (Prim2SF (Z2F z)).
Proof.
  intros Hz. unfold Z2F.
  rewrite Prim2SF_SF2Prim by apply binary_normalize_valid.
  replace (IZR z) with (F2R z 0) by (unfold F2R; rewrite bpow_0; lra).
  now apply binary_normalize_rounds.
Qed.

End PrimFloats.

Section PrimOrder.

Local Open Scope Z_scope.

Lemma leb_of_rounds (x1 x2 : R) (a b : float) :
  rounds_to x1 (Prim2SF a) -> rounds_to x2 (Prim2SF b) -> (x1 <= x2)%R ->
  PrimFloat.leb a b = true.
Proof. intros Ha Hb Hle. rewrite leb_spec. exact (rounds_to_mono _ _ _ _ Ha Hb Hle). Qed.

Lemma leb_nonneg_infinity (a b : float) :
  nonneg a -> Prim2SF b = S754_infinity false -> PrimFloat.leb a b = true.
Proof.
  intros Ha Hb. rewrite leb_spec, Hb.
  destruct Ha as [[Ha|(m & e & Ha)]|Ha]; rewrite Ha; reflexivity.
Qed.

Lemma leb_infinity_fin_nn (a b : float) :
  Prim2SF a = S754_infinity false -> fin_nn b -> PrimFloat.leb a b = false.
Proof.
  intros Ha Hb. rewrite leb_spec, Ha.
  destruct Hb as [Hb|(m & e & Hb)]; rewrite Hb; reflexivity.
Qed.

(** On finite non-negative floats the comparison is that of the values. *)
Lemma leb_B2R (a b : float) :
  fin_nn a -> fin_nn b -> (PrimFloat.leb a b = true <-> (B2R a <= B2R b)%R).
Proof.
  intros Ha Hb. split.
  - intros Hle. rewrite leb_spec in Hle.
    destruct Ha as [Ha|(ma & ea & Ha)].
    + rewrite (B2R_zero a false Ha). now apply fin_nn_B2R.
    + destruct Hb as [Hb|(mb & eb & Hb)].
      * rewrite Ha, Hb in Hle. discriminate.
      * rewrite (B2R_finite a ma ea Ha), (B2R_finite b mb eb Hb).
        rewrite Ha, Hb in Hle.
        apply SFleb_valid; [now apply (valid_of_prim a)|now apply (valid_of_prim b)|exact Hle].
  - intros Hle. exact (leb_of_rounds _ _ a b (rounds_to_prim a Ha) (rounds_to_prim b Hb) Hle).
Qed.

(** A non-negative float is at least zero in the IEEE order. *)
Lemma nonneg_leb_zero (a : float) : nonneg a -> PrimFloat.leb 0 a = true.
Proof.
  intros Ha. rewrite leb_spec. change (Prim2SF 0) with (S754_zero false).
  destruct Ha as [[Ha|(m & e & Ha)]|Ha]; rewrite Ha; reflexivity.
Qed.

(** Multiplication by a positive finite float is monotone. *)
Lemma mul_mono_r (a b c : float) :
  finite_pos a -> nonneg b -> nonneg c -> PrimFloat.leb b c = true ->
  PrimFloat.leb (a * b) (a * c) = true /\ nonneg (a * b) /\ nonneg (a * c).
Proof.
  intros Ha Hb Hc Hle. pose proof (finite_pos_B2R a Ha) as Hpos.
  destruct Ha as (ma & ea & Ha).
  assert (Hfa : fin_nn a) by (right; eauto).
  assert (Hinf : forall y, Prim2SF y = S754_infinity false ->
                           Prim2SF (a * y) = S754_infinity false).
  { intros y Hy. rewrite mul_spec. unfold SF64mul. rewrite Ha, Hy. reflexivity. }
  assert (Hnn : forall y, nonneg y -> nonneg (a * y)).
  { intros y [Hy|Hy]; [|right; now apply Hinf].
    exact (rounds_to_nonneg _ _ (mul_rounds a y Hfa Hy)). }
  split; [|split; now apply Hnn].
  destruct Hc as [Hc|Hc].
  - destruct Hb as [Hb|Hb].
    + apply (leb_of_rounds _ _ _ _ (mul_rounds a b Hfa Hb) (mul_rounds a c Hfa Hc)).
      apply (leb_B2R b c Hb Hc) in Hle. nra.
    + rewrite (leb_infinity_fin_nn b c Hb Hc) in Hle. discriminate.
  - apply leb_nonneg_infinity; [now apply Hnn|now apply Hinf].
Qed.

(** Division by a positive finite float is monotone. *)
Lemma div_mono_l (b c d : float) :
  finite_pos d -> nonneg b -> nonneg c -> PrimFloat.leb b c = true ->
  PrimFloat.leb (b / d) (c / d) = true /\ nonneg (b / d) /\ nonneg (c / d).
Proof.
  intros Hd Hb Hc Hle. pose proof (finite_pos_B2R d Hd) as Hpos.
  assert (Hinf : forall y, Prim2SF y = S754_infinity false ->
                           Prim2SF (y / d) = S754_infinity false).
  { intros y Hy. destruct Hd as (md & ed & Hd).
    rewrite div_spec. unfold SF64div. rewrite Hd, Hy. reflexivity. }
  assert (Hnn : forall y, nonneg y -> nonneg (y / d)).
  { intros y [Hy|Hy]; [|right; now apply Hinf].
    exact (rounds_to_nonneg _ _ (div_rounds y d Hy Hd)). }
  split; [|split; now apply Hnn].
  destruct Hc as [Hc|Hc].
  - destruct Hb as [Hb|Hb].
    + apply (leb_of_rounds _ _ _ _ (div_rounds b d Hb Hd) (div_rounds c d Hc Hd)).
      apply (leb_B2R b c Hb Hc) in Hle.
      unfold Rdiv. apply Rmult_le_compat_r; [|exact Hle].
      apply Rlt_le, Rinv_0_lt_compat, Hpos.
    + rewrite (leb_infinity_fin_nn b c Hb Hc) in Hle. discriminate.
  - apply leb_nonneg_infinity; [now apply Hnn|now apply Hinf].
Qed.

(** Addition to a finite non-negative float is monotone. *)
Lemma add_mono_r (a b c : float) :
  fin_nn a -> nonneg b -> nonneg c -> PrimFloat.leb b c = true ->
  PrimFloat.leb (a + b) (a + c) = true /\ nonneg (a + b) /\ nonneg (a + c).
Proof.
  intros Ha Hb Hc Hle.
  assert (Hinf : forall y, Prim2SF y = S754_infinity false ->
                           Prim2SF (a + y) = S754_infinity false).
  { intros y Hy. rewrite add_spec. unfold SF64add. rewrite Hy.
    destruct Ha as [Ha|(ma & ea & Ha)]; rewrite Ha; reflexivity. }
  assert (Hnn : forall y, nonneg y -> nonneg (a + y)).
  { intros y [Hy|Hy]; [|right; now apply Hinf].
    exact (rounds_to_nonneg _ _ (add_rounds a y Ha Hy)). }
  split; [|split; now apply Hnn].
  destruct Hc as [Hc|Hc].
  - destruct Hb as [Hb|Hb].
    + apply (leb_of_rounds _ _ _ _ (add_rounds a b Ha Hb) (add_rounds a c Ha Hc)).
      apply (leb_B2R b c Hb Hc) in Hle. lra.
    + rewrite (leb_infinity_fin_nn b c Hb Hc) in Hle. discriminate.
  - apply leb_nonneg_infinity; [now apply Hnn|now apply Hinf].
Qed.

(** [float(z)] is monotone in [z]. *)
Lemma Z2F_mono (z1 z2 : Z) :
  0 <= z1 <= z2 -> PrimFloat.leb (Z2F z1) (Z2F z2) = true.
Proof.
  intros H. apply (leb_of_rounds (IZR z1) (IZR z2)); try apply Z2F_rounds; try lia.
  apply IZR_le. lia.
Qed.

Lemma Z2F_nonneg (z : Z) : 0 <= z -> nonneg (Z2F z).
Proof. intros H. exact (rounds_to_nonneg _ _ (Z2F_rounds z H)). Qed.

End PrimOrder.

(** ** C10 and C4: the impact simulation *)

Lemma base_revenue_finite_pos (r : float) :
  PrimFloat.is_finite r = true -> PrimFloat.leb 10 r = true -> finite_pos r.
Proof.
  intros Hfin Hle.
  exact (leb_positive_finite 10 r 5629499534213120 (-49) eq_refl Hle Hfin).
Qed.

Lemma hundred_finite_pos : finite_pos 100.
Proof. exists 7036874417766400%positive, (-46). reflexivity. Qed.

(** For a finite base revenue of at least 10 and percentages between 0 and
    50, a larger percentage gives an uplift and a projected revenue that are
    not smaller. *)
Lemma uplift_monotone (r : float) (pct1 pct2 : Z) :
  finite_pos r -> 0 <= pct1 <= pct2 ->
  PrimFloat.leb (uplift r pct1) (uplift r pct2) = true
  /\ nonneg (uplift r pct1) /\ nonneg (uplift r pct2).
Proof.
  intros Hr Hp. unfold uplift.
  destruct (mul_mono_r r (Z2F pct1) (Z2F pct2) Hr
              (Z2F_nonneg pct1 ltac:(lia)) (Z2F_nonneg pct2 ltac:(lia))
              (Z2F_mono pct1 pct2 Hp)) as (Hle & Hn1 & Hn2).
  exact (div_mono_l _ _ 100 hundred_finite_pos Hn1 Hn2 Hle).
Qed.

(** C10.  For every finite base revenue [r >= 10], the projected revenue
    does not decrease when the improvement percentage grows: for
    [0 <= pct1 <= pct2 <= 50], [projected r pct1 <= projected r pct2]. *)
Theorem projected_monotone (r : float) (pct1 pct2 : Z) :
  PrimFloat.is_finite r = true -> PrimFloat.leb 10 r = true ->
  0 <= pct1 -> pct1 <= pct2 -> pct2 <= 50 ->
  PrimFloat.leb (projected r pct1) (projected r pct2) = true.
Proof.
  intros Hfin Hle H0 H12 H50.
  pose proof (base_revenue_finite_pos r Hfin Hle) as Hr.
  destruct (uplift_monotone r pct1 pct2 Hr ltac:(lia)) as (Hu & Hn1 & Hn2).
  unfold projected.
  exact (proj1 (add_mono_r r _ _ (finite_pos_fin_nn r Hr) Hn1 Hn2 Hu)).
Qed.

Lemma projected_monotone_witness :
  PrimFloat.leb (projected 500 8) (projected 500 20) = true.
Proof.
  apply (projected_monotone 500 8 20); [reflexivity|reflexivity|lia|lia|lia].
Defined.

Section RoundingError.

Local Open Scope Z_scope.

Lemma SF2R_rounded (N E : Z) :
  0 <= N <= 2 ^ 53 -> rounded false N E <> S754_infinity false ->
  SF2R (rounded false N E) = F2R N E.
Proof.
  intros HN Hinf. unfold rounded in *.
  destruct (Z.eqb_spec N 0) as [->|H0]; [unfold F2R; cbn; lra|].
  destruct (Z.ltb_spec N (2 ^ 53)) as [H53|H53].
  - destruct (Z.leb_spec E 971); [|congruence].
    cbn [SF2R cond_Zopp]. now rewrite Z2Pos.id by lia.
  - destruct (Z.leb_spec (E + 1) 971); [|congruence].
    cbn [SF2R cond_Zopp]. assert (N = 2 * 2 ^ 52) as -> by lia.
    rewrite F2R_shift. reflexivity.
Qed.

(** Rounding to nearest: the result is within half a unit of the last
    place of the canonical position. *)
Lemma round_nearest_even_error (x : R) (M E : Z) (l : location) :
  inbetween x M E l ->
  (Rabs (F2R (round_nearest_even M l) E - x) <= bpow E / 2)%R.
Proof.
  intros Hin. pose proof (bpow_gt_0 E) as Hb.
  unfold round_nearest_even.
  destruct l as [|[| |]]; cbn [inbetween] in Hin.
  - rewrite Hin. replace (F2R M E - F2R M E)%R with 0%R by lra.
    rewrite Rabs_R0. lra.
  - destruct (IntDef.Z.even M); rewrite ?F2R_succ; apply Rabs_le; lra.
  - apply Rabs_le. lra.
  - rewrite F2R_succ. apply Rabs_le. lra.
Qed.

(** In the normal range the relative error of a rounding that does not
    overflow is at most [2^-53]. *)
Lemma rounds_to_relative_error (x : R) (f : spec_float) :
  rounds_to x f -> f <> S754_infinity false -> (bpow (-1022) <= x)%R ->
  (Rabs (SF2R f - x) <= x * bpow (-53))%R.
Proof.
  intros (M & E & l & (Hin & HM & HE & Hn) & ->) Hinf Hx.
  pose proof (round_nearest_even_bounds M l) as HN.
  rewrite SF2R_rounded by (try lia; exact Hinf).
  pose proof (round_nearest_even_error x M E l Hin) as Herr.
  pose proof (inbetween_bounds x M E l Hin) as [Hlo Hup].
  assert (H52 : 2 ^ 52 <= M).
  { destruct Hn as [HEm|H52]; [|exact H52]. subst E.
    destruct (Z.lt_ge_cases M (2 ^ 52)) as [Hlt|Hge]; [exfalso|exact Hge].
    pose proof (F2R_le_bpow (M + 1) (-1074) 52 ltac:(lia) ltac:(lia)) as Hb.
    change (52 + -1074) with (-1022) in Hb. lra. }
  pose proof (F2R_ge_bpow M E 52 ltac:(lia) H52) as Hge.
  assert (Hb : bpow E = (bpow (52 + E) * bpow (-52))%R).
  { rewrite <- bpow_plus. f_equal. lia. }
  assert (Hh : bpow (-53) = (bpow (-52) / 2)%R).
  { replace (-52) with (-53 + 1) by lia. rewrite bpow_succ. lra. }
  pose proof (bpow_gt_0 (-52)). pose proof (bpow_gt_0 (52 + E)).
  assert ((bpow E / 2 <= x * bpow (-53))%R); [|lra].
  rewrite Hb, Hh. nra.
Qed.

End RoundingError.

Section PrimBounds.

Local Open Scope Z_scope.

(** A rounding below a finite float is finite. *)
Lemma rounds_to_below (x : R) (y g : float) :
  rounds_to x (Prim2SF y) -> finite_pos g -> (x <= B2R g)%R ->
  fin_nn y /\ (B2R y <= B2R g)%R.
Proof.
  intros Hy Hg Hle.
  pose proof (leb_of_rounds x (B2R g) y g Hy
                (rounds_to_prim g (finite_pos_fin_nn g Hg)) Hle) as Hleb.
  destruct (rounds_to_nonneg x y Hy) as [Hf|Hi].
  - split; [exact Hf|]. now apply (leb_B2R y g Hf (finite_pos_fin_nn g Hg)).
  - rewrite (leb_infinity_fin_nn y g Hi (finite_pos_fin_nn g Hg)) in Hleb. discriminate.
Qed.

Lemma fin_nn_not_infinity (y : float) : fin_nn y -> Prim2SF y <> S754_infinity false.
Proof. intros [H|(m & e & H)]; rewrite H; discriminate. Qed.

Lemma relative_error (x : R) (y : float) :
  rounds_to x (Prim2SF y) -> fin_nn y -> (bpow (-1022) <= x)%R ->
  (Rabs (B2R y - x) <= x * bpow (-53))%R.
Proof.
  intros Hy Hf Hx. apply rounds_to_relative_error; try assumption.
  now apply fin_nn_not_infinity.
Qed.

(** A positive value in the normal range rounds to a positive float. *)
Lemma fin_nn_positive (x : R) (y : float) :
  rounds_to x (Prim2SF y) -> fin_nn y -> (bpow (-1022) <= x)%R -> finite_pos y.
Proof.
  intros Hy Hf Hx. pose proof (relative_error x y Hy Hf Hx) as Herr.
  destruct Hf as [Hz|Hp]; [exfalso|exact Hp].
  rewrite (B2R_zero y false Hz) in Herr.
  pose proof (bpow_gt_0 (-1022)).
  assert (bpow (-53) <= / 2)%R.
  { pose proof (bpow_le (-53) (-1) ltac:(lia)) as Hb.
    pose proof (bpow_succ (-1)) as Hs. change (-1 + 1) with 0 in Hs.
    rewrite bpow_0 in Hs. lra. }
  rewrite Rminus_0_l, Rabs_Ropp, Rabs_pos_eq in Herr by lra. nra.
Qed.

(** Small integers are floats: [float(z)] is [z] itself below [2^53]. *)
Lemma Z2F_exact (z : Z) :
  0 < z < 2 ^ 53 -> finite_pos (Z2F z) /\ B2R (Z2F z) = IZR z.
Proof.
  intros Hz.
  destruct (Z2F_rounds z ltac:(lia)) as (M & E & l & (Hin & HM & HE & Hn) & Heq).
  pose proof (inbetween_bounds _ M E l Hin) as [Hlo Hup].
  assert (HE0 : E <= 0).
  { destruct (Z.lt_ge_cases 0 E) as [Hpos|Hle]; [exfalso|exact Hle].
    destruct Hn as [H|H52]; [lia|].
    pose proof (F2R_ge_bpow M E 52 ltac:(lia) H52) as Hge.
    pose proof (bpow_le 53 (52 + E) ltac:(lia)) as Hb.
    rewrite <- (bpow_IZR 53) in Hb by lia.
    assert (IZR z < IZR (2 ^ 53))%R by (apply IZR_lt; lia). lra. }
  assert (Hx : IZR z = F2R (z * 2 ^ (- E)) E).
  { replace E with (0 - (- E)) at 2 by lia. rewrite F2R_shl by lia.
    unfold F2R. rewrite bpow_0. lra. }
  assert (HMz : M = z * 2 ^ (- E)).
  { rewrite Hx in Hlo, Hup.
    assert (M < z * 2 ^ (- E) + 1) by (apply (F2R_lt_inv _ _ E); rewrite F2R_succ in *; lra).
    assert (z * 2 ^ (- E) < M + 1) by (apply (F2R_lt_inv _ _ E); lra).
    lia. }
  assert (Hl : l = loc_Exact).
  { rewrite Hx, <- HMz in Hin. pose proof (bpow_gt_0 E).
    destruct l as [|[| |]]; [reflexivity|..]; cbn [inbetween] in Hin; lra. }
  subst l. cbn [round_nearest_even] in Heq.
  assert (HM0 : 0 < M).
  { rewrite HMz. apply Z.mul_pos_pos; [lia|apply Z.pow_pos_nonneg; lia]. }
  unfold rounded in Heq.
  destruct (Z.eqb_spec M 0); [lia|].
  destruct (Z.ltb_spec M (2 ^ 53)); [|lia].
  destruct (Z.leb_spec E 971); [|lia].
  split; [eexists _, _; exact Heq|].
  unfold B2R. rewrite Heq. cbn [SF2R cond_Zopp].
  rewrite Z2Pos.id by lia. rewrite Hx, HMz. reflexivity.
Qed.

End PrimBounds.

Section ImpactAccuracy.

Local Open Scope Z_scope.

Lemma Rabs_le_inv (x y : R) : (Rabs x <= y -> - y <= x <= y)%R.
Proof. unfold Rabs. destruct (Rcase_abs x); lra. Qed.

Lemma B2R_10 : B2R 10 = 10%R.
Proof.
  assert (H : Z2F 10 = 10%float) by (vm_compute; reflexivity).
  rewrite <- H. apply (Z2F_exact 10). lia.
Qed.

Lemma B2R_100 : B2R 100 = 100%R.
Proof.
  assert (H : Z2F 100 = 100%float) by (vm_compute; reflexivity).
  rewrite <- H. apply (Z2F_exact 100). lia.
Qed.

Lemma two_1010_finite_pos : finite_pos two_1010.
Proof. exists 4503599627370496%positive, 958. reflexivity. Qed.

Lemma B2R_two_1010 : B2R two_1010 = bpow 1010.
Proof.
  unfold B2R. change (Prim2SF two_1010) with (S754_finite false 4503599627370496 958).
  cbn [SF2R cond_Zopp]. unfold F2R.
  change (Z.pos 4503599627370496) with (2 ^ 52). rewrite bpow_IZR by lia.
  rewrite <- bpow_plus. reflexivity.
Qed.

Lemma bpow_le_1 (e : Z) : e <= 0 -> (bpow e <= 1)%R.
Proof. intros H. rewrite <- bpow_0. now apply bpow_le. Qed.

Lemma bpow_m5 : (bpow (-5) = / 32)%R.
Proof.
  assert (H : (bpow (-5) * IZR (2 ^ 5) = 1)%R).
  { rewrite bpow_IZR by lia. rewrite <- bpow_plus. reflexivity. }
  change (2 ^ 5) with 32 in H. lra.
Qed.

Lemma base_revenue_value (r : float) :
  PrimFloat.is_finite r = true -> PrimFloat.leb 10 r = true ->
  finite_pos r /\ (10 <= B2R r)%R.
Proof.
  intros Hfin Hle. pose proof (base_revenue_finite_pos r Hfin Hle) as Hr.
  split; [exact Hr|]. rewrite <- B2R_10.
  apply leb_B2R; [..|exact Hle]; right; [|exact Hr].
  exists 5629499534213120%positive, (-49). reflexivity.
Qed.

(** The three roundings of the impact computation, for a revenue that is
    not astronomically large and a percentage of at least 1. *)
Lemma impact_roundings (r : float) (pct : Z) :
  finite_pos r -> (10 <= B2R r <= bpow 1000)%R -> 1 <= pct <= 50 ->
  let a := (r * Z2F pct)%float in
  (finite_pos a /\ Rabs (B2R a - B2R r * IZR pct) <= B2R r * IZR pct * bpow (-53))%R
  /\ (finite_pos (uplift r pct)
      /\ Rabs (B2R (uplift r pct) - B2R a / 100) <= B2R a / 100 * bpow (-53))%R
  /\ (finite_pos (projected r pct)
      /\ Rabs (B2R (projected r pct) - (B2R r + B2R (uplift r pct)))
         <= (B2R r + B2R (uplift r pct)) * bpow (-53))%R.
Proof.
  intros Hr [HR1 HR2] Hp a.
  destruct (Z2F_exact pct ltac:(lia)) as [Hb HB].
  assert (HP1 : (1 <= IZR pct)%R) by (apply IZR_le; lia).
  assert (HP2 : (IZR pct <= 50)%R) by (apply IZR_le; lia).
  pose proof (bpow_gt_0 (-53)) as Hd0.
  assert (Hd1 : (bpow (-53) <= / 32)%R).
  { rewrite <- bpow_m5. apply bpow_le. lia. }
  assert (Hmin : (bpow (-1022) <= / 32)%R).
  { rewrite <- bpow_m5. apply bpow_le. lia. }
  pose proof (bpow_gt_0 1000) as H1000.
  assert (H1010 : (bpow 1010 = bpow 1000 * 1024)%R).
  { replace 1010 with (1000 + 10) by lia. rewrite bpow_plus.
    rewrite <- (bpow_IZR 10) by lia. reflexivity. }
  pose proof two_1010_finite_pos as Hg. pose proof B2R_two_1010 as HG.
  (* the product *)
  pose proof (mul_rounds r (Z2F pct) (finite_pos_fin_nn r Hr) (finite_pos_fin_nn _ Hb)) as Ha.
  rewrite HB in Ha. fold a in Ha.
  assert (HRP : (10 <= B2R r * IZR pct <= bpow 1000 * 50)%R) by nra.
  destruct (rounds_to_below _ a two_1010 Ha Hg ltac:(rewrite HG, H1010; lra)) as [Hfa HaG].
  pose proof (relative_error _ a Ha Hfa ltac:(lra)) as Hea.
  pose proof (fin_nn_positive _ a Ha Hfa ltac:(lra)) as Hpa.
  apply Rabs_le_inv in Hea.
  assert (Hxd : (0 <= B2R r * IZR pct * bpow (-53) <= B2R r * IZR pct / 32)%R) by nra.
  assert (HA : (5 <= B2R a <= bpow 1000 * 52)%R) by lra.
  (* the quotient *)
  pose proof (div_rounds a 100 Hfa hundred_finite_pos) as Hu.
  rewrite B2R_100 in Hu. fold (uplift r pct) in Hu.
  destruct (rounds_to_below _ (uplift r pct) two_1010 Hu Hg
              ltac:(rewrite HG, H1010; lra)) as [Hfu HuG].
  pose proof (relative_error _ (uplift r pct) Hu Hfu ltac:(lra)) as Heu.
  pose proof (fin_nn_positive _ (uplift r pct) Hu Hfu ltac:(lra)) as Hpu.
  pose proof (Rabs_le_inv _ _ Heu) as Heu'.
  assert (Hud : (0 <= B2R a / 100 * bpow (-53) <= B2R a / 100 / 32)%R) by nra.
  assert (HU : (0 <= B2R (uplift r pct) <= bpow 1000)%R) by lra.
  (* the sum *)
  pose proof (add_rounds r (uplift r pct) (finite_pos_fin_nn r Hr) Hfu) as Hs.
  fold (projected r pct) in Hs.
  destruct (rounds_to_below _ (projected r pct) two_1010 Hs Hg
              ltac:(rewrite HG, H1010; lra)) as [Hfp HpG].
  pose proof (relative_error _ (projected r pct) Hs Hfp ltac:(lra)) as Hep.
  pose proof (fin_nn_positive _ (projected r pct) Hs Hfp ltac:(lra)) as Hpp.
  split; [split; [exact Hpa|apply Rabs_le; lra]|].
  split; [split; [exact Hpu|exact Heu]|].
  split; [exact Hpp|exact Hep].
Qed.

End ImpactAccuracy.

Section ImpactIdentities.

Local Open Scope Z_scope.

(** C4, as stated, fails on binary64 numbers: for a base revenue of 10 and
    6 percent the projected revenue differs from [r * (1 + pct / 100)], and
    for 1 percent the uplift differs from [projected - r]. *)
Lemma impact_identities_not_exact :
  PrimFloat.eqb (projected 10 6) (closed_form_projected 10 6) = false
  /\ PrimFloat.eqb (uplift 10 1) (closed_form_uplift 10 1) = false.
Proof. split; vm_compute; reflexivity. Qed.

Lemma fin_nn_is_finite (x : float) : fin_nn x -> PrimFloat.is_finite x = true.
Proof.
  intros [H|(m & e & H)]; rewrite is_finite_SF, H; reflexivity.
Qed.

Lemma impact_order (r : float) (pct : Z) :
  PrimFloat.is_finite r = true -> PrimFloat.leb 10 r = true -> 0 <= pct ->
  PrimFloat.leb 0 (uplift r pct) = true
  /\ PrimFloat.leb r (projected r pct) = true.
Proof.
  intros Hfin Hle Hp.
  pose proof (base_revenue_finite_pos r Hfin Hle) as Hr.
  destruct (uplift_monotone r 0 pct Hr ltac:(lia)) as (Hu & Hn1 & Hn2).
  split; [now apply nonneg_leb_zero|].
  pose proof (proj1 (add_mono_r r _ _ (finite_pos_fin_nn r Hr) Hn1 Hn2 Hu)) as H.
  fold (projected r 0) in H. fold (projected r pct) in H.
  now rewrite (proj2 (uplift_at_zero r Hfin Hle)) in H.
Qed.

Lemma impact_accuracy (r : float) (pct : Z) :
  PrimFloat.is_finite r = true -> PrimFloat.leb 10 r = true ->
  0 <= pct <= 50 -> (B2R r <= bpow 1000)%R ->
  PrimFloat.is_finite (uplift r pct) = true
  /\ PrimFloat.is_finite (projected r pct) = true
  /\ (Rabs (B2R (uplift r pct) - B2R r * IZR pct / 100)
      <= 3 * bpow (-53) * (B2R r * IZR pct / 100))%R
  /\ (Rabs (B2R (projected r pct) - B2R r * (1 + IZR pct / 100))
      <= 3 * bpow (-53) * (B2R r * (1 + IZR pct / 100)))%R
  /\ (Rabs (B2R (uplift r pct) - (B2R (projected r pct) - B2R r))
      <= bpow (-53) * (B2R r + B2R (uplift r pct)))%R.
Proof.
  intros Hfin Hle Hp HR.
  destruct (base_revenue_value r Hfin Hle) as [Hr HR10].
  pose proof (bpow_gt_0 (-53)) as Hd0.
  assert (Hd1 : (bpow (-53) <= / 32)%R).
  { rewrite <- bpow_m5. apply bpow_le. lia. }
  destruct (Z.eq_dec pct 0) as [->|Hnz].
  - destruct (uplift_at_zero r Hfin Hle) as [Hu Hpr]. rewrite Hu, Hpr.
    assert (H0 : B2R 0 = 0%R) by (apply (B2R_zero 0 false); reflexivity).
    rewrite H0.
    split; [reflexivity|]. split; [exact Hfin|].
    repeat split; apply Rabs_le; nra.
  - destruct (impact_roundings r pct Hr (conj HR10 HR) ltac:(lia))
      as ((Hfa & Hea) & (Hfu & Heu) & (Hfp & Hep)).
    set (a := (r * Z2F pct)%float) in *.
    assert (HP1 : (1 <= IZR pct)%R) by (apply IZR_le; lia).
    assert (HP2 : (IZR pct <= 50)%R) by (apply IZR_le; lia).
    apply Rabs_le_inv in Hea. apply Rabs_le_inv in Heu. apply Rabs_le_inv in Hep.
    set (R := B2R r) in *. set (P := IZR pct) in *. set (d := bpow (-53)) in *.
    set (A := B2R a) in *. set (U := B2R (uplift r pct)) in *.
    set (J := B2R (projected r pct)) in *.
    assert (HX : (0 < R * P)%R) by nra.
    assert (HXd : (0 <= R * P * d <= R * P / 32)%R) by nra.
    assert (HA : (0 < A <= R * P * (1 + d))%R) by nra.
    assert (HAd : (0 <= A / 100 * d <= R * P / 100 * (1 + d) * d)%R) by nra.
    assert (Hdd : (R * P / 100 * (d * d) <= R * P / 100 * d)%R) by nra.
    assert (HUX : (- (3 * d * (R * P / 100)) <= U - R * P / 100
                   <= 3 * d * (R * P / 100))%R) by nra.
    assert (HRd : (0 <= R * d)%R) by nra.
    assert (HUd : (0 <= U * d <= (R * P / 100 + 3 * d * (R * P / 100)) * d)%R) by nra.
    assert (HRP : (R * P / 100 <= R / 2)%R) by nra.
    assert (Hdd2 : (3 * d * (R * P / 100) * d <= R * d)%R) by nra.
    split; [now apply fin_nn_is_finite, finite_pos_fin_nn|].
    split; [now apply fin_nn_is_finite, finite_pos_fin_nn|].
    repeat split; apply Rabs_le; nra.
Qed.

(** C4 (amended).  For every finite base revenue [r >= 10] and percentage
    [0 <= pct <= 50]: the uplift is not negative and the projected revenue is
    not below [r]; and when [r <= 2^1000] both results are finite, the
    uplift is [r * pct / 100] and the projected revenue is
    [r * (1 + pct / 100)] up to a relative error of [3 * 2^-53], and the
    uplift is [projected - r] up to [2^-53 * (r + uplift)]. *)
Theorem impact_up_to_rounding (r : float) (pct : Z) :
  PrimFloat.is_finite r = true -> PrimFloat.leb 10 r = true ->
  0 <= pct <= 50 ->
  PrimFloat.leb 0 (uplift r pct) = true
  /\ PrimFloat.leb r (projected r pct) = true
  /\ ((B2R r <= bpow 1000)%R ->
      PrimFloat.is_finite (uplift r pct) = true
      /\ PrimFloat.is_finite (projected r pct) = true
      /\ (Rabs (B2R (uplift r pct) - B2R r * IZR pct / 100)
          <= 3 * bpow (-53) * (B2R r * IZR pct / 100))%R
      /\ (Rabs (B2R (projected r pct) - B2R r * (1 + IZR pct / 100))
          <= 3 * bpow (-53) * (B2R r * (1 + IZR pct / 100)))%R
      /\ (Rabs (B2R (uplift r pct) - (B2R (projected r pct) - B2R r))
          <= bpow (-53) * (B2R r + B2R (uplift r pct)))%R).
Proof.
  intros Hfin Hle Hp.
  destruct (impact_order r pct Hfin Hle ltac:(lia)) as [H0 H1].
  split; [exact H0|]. split; [exact H1|].
  intros HR. exact (impact_accuracy r pct Hfin Hle Hp HR).
Qed.

End ImpactIdentities.

Lemma B2R_500_small : (B2R 500 <= bpow 1000)%R.
Proof.
  assert (H : Z2F 500 = 500%float) by (vm_compute; reflexivity).
  rewrite <- H, (proj2 (Z2F_exact 500 ltac:(lia))).
  apply Rle_trans with (bpow 9).
  - rewrite <- (bpow_IZR 9) by lia. apply IZR_le. vm_compute. discriminate.
  - apply bpow_le. lia.
Qed.

Lemma impact_up_to_rounding_witness :
  PrimFloat.leb 0 (uplift 500 8) = true
  /\ PrimFloat.leb 500 (projected 500 8) = true
  /\ PrimFloat.is_finite (uplift 500 8) = true
  /\ PrimFloat.is_finite (projected 500 8) = true
  /\ (Rabs (B2R (uplift 500 8) - B2R 500 * IZR 8 / 100)
      <= 3 * bpow (-53) * (B2R 500 * IZR 8 / 100))%R
  /\ (Rabs (B2R (projected 500 8) - B2R 500 * (1 + IZR 8 / 100))
      <= 3 * bpow (-53) * (B2R 500 * (1 + IZR 8 / 100)))%R
  /\ (Rabs (B2R (uplift 500 8) - (B2R (projected 500 8) - B2R 500))
      <= bpow (-53) * (B2R 500 + B2R (uplift 500 8)))%R.
Proof.
  destruct (impact_up_to_rounding 500 8 eq_refl eq_refl ltac:(lia))
    as (H0 & H1 & H2).
  split; [exact H0|]. split; [exact H1|]. exact (H2 B2R_500_small).
Defined.

(** ** Rounding to an integral value, and the comparisons of the clipping *)

Section Integral.

Local Open Scope Z_scope.

Lemma loc_rank_inj (l1 l2 : location) : loc_rank l1 = loc_rank l2 -> l1 = l2.
Proof.
  destruct l1 as [|[| |]], l2 as [|[| |]]; cbn; intros H;
    try reflexivity; discriminate H.
Qed.

(** A real number rounds to one float only. *)
Lemma rounds_to_unique (x : R) (f1 f2 : spec_float) :
  rounds_to x f1 -> rounds_to x f2 -> f1 = f2.
Proof.
  intros (M1 & E1 & l1 & Hc1 & ->) (M2 & E2 & l2 & Hc2 & ->).
  pose proof (canon_order x x M1 E1 M2 E2 l1 l2 Hc1 Hc2 (Rle_refl x)) as H12.
  pose proof (canon_order x x M2 E2 M1 E1 l2 l1 Hc2 Hc1 (Rle_refl x)) as H21.
  assert (HE : E1 = E2) by lia. assert (HM : M1 = M2) by lia.
  assert (Hl : l1 = l2) by (apply loc_rank_inj; lia).
  now subst.
Qed.

Lemma SFltb_finite (m1 m2 : positive) (e1 e2 : Z) :
  SFltb (S754_finite false m1 e1) (S754_finite false m2 e2)
  = (e1 <? e2) || ((e1 =? e2) && (Z.pos m1 <? Z.pos m2)).
Proof.
  unfold SFltb. cbn [SFcompare].
  change (PosDef.Pos.compare_cont Eq m1 m2) with (Pos.compare m1 m2).
  destruct (Z.compare_spec e1 e2) as [Heq|Hlt|Hgt].
  - subst e2. rewrite Z.ltb_irrefl, Z.eqb_refl. cbn [orb andb].
    unfold Z.ltb. cbn [Z.compare]. now destruct (Pos.compare m1 m2).
  - apply Z.ltb_lt in Hlt. now rewrite Hlt.
  - destruct (Z.ltb_spec e1 e2); [lia|]. destruct (Z.eqb_spec e1 e2); [lia|]. reflexivity.
Qed.

(** Of two positive finite floats, the second is below the first or the
    first is at most the second. *)
Lemma SFltb_false_SFleb (m1 m2 : positive) (e1 e2 : Z) :
  SFltb (S754_finite false m1 e1) (S754_finite false m2 e2) = false ->
  SFleb (S754_finite false m2 e2) (S754_finite false m1 e1) = true.
Proof.
  rewrite SFltb_finite, SFleb_finite. intros H.
  apply orb_false_iff in H. destruct H as [H1 H2].
  apply Z.ltb_ge in H1.
  destruct (Z.ltb_spec e2 e1) as [Hlt|Hge]; [reflexivity|].
  assert (e1 = e2) as -> by lia. rewrite Z.eqb_refl in *. cbn [orb andb] in *.
  apply Z.ltb_ge in H2. now apply Z.leb_le.
Qed.

Lemma F2R_integer (m e : Z) : 0 <= e -> F2R m e = IZR (m * 2 ^ e).
Proof. intros He. unfold F2R. now rewrite mult_IZR, bpow_IZR. Qed.

Lemma F2R_0 (m : Z) : F2R m 0 = IZR m.
Proof. unfold F2R. rewrite bpow_0. lra. Qed.

Lemma Z2F_0 : Z2F 0 = 0%float.
Proof. reflexivity. Qed.

(** [rint] of a non-negative float that is at most [n] is the float of an
    integer between 0 and [n]. *)
Lemma rint_small (t : float) (n : Z) :
  fin_nn t -> (B2R t <= IZR n)%R ->
  exists k, 0 <= k <= n /\ rint t = Z2F k.
Proof.
  intros Ht Hle. pose proof (fin_nn_B2R t Ht) as H0.
  assert (Hn : 0 <= n) by (apply le_IZR; lra).
  destruct Ht as [Hz|(m & e & Hf)].
  - exists 0. split; [lia|]. unfold rint. rewrite Hz. reflexivity.
  - rewrite (B2R_finite t m e Hf) in Hle.
    destruct (Z.leb_spec 0 e) as [He|He].
    + exists (Z.pos m * 2 ^ e). rewrite F2R_integer in Hle by assumption.
      apply le_IZR in Hle. split; [lia|].
      unfold rint. rewrite Hf. cbn [rintSF].
      destruct (Z.leb_spec 0 e) as [_|]; [|lia].
      rewrite <- Hf, SF2Prim_Prim2SF. apply Prim2SF_inj.
      apply (rounds_to_unique (IZR (Z.pos m * 2 ^ e))).
      * rewrite <- F2R_integer by assumption. rewrite Hf.
        apply rounds_to_valid. exact (valid_of_prim t false m e Hf).
      * apply Z2F_rounds. lia.
    + unfold rint. rewrite Hf. cbn [rintSF].
      destruct (Z.leb_spec 0 e) as [|_]; [lia|].
      assert (Hloc : located (F2R (Z.pos m) e)
                       (shr_record_of_loc (Z.pos m) loc_Exact) e).
      { split; [rewrite shr_m_shr_record_of_loc; lia|].
        rewrite shr_m_shr_record_of_loc, loc_of_shr_record_of_loc. reflexivity. }
      destruct (shr_located _ _ e (- e) Hloc) as [[HM Hin] He0].
      destruct (shr (shr_record_of_loc (Z.pos m) loc_Exact) e (- e)) as [mrs e'].
      cbn [fst snd] in *.
      assert (He' : e' = 0) by lia. clear He0. subst e'.
      set (M := shr_m mrs) in *. set (l := loc_of_shr_record mrs) in *.
      pose proof (round_nearest_even_bounds M l) as Hk.
      pose proof (inbetween_bounds _ _ _ _ Hin) as [Hlo Hhi].
      rewrite F2R_0 in Hlo, Hhi.
      assert (HMn : M <= n) by (apply le_IZR; lra).
      exists (round_nearest_even M l). split; [|reflexivity].
      split; [lia|].
      destruct (Z.eq_dec M n) as [HMeq|]; [|lia].
      assert (HMn' : IZR M = IZR n) by now rewrite HMeq.
      assert (Hx : F2R (Z.pos m) e = IZR M) by lra.
      destruct l as [|[| |]]; cbn [inbetween] in Hin;
        rewrite ?F2R_0, ?bpow_0 in Hin; cbn [round_nearest_even]; try lia; lra.
Qed.

End Integral.

(** ** Clipping into [0, 100] and rounding to one decimal *)

Section Scores.

Local Open Scope Z_scope.

Lemma is_nan_SF (x : float) :
  PrimFloat.is_nan x = match Prim2SF x with S754_nan => true | _ => false end.
Proof.
  unfold PrimFloat.is_nan. rewrite eqb_spec. unfold SFeqb.
  destruct (Prim2SF x) as [s|s| |s m e].
  - reflexivity.
  - now destruct s.
  - reflexivity.
  - now rewrite SFcompare_refl_finite.
Qed.

Lemma nonneg_eqb_refl (a : float) : nonneg a -> PrimFloat.eqb a a = true.
Proof.
  intros Ha. pose proof (is_nan_SF a) as H. unfold PrimFloat.is_nan in H.
  destruct Ha as [[Ha|(m & e & Ha)]|Ha]; rewrite Ha in H;
    now destruct (PrimFloat.eqb a a).
Qed.

(** A positive finite float plus anything but a NaN is not a NaN. *)
Lemma add_not_nan (b x : float) :
  finite_pos b -> PrimFloat.is_nan x = false -> PrimFloat.is_nan (b + x) = false.
Proof.
  intros (mb & eb & Hb) Hx. rewrite is_nan_SF in *. rewrite add_spec, Hb.
  destruct (Prim2SF x) as [s|s| |s m e]; try reflexivity; try discriminate.
  destruct (SFadd_finite_valid false s mb m eb e) as [_ Hn].
  unfold SF64add.
  destruct (SFadd prec emax (S754_finite false mb eb) (S754_finite s m e));
    congruence.
Qed.

Lemma thousand_finite_pos : finite_pos 1000.
Proof. exists 8796093022208000%positive, (-43). reflexivity. Qed.

Lemma B2R_1000 : B2R 1000 = 1000%R.
Proof.
  assert (H : Z2F 1000 = 1000%float) by (vm_compute; reflexivity).
  rewrite <- H. apply (Z2F_exact 1000). lia.
Qed.

Lemma ten_finite_pos : finite_pos 10.
Proof. exists 5629499534213120%positive, (-49). reflexivity. Qed.

Lemma power_of_ten_1 : power_of_ten 1 = 10%float.
Proof. vm_compute. reflexivity. Qed.

(** What [clip(0, 100)] leaves of a cell that is not a NaN: a zero, or a
    positive finite number that is at most 100. *)
Lemma clip_cell_cases (y : float) :
  PrimFloat.is_nan y = false ->
  Prim2SF (clip_cell 0 100 y) = S754_zero true
  \/ (fin_nn (clip_cell 0 100 y) /\ (B2R (clip_cell 0 100 y) <= 100)%R).
Proof.
  intros Hnan. unfold clip_cell. rewrite Hnan.
  destruct (PrimFloat.ltb y 0) eqn:H0.
  { right. split; [now left|]. rewrite (B2R_zero 0 false eq_refl). lra. }
  destruct (PrimFloat.ltb 100 y) eqn:H1.
  { right. split; [exact (finite_pos_fin_nn _ hundred_finite_pos)|].
    rewrite B2R_100. lra. }
  rewrite is_nan_SF in Hnan. rewrite ltb_spec in H0, H1.
  change (Prim2SF 0) with (S754_zero false) in H0.
  change (Prim2SF 100) with (S754_finite false 7036874417766400 (-46)) in H1.
  destruct (Prim2SF y) as [s|s| |s m e] eqn:Hy.
  - destruct s; [now left|]. right. split; [now left|].
    rewrite (B2R_zero y false Hy). lra.
  - destruct s; discriminate.
  - discriminate.
  - destruct s; [discriminate|]. right.
    assert (Hf : fin_nn y) by (right; now exists m, e).
    split; [exact Hf|]. rewrite <- B2R_100.
    apply leb_B2R; [exact Hf|exact (finite_pos_fin_nn _ hundred_finite_pos)|].
    rewrite leb_spec, Hy.
    change (Prim2SF 100) with (S754_finite false 7036874417766400 (-46)).
    now apply SFltb_false_SFleb.
Qed.

Lemma tenth_score (k : Z) : 0 <= k <= 1000 -> score (Z2F k / 10).
Proof.
  intros Hk.
  destruct (div_mono_l (Z2F k) (Z2F 1000) 10 ten_finite_pos
              (Z2F_nonneg k ltac:(lia)) (Z2F_nonneg 1000 ltac:(lia))
              (Z2F_mono k 1000 ltac:(lia))) as (Hle & Hn & _).
  split; [now apply nonneg_leb_zero|]. split.
  - unfold fle. assert (H : (Z2F 1000 / 10)%float = 100%float) by (vm_compute; reflexivity).
    now rewrite <- H.
  - exists k. split; [exact Hk|]. now apply nonneg_eqb_refl.
Qed.

Lemma round_cell_score (c : float) :
  Prim2SF c = S754_zero true \/ (fin_nn c /\ (B2R c <= 100)%R) ->
  score (round_cell 1 c).
Proof.
  unfold round_cell. rewrite power_of_ten_1. intros [Hz|[Hf Hle]].
  - assert (Hv : Prim2SF (rint (c * 10) / 10) = S754_zero true).
    { rewrite div_spec. unfold rint. rewrite mul_spec, Hz.
      change (Prim2SF 10) with (S754_finite false 5629499534213120 (-49)).
      reflexivity. }
    unfold score, one_decimal, fle, feq.
    split; [rewrite leb_spec, Hv; reflexivity|].
    split; [rewrite leb_spec, Hv; reflexivity|].
    exists 0. split; [lia|]. rewrite eqb_spec, Hv. reflexivity.
  - pose proof (mul_rounds c 10 Hf (finite_pos_fin_nn _ ten_finite_pos)) as Hm.
    rewrite B2R_10 in Hm.
    destruct (rounds_to_below _ (c * 10) 1000 Hm thousand_finite_pos
                ltac:(rewrite B2R_1000; lra)) as [Hft Ht].
    rewrite B2R_1000 in Ht.
    destruct (rint_small (c * 10) 1000 Hft Ht) as (k & Hk & ->).
    now apply tenth_score.
Qed.

(** A cell of the series: a positive finite base value plus a draw that is
    not a NaN, clipped and rounded, is a score. *)
Lemma cell_score (b x : float) :
  finite_pos b -> PrimFloat.is_nan x = false ->
  score (round_cell 1 (clip_cell 0 100 (b + x))).
Proof.
  intros Hb Hx. apply round_cell_score, clip_cell_cases. now apply add_not_nan.
Qed.

End Scores.

(** ** The baseline: its values *)

Section Ramp.

Local Open Scope Z_scope.

Lemma two_63_finite_pos : finite_pos two_63.
Proof. exists 4503599627370496%positive, 11. reflexivity. Qed.

Lemma two_68_finite_pos : finite_pos two_68.
Proof. exists 4503599627370496%positive, 16. reflexivity. Qed.

Lemma B2R_two_63 : B2R two_63 = bpow 63.
Proof.
  unfold B2R. change (Prim2SF two_63) with (S754_finite false 4503599627370496 11).
  cbn [SF2R cond_Zopp]. unfold F2R.
  change (Z.pos 4503599627370496) with (2 ^ 52). rewrite bpow_IZR by lia.
  rewrite <- bpow_plus. reflexivity.
Qed.

Lemma B2R_two_68 : B2R two_68 = bpow 68.
Proof.
  unfold B2R. change (Prim2SF two_68) with (S754_finite false 4503599627370496 16).
  cbn [SF2R cond_Zopp]. unfold F2R.
  change (Z.pos 4503599627370496) with (2 ^ 52). rewrite bpow_IZR by lia.
  rewrite <- bpow_plus. reflexivity.
Qed.

Lemma bpow_ge_1 (e : Z) : 0 <= e -> (1 <= bpow e)%R.
Proof. intros H. rewrite <- bpow_0. now apply bpow_le. Qed.

Lemma Z2F_small (z : Z) :
  0 <= z <= 2 ^ 63 -> fin_nn (Z2F z) /\ (B2R (Z2F z) <= bpow 63)%R.
Proof.
  intros Hz. rewrite <- B2R_two_63.
  apply (rounds_to_below (IZR z)); [now apply Z2F_rounds|exact two_63_finite_pos|].
  rewrite B2R_two_63, <- (bpow_IZR 63) by lia. apply IZR_le. lia.
Qed.

Lemma Z2F_1 : finite_pos (Z2F 1) /\ B2R (Z2F 1) = 1%R.
Proof. apply (Z2F_exact 1). lia. Qed.

Lemma Z2F_positive (z : Z) :
  1 <= z <= 2 ^ 63 -> finite_pos (Z2F z) /\ (1 <= B2R (Z2F z) <= bpow 63)%R.
Proof.
  intros Hz. destruct (Z2F_small z ltac:(lia)) as [Hf Hle].
  assert (H1 : (1 <= IZR z)%R) by (apply IZR_le; lia).
  assert (Hp : finite_pos (Z2F z)).
  { apply (fin_nn_positive (IZR z)); [apply Z2F_rounds; lia|exact Hf|].
    pose proof (bpow_le_1 (-1022) ltac:(lia)). lra. }
  split; [exact Hp|]. split; [|exact Hle].
  rewrite <- (proj2 Z2F_1).
  apply leb_B2R; [exact (finite_pos_fin_nn _ (proj1 Z2F_1))|exact Hf|].
  apply Z2F_mono. lia.
Qed.

Lemma twenty_five : (85 - 60)%float = 25%float.
Proof. vm_compute. reflexivity. Qed.

Lemma twenty_five_value : finite_pos 25 /\ B2R 25 = 25%R.
Proof.
  assert (H : Z2F 25 = 25%float) by (vm_compute; reflexivity).
  rewrite <- H. apply (Z2F_exact 25). lia.
Qed.

Lemma sixty_value : finite_pos 60 /\ B2R 60 = 60%R.
Proof.
  assert (H : Z2F 60 = 60%float) by (vm_compute; reflexivity).
  rewrite <- H. apply (Z2F_exact 60). lia.
Qed.

Lemma eighty_five_finite_pos : finite_pos 85.
Proof.
  assert (H : Z2F 85 = 85%float) by (vm_compute; reflexivity).
  rewrite <- H. apply (Z2F_exact 85). lia.
Qed.

(** The step of the ramp is a positive number, at most 25. *)
Lemma step_value (d : Z) :
  1 <= d <= 2 ^ 63 ->
  finite_pos (25 / Z2F d) /\ (B2R (25 / Z2F d) <= 25)%R.
Proof.
  intros Hd. destruct (Z2F_positive d Hd) as (Hp & H1 & H63).
  destruct twenty_five_value as [H25 HB25].
  pose proof (div_rounds 25 (Z2F d) (finite_pos_fin_nn _ H25) Hp) as Hr.
  rewrite HB25 in Hr.
  set (B := B2R (Z2F d)) in *.
  assert (HiB : (0 < / B)%R) by (apply Rinv_0_lt_compat; lra).
  assert (HBi : (B * / B = 1)%R) by (apply Rinv_r; lra).
  assert (Hup : (25 / B <= 25)%R) by (unfold Rdiv; nra).
  assert (Hlo : (bpow (-1022) <= 25 / B)%R).
  { assert (Hb : (bpow (-1022) * bpow 63 <= 1)%R).
    { rewrite <- bpow_plus. apply bpow_le_1. lia. }
    pose proof (bpow_gt_0 (-1022)). unfold Rdiv. nra. }
  destruct (rounds_to_below _ (25 / Z2F d) 25 Hr H25 ltac:(lra)) as [Hf Hle].
  split; [now apply (fin_nn_positive (25 / B))|]. lra.
Qed.

Lemma step_not_zero (d : Z) :
  1 <= d <= 2 ^ 63 -> PrimFloat.eqb (25 / Z2F d) 0 = false.
Proof.
  intros Hd. destruct (proj1 (step_value d Hd)) as (m & e & H).
  rewrite eqb_spec, H. reflexivity.
Qed.

(** A sample of the ramp is a positive finite number. *)
Lemma ramp_value (i d : Z) :
  0 <= i <= 2 ^ 63 -> 1 <= d <= 2 ^ 63 ->
  finite_pos (Z2F i * (25 / Z2F d) + 60).
Proof.
  intros Hi Hd. destruct (Z2F_small i Hi) as [Hfi Hi63].
  destruct (step_value d Hd) as [Hps Hs25].
  pose proof (finite_pos_B2R _ Hps) as Hs0.
  pose proof (fin_nn_B2R _ Hfi) as Hi0.
  destruct sixty_value as [H60 HB60].
  pose proof (mul_rounds (Z2F i) (25 / Z2F d) Hfi (finite_pos_fin_nn _ Hps)) as Hm.
  pose proof (bpow_gt_0 63) as H63.
  assert (H68 : (bpow 68 = bpow 63 * 32)%R).
  { replace 68 with (63 + 5) by lia. rewrite bpow_plus.
    rewrite <- (bpow_IZR 5) by lia. reflexivity. }
  assert (H1010 : (bpow 68 + 60 <= bpow 1010)%R).
  { replace 1010 with (68 + 942) by lia. rewrite bpow_plus.
    assert (H942 : (bpow 7 <= bpow 942)%R) by (apply bpow_le; lia).
    rewrite <- (bpow_IZR 7) in H942 by lia.
    change (IZR (2 ^ 7)) with 128%R in H942.
    pose proof (bpow_ge_1 63 ltac:(lia)). nra. }
  destruct (rounds_to_below _ _ two_68 Hm two_68_finite_pos
              ltac:(rewrite B2R_two_68, H68; nra)) as [Hft Ht].
  rewrite B2R_two_68 in Ht.
  pose proof (fin_nn_B2R _ Hft) as Ht0.
  pose proof (add_rounds _ 60 Hft (finite_pos_fin_nn _ H60)) as Ha.
  rewrite HB60 in Ha.
  destruct (rounds_to_below _ _ two_1010 Ha two_1010_finite_pos
              ltac:(rewrite B2R_two_1010; lra)) as [Hfa _].
  apply (fin_nn_positive _ _ Ha Hfa).
  pose proof (bpow_le_1 (-1022) ltac:(lia)). lra.
Qed.

Lemma stated_baseline_value (periods i : Z) :
  1 <= periods < 2 ^ 63 -> 0 <= i < periods ->
  finite_pos (stated_baseline periods i).
Proof.
  intros Hp Hi. unfold stated_baseline.
  destruct (Z.eqb_spec periods 1) as [|Hne]; [exact (proj1 sixty_value)|].
  destruct (i =? periods - 1); [exact eighty_five_finite_pos|].
  rewrite twenty_five. apply ramp_value; lia.
Qed.

End Ramp.

Section StepsOfTheCode.

Context {L : Libraries}.

Local Open Scope Z_scope.

Lemma set_last_app (l : list float) (a stop : float) :
  Numpy.set_last (l ++ [a]) stop = (l ++ [stop])%list.
Proof.
  unfold Numpy.set_last. destruct (l ++ [a])%list as [|b t] eqn:Heq.
  - now destruct l.
  - rewrite <- Heq. now rewrite removelast_last.
Qed.

(** [np.linspace(60, 85, periods)] holds the stated baseline. *)
Lemma linspace_fill_ramp (periods : Z) :
  1 <= periods < 2 ^ 63 ->
  Numpy.linspace_fill 60 85 periods
  = map (fun i => stated_baseline periods (Z.of_nat i)) (seq 0 (Z.to_nat periods)).
Proof.
  intros Hp. destruct (Z.eq_dec periods 1) as [->|Hne].
  { vm_compute. reflexivity. }
  unfold Numpy.linspace_fill, Numpy.arange.
  destruct (Z.ltb_spec 0 (periods - 1)) as [_|]; [|lia].
  destruct (Z.ltb_spec 1 periods) as [_|]; [|lia].
  rewrite twenty_five, step_not_zero by lia.
  rewrite !map_map.
  destruct (Z.to_nat periods) as [|n] eqn:Hn; [lia|].
  rewrite seq_S, !map_app. cbn [map Nat.add]. rewrite set_last_app.
  f_equal.
  - apply map_ext_in. intros i Hi. apply in_seq in Hi.
    unfold stated_baseline.
    destruct (Z.eqb_spec periods 1); [lia|].
    destruct (Z.eqb_spec (Z.of_nat i) (periods - 1)); [lia|].
    now rewrite twenty_five.
  - unfold stated_baseline.
    destruct (Z.eqb_spec periods 1); [lia|].
    destruct (Z.eqb_spec (Z.of_nat n) (periods - 1)); [reflexivity|lia].
Qed.

Lemma skip_add (loc scale : float) (a b : nat) (s : rng_state) :
  skip loc scale (a + b) s = skip loc scale b (skip loc scale a s).
Proof.
  revert s. induction a as [|a IH]; intros s; [reflexivity|].
  cbn [Nat.add skip]. apply IH.
Qed.

(** A row of draws holds the next draws of the generator, in order. *)
Lemma draw_row_spec (loc scale : float) (n : nat) (s : rng_state) :
  Numpy.draw_row loc scale n s
  = (map (fun j => fst (normal_draw loc scale (skip loc scale j s))) (seq 0 n),
     skip loc scale n s).
Proof.
  revert s. induction n as [|n IH]; intros s; [reflexivity|].
  cbn [Numpy.draw_row]. destruct (normal_draw loc scale s) as [x s1] eqn:Hd.
  rewrite IH. cbn [seq map skip]. rewrite Hd. cbn [fst snd].
  f_equal. f_equal. rewrite <- seq_shift, map_map.
  apply map_ext. intros j. cbn [skip]. now rewrite Hd.
Qed.

(** The array of draws is filled row by row: cell [(i, j)] of an array with
    [ncols] columns holds draw number [i * ncols + j]. *)
Lemma draw_rows_spec (loc scale : float) (nrows ncols : nat) (s : rng_state) :
  Numpy.draw_rows loc scale nrows ncols s
  = (map (fun i =>
            map (fun j => fst (normal_draw loc scale
                                 (skip loc scale (i * ncols + j) s)))
                (seq 0 ncols))
         (seq 0 nrows),
     skip loc scale (nrows * ncols) s).
Proof.
  revert s. induction nrows as [|n IH]; intros s; [reflexivity|].
  cbn [Numpy.draw_rows]. rewrite draw_row_spec, IH. cbn [seq map].
  f_equal.
  - f_equal. rewrite <- seq_shift, map_map. apply map_ext. intros i.
    apply map_ext. intros j. rewrite <- skip_add. cbn [Nat.mul].
    now rewrite Nat.add_assoc.
  - rewrite <- skip_add. reflexivity.
Qed.

Lemma combine_map_same {A B C : Type} (f : A -> B) (g : A -> C) (l : list A) :
  combine (map f l) (map g l) = map (fun a => (f a, g a)) l.
Proof. induction l as [|a l IH]; [reflexivity|]. cbn. now rewrite IH. Qed.

(** [clip(0, 100)] is the stated clipping: a NaN is below and above
    nothing. *)
Lemma clip_cell_stated (x : float) : clip_cell 0 100 x = stated_clip x.
Proof.
  unfold clip_cell, stated_clip. destruct (PrimFloat.is_nan x) eqn:Hn; [|reflexivity].
  rewrite is_nan_SF in Hn. rewrite !ltb_spec.
  destruct (Prim2SF x); try discriminate. reflexivity.
Qed.

Lemma round_cell_stated (x : float) : round_cell 1 x = stated_round x.
Proof. unfold round_cell, stated_round. now rewrite power_of_ten_1. Qed.

(** The cells the code computes on whole arrays are the stated cells. *)
Lemma series_rows_stated (seed periods : Z) :
  1 <= periods < 2 ^ 63 -> series_rows seed periods = stated_rows seed periods.
Proof.
  intros Hp. unfold series_rows, stated_rows, Numpy.add_column.
  rewrite linspace_fill_ramp by assumption.
  rewrite draw_rows_spec. cbn [fst].
  rewrite combine_map_same, !map_map.
  apply map_ext. intros i. rewrite !map_map. apply map_ext. intros j.
  unfold stated_cell, stated_noise.
  now rewrite clip_cell_stated, round_cell_stated.
Qed.

End StepsOfTheCode.

(** ** The baseline ramps from 60 to 85 *)

Section RampOrder.

Local Open Scope Z_scope.






Lemma eighty_five_value : B2R 85 = 85%R.
Proof.
  assert (H : Z2F 85 = 85%float) by (vm_compute; reflexivity).
  rewrite <- H. apply (Z2F_exact 85). lia.
Qed.




Lemma stated_baseline_end (periods : Z) :
  1 < periods -> stated_baseline periods (periods - 1) = 85%float.
Proof.
  intros Hp. unfold stated_baseline.
  destruct (Z.eqb_spec periods 1); [lia|]. now rewrite Z.eqb_refl.
Qed.


End RampOrder.

(** ** The generated series: its steps and its scores *)

Section SeriesValues.

Context {L : Libraries}.

Local Open Scope Z_scope.


Lemma stated_rows_scores (seed periods : Z) :
  draws_are_numbers -> 1 <= periods < 2 ^ 63 ->
  Forall (Forall score) (stated_rows seed periods).
Proof.
  intros Hd Hp. unfold stated_rows.
  apply Forall_forall. intros r Hr. apply in_map_iff in Hr.
  destruct Hr as (i & <- & Hi). apply in_seq in Hi.
  apply Forall_forall. intros v Hv. apply in_map_iff in Hv.
  destruct Hv as (j & <- & _).
  unfold stated_cell. rewrite <- clip_cell_stated, <- round_cell_stated.
  apply cell_score; [apply stated_baseline_value; lia|apply Hd].
Qed.


End SeriesValues.

Lemma toy_draws_are_numbers : draws_are_numbers (L := Toy.toy_libraries).
Proof.
  intros s. unfold normal_draw, Toy.toy_libraries, Toy.toy_draw, Toy.toy_gauss.
  cbn [fst].
  assert (H : s mod 5 = 0 \/ s mod 5 = 1 \/ s mod 5 = 2 \/ s mod 5 = 3 \/ s mod 5 = 4)
    by (pose proof (Z.mod_pos_bound s 5 ltac:(lia)); lia).
  destruct H as [H|[H|[H|[H|H]]]]; rewrite H; vm_compute; reflexivity.
Qed.



(** * Further properties *)

(** ** The generator: arguments it refuses, and the empty series *)

Section GeneratorEdges.

Context {L : Libraries}.

Local Open Scope Z_scope.

Lemma not_cached (seed periods : Z) (w : world) :
  cache_ok w -> ~ (valid_seed seed /\ 0 <= periods) ->
  lookup (seed, periods) (cache w) = None.
Proof.
  intros Hok Hbad. destruct (lookup (seed, periods) (cache w)) as [e|] eqn:Hl;
    [|reflexivity].
  destruct (cached_frame w seed periods e Hok Hl) as (Hs & Hp & _).
  exfalso. apply Hbad. split; [exact Hs|lia].
Qed.

Lemma cache_data_uncached (seed periods : Z) (w : world) :
  lookup (seed, periods) (cache w) = None ->
  generate_time_series seed periods w
  = match generate_time_series_wrapped seed periods (tick w) with
    | (Ok df, w1) =>
        (Ok df,
         mkworld (clock w1) (ticks w1) (rng w1)
           (((seed, periods),
             mkentry df (monotonic (clock w (ticks w)) + 60 * 10)) :: cache w1))
    | (Raise e, w1) => (Raise e, w1)
    end.
Proof.
  intros Hl. unfold generate_time_series, cache_data.
  unfold bind at 1, read_clock at 1. fold (tick w).
  unfold bind at 1, get_cache at 1. cbn [cache tick]. rewrite Hl.
  unfold bind at 1. fold (tick w).
  destruct (generate_time_series_wrapped seed periods (tick w)) as [[df|e] w1];
    reflexivity.
Qed.

(** A seed outside [0, 2^32) is refused with a ValueError; the call has read
    the clock once and changed neither the generator nor the cache. *)
Theorem bad_seed_raises (seed periods : Z) (w : world) :
  cache_ok w -> ~ valid_seed seed ->
  generate_time_series seed periods w = (Raise ValueError, tick w).
Proof.
  intros Hok Hbad.
  rewrite cache_data_uncached by (apply not_cached; tauto).
  rewrite generate_time_series_wrapped_eq.
  destruct ((0 <=? seed) && (seed <? 2 ^ 32)) eqn:Hs; [|reflexivity].
  exfalso. apply Hbad. apply andb_true_iff in Hs. unfold valid_seed. lia.
Qed.

(** A negative period count is refused with a ValueError, after the global
    generator has been seeded: the call leaves it in the state of the seed,
    and the cache as it was. *)
Theorem negative_periods_raise (seed periods : Z) (w : world) :
  cache_ok w -> valid_seed seed -> periods < 0 ->
  generate_time_series seed periods w
  = (Raise ValueError,
     mkworld (clock w) (S (ticks w)) (seed_state seed) (cache w)).
Proof.
  intros Hok [Hs1 Hs2] Hp.
  rewrite cache_data_uncached by (apply not_cached; [exact Hok|lia]).
  rewrite generate_time_series_wrapped_eq.
  apply Z.leb_le in Hs1. apply Z.ltb_lt in Hs2. rewrite Hs1, Hs2. cbn [andb].
  apply Z.ltb_lt in Hp. rewrite Hp. reflexivity.
Qed.

Lemma series_rows_width (seed periods : Z) :
  Forall (fun r => List.length r = 3%nat) (series_rows seed periods).
Proof.
  unfold series_rows.
  pose proof (add_column_width 3 (Numpy.linspace_fill 60 85 periods) _
                (draw_rows_width 0 4 (Z.to_nat periods) 3 (seed_state seed))) as H.
  rewrite Forall_forall in *. intros r Hr.
  apply in_map_iff in Hr. destruct Hr as (r1 & <- & Hr1).
  apply in_map_iff in Hr1. destruct Hr1 as (r2 & <- & Hr2).
  rewrite !length_map. now apply H.
Qed.


End GeneratorEdges.

Lemma bad_seed_raises_witness :
  generate_time_series (-1) 12 (Toy.toy_world (mkdate 2026 11 3))
  = (Raise ValueError, tick (Toy.toy_world (mkdate 2026 11 3))).
Proof.
  apply (bad_seed_raises (-1) 12 (Toy.toy_world (mkdate 2026 11 3))).
  - apply empty_cache_ok. reflexivity.
  - unfold valid_seed. lia.
Defined.

Lemma negative_periods_raise_witness :
  generate_time_series 42 (-3) (Toy.toy_world (mkdate 2026 11 3))
  = (Raise ValueError,
     mkworld (clock (Toy.toy_world (mkdate 2026 11 3))) 1
             (seed_state 42) []).
Proof.
  apply (negative_periods_raise 42 (-3) (Toy.toy_world (mkdate 2026 11 3))).
  - apply empty_cache_ok. reflexivity.
  - unfold valid_seed. lia.
  - lia.
Defined.


(** ** The cache of the generator *)

Section CacheBehaviour.

Context {L : Libraries}.

Local Open Scope Z_scope.

Lemma lookup_same (seed periods : Z) (e : cache_entry)
  (c : list ((Z * Z) * cache_entry)) :
  lookup (seed, periods) (((seed, periods), e) :: c) = Some e.
Proof. rewrite lookup_cons. cbn [fst snd]. now rewrite !Z.eqb_refl. Qed.






End CacheBehaviour.





(** ** The row dates: consecutive months *)

Section ConsecutiveMonths.

Context {L : Libraries}.

Local Open Scope Z_scope.


End ConsecutiveMonths.


(** ** Scores are fixed by the clipping and the rounding *)

Section FixedScores.

Context {L : Libraries}.

Local Open Scope Z_scope.





(** What the rounding returns, exactly: a negative zero or [k / 10]. *)
Lemma round_cell_tenths (c : float) :
  Prim2SF c = S754_zero true \/ (fin_nn c /\ (B2R c <= 100)%R) ->
  Prim2SF (round_cell 1 c) = S754_zero true
  \/ exists k, 0 <= k <= 1000 /\ round_cell 1 c = (Z2F k / 10)%float.
Proof.
  unfold round_cell. rewrite power_of_ten_1. intros [Hz|[Hf Hle]].
  - left. rewrite div_spec. unfold rint. rewrite mul_spec, Hz.
    change (Prim2SF 10) with (S754_finite false 5629499534213120 (-49)).
    reflexivity.
  - right.
    pose proof (mul_rounds c 10 Hf (finite_pos_fin_nn _ ten_finite_pos)) as Hm.
    rewrite B2R_10 in Hm.
    destruct (rounds_to_below _ (c * 10) 1000 Hm thousand_finite_pos
                ltac:(rewrite B2R_1000; lra)) as [Hft Ht].
    rewrite B2R_1000 in Ht.
    destruct (rint_small (c * 10) 1000 Hft Ht) as (k & Hk & ->).
    now exists k.
Qed.





End FixedScores.


(** ** The audit handler: what it shows and what it prints *)

Section AuditContents.

Context {L : Libraries}.

Local Open Scope Z_scope.

(** A successful call of the generator reads the clock once when it is
    served from the cache and twice when it computes. *)
Lemma generate_time_series_readings (seed periods : Z) (w : world) :
  valid_seed seed -> 0 <= periods < 2 ^ 63 -> valid_clock w -> cache_ok w ->
  exists d w',
    generate_time_series seed periods w = (Ok (series_frame seed periods d), w')
    /\ clock w' = clock w /\ cache_ok w'
    /\ (ticks w' = S (ticks w) \/ ticks w' = S (S (ticks w))).
Proof.
  intros Hs Hp Hc Hok.
  destruct (generate_time_series_run seed periods w Hs Hp Hc Hok)
    as (d & w' & _ & Hrun & Hclk & Hok').
  exists d, w'. split; [exact Hrun|]. split; [exact Hclk|]. split; [exact Hok'|].
  destruct (lookup (seed, periods) (cache w)) as [e|] eqn:Hl.
  - destruct (Z.lt_ge_cases (monotonic (clock w (ticks w))) (expires e)) as [Hlive|Hdead].
    + rewrite (generate_time_series_hit seed periods w e Hl Hlive) in Hrun.
      inversion Hrun. now left.
    + rewrite generate_time_series_miss in Hrun; try assumption.
      * inversion Hrun. now right.
      * intros e' He'. rewrite Hl in He'. inversion He'. subst e'. lia.
  - rewrite generate_time_series_miss in Hrun; try assumption.
    + inversion Hrun. now right.
    + intros e' He'. rewrite Hl in He'. discriminate.
Qed.

(** The handler, step by step: with [n] the number of the clock reading
    that stamps the summary, the report is rendered from the summary lines
    as shown, with the creation stamp of reading [n + 1] and the timestamp
    of reading [n + 2]. *)
Lemma run_simulated_audit_steps (org : string) (w : world) :
  valid_clock w -> cache_ok w ->
  exists v w' n,
    run_simulated_audit org w = (Ok v, w')
    /\ (n = (2 + ticks w)%nat \/ n = (3 + ticks w)%nat)
    /\ audit_df v = audit_scores
    /\ summary v = (("Organization: " ++ org)%string
                    :: ("Generated: " ++ strftime (utc (clock w n)))%string
                    :: map score_line (audit_df v))%list
    /\ pdf_bytes v
       = SaveToFile (report_document org (summary v)
                       (utc (clock w (1 + n)))
                       (strftime (utc (clock w (2 + n)))))
    /\ file_name v = (org ++ "_earth3_audit.pdf")%string
    /\ ticks w' = (3 + n)%nat.
Proof.
  intros Hc Hok.
  assert (Hct : valid_clock (tick w)) by (apply (valid_clock_same w); [reflexivity|exact Hc]).
  assert (Hokt : cache_ok (tick w)) by exact Hok.
  destruct (generate_time_series_readings 42 default_periods (tick w))
    as (d & w1 & Hrun & Hclk & Hok1 & Hticks);
    [unfold valid_seed; lia|unfold default_periods; lia|assumption|assumption|].
  cbn [tick ticks clock] in Hticks, Hclk.
  unfold run_simulated_audit.
  unfold bind at 1, sleep, bind at 1, read_clock at 1, ret at 1. fold (tick w).
  unfold bind at 1. rewrite Hrun.
  rewrite iloc_last_some
    by (cbn [rows series_frame]; apply series_rows_nonempty; unfold default_periods; lia).
  unfold bind at 1, ret at 1.
  unfold bind at 1, utcnow at 1, bind at 1, read_clock at 1, ret at 1.
  unfold bind at 1. rewrite make_pdf_bytes_run. unfold ret.
  eexists _, _, (ticks w1).
  split; [reflexivity|].
  cbn [audit_df chart summary file_name pdf_bytes rows columns series_frame
       tick ticks clock].
  rewrite Hclk.
  split; [destruct Hticks as [->| ->]; [now left|now right]|].
  split; [reflexivity|].
  assert (Hsum : map (fun '(k, v) => (k ++ ": " ++ float_str v)%string)
                   (combine ["Governance"; "ESG"; "Finance"]%string
                      (last (series_rows 42 default_periods) []))
                 = map score_line
                     (combine ["Governance"; "ESG"; "Finance"]%string
                        (last (series_rows 42 default_periods) []))).
  { apply map_ext. intros [k v]. reflexivity. }
  cbn [app]. rewrite Hsum.
  split; [reflexivity|]. split; [reflexivity|]. split; reflexivity.
Qed.

(** The snapshot the audit offers for download is the report of exactly
    the summary it has built: one page that shows the title with the
    organisation name, the timestamp of the rendering and then the summary
    lines, which are the organisation line, the timestamp of the audit and one
    line per score.  The two timestamps come from clock readings two apart.
    The file is named after the organisation. *)
Theorem audit_report_carries_summary (org : string) (w : world) :
  valid_clock w -> cache_ok w ->
  exists v w' n doc,
    run_simulated_audit org w = (Ok v, w')
    /\ (n = (2 + ticks w)%nat \/ n = (3 + ticks w)%nat)
    /\ summary v = (("Organization: " ++ org)%string
                    :: ("Generated: " ++ strftime (utc (clock w n)))%string
                    :: map score_line (audit_df v))%list
    /\ pdf_bytes v = SaveToFile doc
    /\ map page_strings (doc_pages doc)
       = [(report_title org
             :: ("Generated: " ++ strftime (utc (clock w (2 + n))))%string
             :: summary v)%list]
    /\ file_name v = (org ++ "_earth3_audit.pdf")%string.
Proof.
  intros Hc Hok.
  destruct (run_simulated_audit_steps org w Hc Hok)
    as (v & w' & n & Hrun & Hn & _ & Hsum & Hpdf & Hfile & _).
  exists v, w', n, (report_document org (summary v) (utc (clock w (1 + n)))
                      (strftime (utc (clock w (2 + n))))).
  split; [exact Hrun|]. split; [exact Hn|]. split; [exact Hsum|].
  split; [exact Hpdf|]. split; [|exact Hfile].
  cbn [doc_pages report_document]. unfold report_page, page_strings.
  cbn [map flat_map op_strings text_lines app]. now rewrite app_nil_r.
Qed.

Lemma last_in_rows {A : Type} (P : list A -> Prop) (l : list (list A)) :
  l <> [] -> Forall P l -> P (last l []).
Proof.
  intros Hne Hall. rewrite Forall_forall in Hall. apply Hall.
  destruct l as [|a l]; [congruence|].
  apply (exists_last) in Hne. destruct Hne as (l' & x & Hl).
  rewrite Hl, last_last. apply in_or_app. right. now left.
Qed.

(** The table of the audit has three rows, Governance, ESG and Finance in
    this order, and every score in it lies between 0 and 100 and equals
    [k / 10] for an integer [k]. *)
Theorem audit_table_scores (org : string) (w : world) :
  draws_are_numbers -> valid_clock w -> cache_ok w ->
  exists v w',
    run_simulated_audit org w = (Ok v, w')
    /\ map fst (audit_df v) = ["Governance"; "ESG"; "Finance"]%string
    /\ Forall score (map snd (audit_df v)).
Proof.
  intros Hd Hc Hok.
  destruct (run_simulated_audit_steps org w Hc Hok)
    as (v & w' & n & Hrun & _ & Hdf & _).
  exists v, w'. split; [exact Hrun|]. rewrite Hdf. unfold audit_scores.
  assert (Hne : series_rows 42 default_periods <> [])
    by (apply series_rows_nonempty; unfold default_periods; lia).
  pose proof (last_in_rows _ _ Hne (series_rows_width 42 default_periods)) as Hw.
  assert (Hsc : Forall score (last (series_rows 42 default_periods) [])).
  { apply (last_in_rows (Forall score) _ Hne).
    rewrite series_rows_stated by (unfold default_periods; lia).
    apply stated_rows_scores; [exact Hd|unfold default_periods; lia]. }
  destruct (last (series_rows 42 default_periods) []) as [|a [|b [|c [|x r]]]];
    try discriminate Hw.
  cbn [combine map fst snd]. split; [reflexivity|exact Hsc].
Qed.

(** The handler never raises; it leaves a cache that holds only frames the
    generator returned, among them, under seed 42 and 12 periods, the very
    frame it has charted. *)
Theorem audit_keeps_cache_ok (org : string) (w : world) :
  valid_clock w -> cache_ok w ->
  exists v w',
    run_simulated_audit org w = (Ok v, w')
    /\ clock w' = clock w /\ cache_ok w'
    /\ exists e, lookup (42, default_periods) (cache w') = Some e
                 /\ cached e = chart v.
Proof.
  intros Hc Hok.
  destruct (run_simulated_audit_run org w Hc Hok)
    as (v & w' & now & Hrun & _ & Hrows & _ & _ & Hclk & Hok').
  exists v, w'. split; [exact Hrun|]. split; [exact Hclk|]. split; [exact Hok'|].
  (* the entry of the generator's call is still there *)
  assert (Hct : valid_clock (tick w)) by (apply (valid_clock_same w); [reflexivity|exact Hc]).
  revert Hrun. unfold run_simulated_audit.
  unfold bind at 1, sleep, bind at 1, read_clock at 1, ret at 1. fold (tick w).
  unfold bind at 1.
  destruct (lookup (42, default_periods) (cache (tick w))) as [e|] eqn:Hl.
  - destruct (Z.lt_ge_cases (monotonic (clock (tick w) (ticks (tick w)))) (expires e))
      as [Hlive|Hdead].
    + rewrite (generate_time_series_hit 42 default_periods (tick w) e Hl Hlive).
      destruct (cached_frame (tick w) 42 default_periods e Hok Hl) as (_ & _ & d & _ & Hd).
      rewrite Hd.
      rewrite iloc_last_some
        by (cbn [rows series_frame]; apply series_rows_nonempty; unfold default_periods; lia).
      unfold bind at 1, ret at 1.
      unfold bind at 1, utcnow at 1, bind at 1, read_clock at 1, ret at 1.
      unfold bind at 1. rewrite make_pdf_bytes_run. unfold ret.
      intros Hrun. inversion Hrun. subst v w'. clear Hrun.
      exists e. cbn [cache tick chart rows series_frame] in *.
      split; [exact Hl|exact Hd].
    + rewrite generate_time_series_miss;
        [|unfold valid_seed; lia|unfold default_periods; lia|exact Hct
         |intros e' He'; rewrite Hl in He'; inversion He'; subst e'; lia].
      rewrite iloc_last_some
        by (cbn [rows series_frame]; apply series_rows_nonempty; unfold default_periods; lia).
      unfold bind at 1, ret at 1.
      unfold bind at 1, utcnow at 1, bind at 1, read_clock at 1, ret at 1.
      unfold bind at 1. rewrite make_pdf_bytes_run. unfold ret.
      intros Hrun. inversion Hrun. subst v w'. clear Hrun.
      eexists. cbn [cache tick chart]. split; [apply lookup_same|reflexivity].
  - rewrite generate_time_series_miss;
      [|unfold valid_seed; lia|unfold default_periods; lia|exact Hct
       |intros e' He'; rewrite Hl in He'; discriminate].
    rewrite iloc_last_some
      by (cbn [rows series_frame]; apply series_rows_nonempty; unfold default_periods; lia).
    unfold bind at 1, ret at 1.
    unfold bind at 1, utcnow at 1, bind at 1, read_clock at 1, ret at 1.
    unfold bind at 1. rewrite make_pdf_bytes_run. unfold ret.
    intros Hrun. inversion Hrun. subst v w'. clear Hrun.
    eexists. cbn [cache tick chart]. split; [apply lookup_same|reflexivity].
Qed.

End AuditContents.

Lemma audit_report_carries_summary_witness :
  exists v w' n doc,
    run_simulated_audit "Acme Global" (Toy.toy_world (mkdate 2026 11 3)) = (Ok v, w')
    /\ (n = (2 + ticks (Toy.toy_world (mkdate 2026 11 3)))%nat
        \/ n = (3 + ticks (Toy.toy_world (mkdate 2026 11 3)))%nat)
    /\ summary v
       = ("Organization: Acme Global"%string
          :: ("Generated: "
              ++ strftime (utc (clock (Toy.toy_world (mkdate 2026 11 3)) n)))%string
          :: map (score_line (L := Toy.toy_libraries)) (audit_df v))%list
    /\ pdf_bytes v = @SaveToFile Toy.toy_libraries doc
    /\ map page_strings (doc_pages doc)
       = [(report_title "Acme Global"
             :: ("Generated: "
                 ++ strftime (utc (clock (Toy.toy_world (mkdate 2026 11 3)) (2 + n))))%string
             :: summary v)%list]
    /\ file_name v = "Acme Global_earth3_audit.pdf"%string.
Proof.
  apply (audit_report_carries_summary "Acme Global" (Toy.toy_world (mkdate 2026 11 3))).
  - apply toy_clock_valid. unfold valid_date. vm_compute. intuition discriminate.
  - apply empty_cache_ok. reflexivity.
Defined.

Lemma audit_table_scores_witness :
  exists v w',
    run_simulated_audit "Acme Global" (Toy.toy_world (mkdate 2026 11 3)) = (Ok v, w')
    /\ map fst (audit_df v) = ["Governance"; "ESG"; "Finance"]%string
    /\ Forall score (map snd (audit_df v)).
Proof.
  apply (audit_table_scores "Acme Global" (Toy.toy_world (mkdate 2026 11 3))).
  - exact toy_draws_are_numbers.
  - apply toy_clock_valid. unfold valid_date. vm_compute. intuition discriminate.
  - apply empty_cache_ok. reflexivity.
Defined.

Lemma audit_keeps_cache_ok_witness :
  exists v w',
    run_simulated_audit "Acme Global" (Toy.toy_world (mkdate 2026 11 3)) = (Ok v, w')
    /\ clock w' = clock (Toy.toy_world (mkdate 2026 11 3)) /\ cache_ok w'
    /\ exists e, lookup (42, default_periods) (cache w') = Some e
                 /\ cached e = chart v.
Proof.
  apply (audit_keeps_cache_ok "Acme Global" (Toy.toy_world (mkdate 2026 11 3))).
  - apply toy_clock_valid. unfold valid_date. vm_compute. intuition discriminate.
  - apply empty_cache_ok. reflexivity.
Defined.

(** ** The impact simulation: order, and what the page shows *)

Section ImpactOrder.

Local Open Scope Z_scope.

Lemma mul_mono (a b c d : float) :
  fin_nn a -> fin_nn b -> fin_nn c -> fin_nn d ->
  PrimFloat.leb a c = true -> PrimFloat.leb b d = true ->
  PrimFloat.leb (a * b) (c * d) = true /\ nonneg (a * b) /\ nonneg (c * d).
Proof.
  intros Ha Hb Hc Hd Hac Hbd.
  pose proof (mul_rounds a b Ha Hb) as H1. pose proof (mul_rounds c d Hc Hd) as H2.
  apply (leb_B2R a c Ha Hc) in Hac. apply (leb_B2R b d Hb Hd) in Hbd.
  pose proof (fin_nn_B2R a Ha). pose proof (fin_nn_B2R b Hb).
  split; [apply (leb_of_rounds _ _ _ _ H1 H2); nra|].
  split; [exact (rounds_to_nonneg _ _ H1)|exact (rounds_to_nonneg _ _ H2)].
Qed.

Lemma add_mono (a b c d : float) :
  fin_nn a -> fin_nn c -> nonneg b -> nonneg d ->
  PrimFloat.leb a c = true -> PrimFloat.leb b d = true ->
  PrimFloat.leb (a + b) (c + d) = true.
Proof.
  intros Ha Hc Hb Hd Hac Hbd.
  destruct Hd as [Hd|Hdinf].
  - destruct Hb as [Hb|Hbinf];
      [|rewrite (leb_infinity_fin_nn b d Hbinf Hd) in Hbd; discriminate].
    apply (leb_B2R a c Ha Hc) in Hac. apply (leb_B2R b d Hb Hd) in Hbd.
    apply (leb_of_rounds _ _ _ _ (add_rounds a b Ha Hb) (add_rounds c d Hc Hd)). lra.
  - destruct (add_mono_r a b d Ha Hb (or_intror Hdinf) Hbd) as (_ & Hn & _).
    apply leb_nonneg_infinity; [exact Hn|].
    rewrite add_spec, Hdinf.
    destruct Hc as [Hc|(m & e & Hc)]; rewrite Hc; reflexivity.
Qed.

(** A larger base revenue and a larger percentage give an uplift and a
    projected revenue that are not smaller. *)
Theorem impact_monotone (r1 r2 : float) (pct1 pct2 : Z) :
  PrimFloat.is_finite r1 = true -> PrimFloat.is_finite r2 = true ->
  PrimFloat.leb 10 r1 = true -> PrimFloat.leb r1 r2 = true ->
  0 <= pct1 <= pct2 -> pct2 <= 50 ->
  PrimFloat.leb (uplift r1 pct1) (uplift r2 pct2) = true
  /\ PrimFloat.leb (projected r1 pct1) (projected r2 pct2) = true.
Proof.
  intros Hf1 Hf2 H10 H12 Hp Hp2.
  pose proof (base_revenue_finite_pos r1 Hf1 H10) as Hr1.
  assert (Hr2 : finite_pos r2).
  { destruct Hr1 as (m & e & Hr1). exact (leb_positive_finite r1 r2 m e Hr1 H12 Hf2). }
  destruct (Z2F_small pct1 ltac:(lia)) as [Hz1 _].
  destruct (Z2F_small pct2 ltac:(lia)) as [Hz2 _].
  destruct (mul_mono r1 (Z2F pct1) r2 (Z2F pct2)
              (finite_pos_fin_nn _ Hr1) Hz1 (finite_pos_fin_nn _ Hr2) Hz2 H12
              (Z2F_mono pct1 pct2 Hp)) as (Hm & Hn1 & Hn2).
  destruct (div_mono_l _ _ 100 hundred_finite_pos Hn1 Hn2 Hm) as (Hu & Hu1 & Hu2).
  split; [exact Hu|].
  exact (add_mono r1 _ r2 _ (finite_pos_fin_nn _ Hr1) (finite_pos_fin_nn _ Hr2)
           Hu1 Hu2 H12 Hu).
Qed.

End ImpactOrder.

Lemma impact_monotone_witness :
  PrimFloat.leb (uplift 500 8) (uplift 750 20) = true
  /\ PrimFloat.leb (projected 500 8) (projected 750 20) = true.
Proof.
  apply (impact_monotone 500 750 8 20);
    [reflexivity|reflexivity|reflexivity|reflexivity|lia|lia].
Defined.

Section ImpactLabels.

Context {L : Libraries}.

Local Open Scope Z_scope.

(** The tenths that [.1f] prints are the nearest ones: within half a tenth
    of the exact value [m * 2^e]. *)
Lemma round_tenths_nearest (m : positive) (e : Z) :
  0 <= round_tenths m e
  /\ (Rabs (IZR (round_tenths m e) / 10 - F2R (Z.pos m) e) <= / 20)%R.
Proof.
  unfold round_tenths. destruct (Z.leb_spec 0 e) as [He|He].
  - split; [pose proof (Z.pow_nonneg 2 e); nia|].
    rewrite F2R_integer by assumption.
    replace (Z.pos m * 10 * 2 ^ e) with (Z.pos m * 2 ^ e * 10) by ring.
    rewrite (mult_IZR (Z.pos m * 2 ^ e) 10).
    replace (IZR (Z.pos m * 2 ^ e) * 10 / 10 - IZR (Z.pos m * 2 ^ e))%R with 0%R
      by (field).
    rewrite Rabs_R0. lra.
  - set (d := 2 ^ (- e)).
    assert (Hd : 0 < d) by (apply Z.pow_pos_nonneg; lia).
    pose proof (Z.div_mod (Z.pos m * 10) d ltac:(lia)) as Hdm.
    pose proof (Z.mod_pos_bound (Z.pos m * 10) d Hd) as Hr.
    pose proof (Z.div_pos (Z.pos m * 10) d ltac:(lia) Hd) as Hq.
    set (q := Z.pos m * 10 / d) in *. set (r := (Z.pos m * 10) mod d) in *.
    assert (Hval : F2R (Z.pos m) e = (IZR (Z.pos m) / IZR d)%R).
    { unfold F2R, d. rewrite (bpow_IZR (- e)) by lia.
      assert (Hb : (bpow e * bpow (- e) = 1)%R)
        by (rewrite <- bpow_plus; replace (e + - e) with 0 by lia; apply bpow_0).
      pose proof (bpow_gt_0 (- e)) as Hpos.
      apply Rmult_eq_reg_r with (bpow (- e)); [|lra].
      unfold Rdiv. rewrite !Rmult_assoc, Rinv_l by lra. rewrite Hb. reflexivity. }
    assert (HdR : (0 < IZR d)%R) by (apply IZR_lt; lia).
    assert (Hgen : forall n, - d <= 2 * (n * d - Z.pos m * 10) <= d ->
              (Rabs (IZR n / 10 - F2R (Z.pos m) e) <= / 20)%R).
    { intros n [Hn1 Hn2]. rewrite Hval.
      apply IZR_le in Hn1, Hn2.
      rewrite opp_IZR in Hn1.
      rewrite mult_IZR, minus_IZR, !mult_IZR in Hn1, Hn2.
      replace (IZR n / 10 - IZR (Z.pos m) / IZR d)%R
        with ((IZR n * IZR d - IZR (Z.pos m) * 10) / (10 * IZR d))%R
        by (field; lra).
      apply Rabs_le. split.
      - apply Rmult_le_reg_r with (10 * IZR d)%R; [lra|].
        unfold Rdiv. rewrite Rmult_assoc, Rinv_l by lra. lra.
      - apply Rmult_le_reg_r with (10 * IZR d)%R; [lra|].
        unfold Rdiv. rewrite Rmult_assoc, Rinv_l by lra. lra. }
    destruct (Z.ltb_spec (2 * r) d) as [H1|H1].
    { split; [lia|]. apply Hgen. nia. }
    destruct (Z.ltb_spec d (2 * r)) as [H2|H2].
    { split; [lia|]. apply Hgen. nia. }
    destruct (Z.even q); (split; [lia|]); apply Hgen; nia.
Qed.

Lemma format_1f_nonneg (x : float) :
  nonneg x ->
  format_1f x = "inf"%string
  \/ exists n, 0 <= n /\ format_1f x = fixed_1 n
               /\ (Rabs (IZR n / 10 - B2R x) <= / 20)%R.
Proof.
  intros [[Hz|(m & e & Hf)]|Hi]; unfold format_1f, B2R.
  - right. exists 0. rewrite Hz. split; [lia|]. split; [reflexivity|].
    cbn [SF2R]. replace (0 / 10 - 0)%R with 0%R by field. rewrite Rabs_R0. lra.
  - right. exists (round_tenths m e). rewrite Hf. cbn [SF2R cond_Zopp].
    destruct (round_tenths_nearest m e) as [H0 Herr].
    split; [exact H0|]. split; [reflexivity|exact Herr].
  - left. now rewrite Hi.
Qed.

(** The impact handler never raises and only lets time pass.  Its chart
    shows the current revenue and a projected revenue that is not below it;
    the metric prints the projected revenue and, after a plus sign, the
    uplift, each as [inf] or as the tenths nearest to the number, never
    with a minus sign; at 0 percent the delta reads [+0.0M] and the metric
    prints the current revenue. *)
Theorem impact_view_labels (r : float) (pct : Z) (w : world) :
  PrimFloat.is_finite r = true -> PrimFloat.leb 10 r = true -> 0 <= pct <= 50 ->
  exists v,
    run_impact_simulation r pct w = (Ok v, tick w)
    /\ sim_df v = [("Current"%string, r); ("With Earth 3.0"%string, projected r pct)]
    /\ PrimFloat.leb r (projected r pct) = true
    /\ metric_value v = (format_1f (projected r pct) ++ "M")%string
    /\ metric_delta v = ("+" ++ format_1f (uplift r pct) ++ "M")%string
    /\ (format_1f (projected r pct) = "inf"%string
        \/ exists n, 0 <= n /\ format_1f (projected r pct) = fixed_1 n
             /\ (Rabs (IZR n / 10 - B2R (projected r pct)) <= / 20)%R)
    /\ (format_1f (uplift r pct) = "inf"%string
        \/ exists n, 0 <= n /\ format_1f (uplift r pct) = fixed_1 n
             /\ (Rabs (IZR n / 10 - B2R (uplift r pct)) <= / 20)%R)
    /\ (pct = 0 ->
        metric_delta v = "+0.0M"%string
        /\ metric_value v = (format_1f r ++ "M")%string).
Proof.
  intros Hfin Hle Hp.
  pose proof (base_revenue_finite_pos r Hfin Hle) as Hr.
  destruct (uplift_monotone r 0 pct Hr ltac:(lia)) as (Hu & Hn0 & Hn).
  destruct (add_mono_r r _ _ (finite_pos_fin_nn r Hr) Hn0 Hn Hu) as (Hpr & _ & Hnp).
  fold (projected r 0) in Hpr. fold (projected r pct) in Hpr, Hnp.
  rewrite (proj2 (uplift_at_zero r Hfin Hle)) in Hpr.
  eexists. split; [reflexivity|].
  cbn [sim_df metric_value metric_delta].
  fold (uplift r pct). fold (projected r pct).
  split; [reflexivity|]. split; [exact Hpr|].
  split; [reflexivity|]. split; [reflexivity|].
  split; [now apply format_1f_nonneg|]. split; [now apply format_1f_nonneg|].
  intros ->. destruct (uplift_at_zero r Hfin Hle) as [H0 H1].
  rewrite H0, H1. split; reflexivity.
Qed.

End ImpactLabels.

Lemma impact_view_labels_witness :
  exists v,
    run_impact_simulation 500 8 (Toy.toy_world (mkdate 2026 11 3))
    = (Ok v, tick (Toy.toy_world (mkdate 2026 11 3)))
    /\ sim_df v = [("Current"%string, 500%float);
                   ("With Earth 3.0"%string, projected 500 8)]
    /\ PrimFloat.leb 500 (projected 500 8) = true
    /\ metric_value v = (format_1f (projected 500 8) ++ "M")%string
    /\ metric_delta v = ("+" ++ format_1f (uplift 500 8) ++ "M")%string
    /\ (format_1f (projected 500 8) = "inf"%string
        \/ exists n, 0 <= n /\ format_1f (projected 500 8) = fixed_1 n
             /\ (Rabs (IZR n / 10 - B2R (projected 500 8)) <= / 20)%R)
    /\ (format_1f (uplift 500 8) = "inf"%string
        \/ exists n, 0 <= n /\ format_1f (uplift 500 8) = fixed_1 n
             /\ (Rabs (IZR n / 10 - B2R (uplift 500 8)) <= / 20)%R)
    /\ (8 = 0 ->
        metric_delta v = "+0.0M"%string
        /\ metric_value v = (format_1f 500 ++ "M")%string).
Proof.
  apply (impact_view_labels 500 8 (Toy.toy_world (mkdate 2026 11 3)));
    [reflexivity|reflexivity|lia].
Defined.

(** ** The timestamp text *)

Section TimestampText.

Local Open Scope Z_scope.

Lemma split_at (c : ascii) (a b r r' : string) :
  free_of c a -> free_of c b ->
  (a ++ String c r)%string = (b ++ String c r')%string -> a = b /\ r = r'.
Proof.
  revert b. induction a as [|x a IH]; intros [|y b] Ha Hb H; cbn in *.
  - inversion H. now split.
  - inversion H. subst. now destruct Hb.
  - inversion H. subst. now destruct Ha.
  - inversion H. subst. destruct (IH b (proj2 Ha) (proj2 Hb) H2) as [-> ->].
    now split.
Qed.

Lemma split_length (a b r r' : string) :
  String.length a = String.length b ->
  (a ++ r)%string = (b ++ r')%string -> a = b /\ r = r'.
Proof.
  revert b. induction a as [|x a IH]; intros [|y b] Hl H; cbn in *;
    try discriminate Hl.
  - now split.
  - inversion H. subst. destruct (IH b ltac:(congruence) H2) as [-> ->]. now split.
Qed.

Lemma digits_free_of_space (d : Decimal.uint) :
  free_of " " (NilEmpty.string_of_uint d).
Proof.
  induction d; cbn; try exact I; (split; [discriminate|assumption]).
Qed.

Lemma decimal_free_of_space (n : Z) : free_of " " (decimal n).
Proof.
  unfold decimal, NilZero.string_of_uint.
  destruct (N.to_uint (Z.to_N n)) eqn:Hd; rewrite <- ?Hd;
    try apply digits_free_of_space.
  cbn. split; [discriminate|exact I].
Qed.

Lemma decimal_inj (n n' : Z) : 0 <= n -> 0 <= n' -> decimal n = decimal n' -> n = n'.
Proof.
  intros Hn Hn' H. unfold decimal in H.
  assert (Hnil : forall k : N, N.to_uint k <> Decimal.Nil).
  { intros [|p]; [discriminate|apply Unsigned.to_uint_nonnil]. }
  pose proof (NilZero.usu _ (Hnil (Z.to_N n))) as H1.
  pose proof (NilZero.usu _ (Hnil (Z.to_N n'))) as H2.
  rewrite H in H1. rewrite H1 in H2. inversion H2 as [H3].
  apply DecimalN.Unsigned.to_uint_inj in H3. now apply Z2N.inj.
Qed.

Lemma two_digits_checked :
  forallb (fun i =>
     Nat.eqb (String.length (two_digits (Z.of_nat i))) 2
     && forallb (fun j =>
          Nat.eqb i j
          || negb (String.eqb (two_digits (Z.of_nat i)) (two_digits (Z.of_nat j))))
        (seq 0 60))
    (seq 0 60) = true.
Proof. vm_compute. reflexivity. Qed.

Lemma two_digits_length (n : Z) : 0 <= n < 60 -> String.length (two_digits n) = 2%nat.
Proof.
  intros Hn. pose proof two_digits_checked as H. rewrite forallb_forall in H.
  specialize (H (Z.to_nat n) ltac:(apply in_seq; lia)).
  apply andb_true_iff in H. destruct H as [H _].
  rewrite Z2Nat.id in H by lia. now apply Nat.eqb_eq.
Qed.

Lemma two_digits_inj (n n' : Z) :
  0 <= n < 60 -> 0 <= n' < 60 -> two_digits n = two_digits n' -> n = n'.
Proof.
  intros Hn Hn' Heq. pose proof two_digits_checked as H. rewrite forallb_forall in H.
  specialize (H (Z.to_nat n) ltac:(apply in_seq; lia)).
  apply andb_true_iff in H. destruct H as [_ H]. rewrite forallb_forall in H.
  specialize (H (Z.to_nat n') ltac:(apply in_seq; lia)).
  rewrite !Z2Nat.id in H by lia. rewrite Heq, String.eqb_refl in H.
  rewrite orb_false_r in H. apply Nat.eqb_eq in H. lia.
Qed.

Lemma month_names_checked :
  forallb (fun i =>
     forallb (fun j =>
        Nat.eqb i j
        || negb (String.eqb (month_name (Z.of_nat i)) (month_name (Z.of_nat j))))
       (seq 1 12))
    (seq 1 12) = true.
Proof. vm_compute. reflexivity. Qed.

Lemma month_name_inj (m m' : Z) :
  1 <= m <= 12 -> 1 <= m' <= 12 -> month_name m = month_name m' -> m = m'.
Proof.
  intros Hm Hm' Heq. pose proof month_names_checked as H. rewrite forallb_forall in H.
  specialize (H (Z.to_nat m) ltac:(apply in_seq; lia)). rewrite forallb_forall in H.
  specialize (H (Z.to_nat m') ltac:(apply in_seq; lia)).
  rewrite !Z2Nat.id in H by lia. rewrite Heq, String.eqb_refl in H.
  rewrite orb_false_r in H. apply Nat.eqb_eq in H. lia.
Qed.

Lemma month_name_free_of_space (m : Z) : 1 <= m <= 12 -> free_of " " (month_name m).
Proof.
  intros Hm.
  assert (H : m = 1 \/ m = 2 \/ m = 3 \/ m = 4 \/ m = 5 \/ m = 6 \/ m = 7
              \/ m = 8 \/ m = 9 \/ m = 10 \/ m = 11 \/ m = 12) by lia.
  repeat (destruct H as [->|H]; [cbn; repeat (split; [discriminate|]); exact I|]).
  subst m. cbn. repeat (split; [discriminate|]). exact I.
Qed.

(** The text [Month dd, yyyy hh:mm UTC] names its minute: two valid times
    print the same text exactly when they agree in date, hour and minute. *)
Theorem timestamp_text_names_the_minute (t1 t2 : datetime) :
  valid_time t1 -> valid_time t2 ->
  (strftime t1 = strftime t2
   <-> dt_date t1 = dt_date t2 /\ hour t1 = hour t2 /\ minute t1 = minute t2).
Proof.
  intros (Hd1 & Hy1 & Hh1 & Hm1) (Hd2 & Hy2 & Hh2 & Hm2).
  split; [|intros (Hd & Hh & Hm); unfold strftime; now rewrite Hd, Hh, Hm].
  destruct t1 as [[y1 mo1 d1] h1 mi1 s1], t2 as [[y2 mo2 d2] h2 mi2 s2].
  unfold valid_date in Hd1, Hd2. cbn [dt_date year month day hour minute] in *.
  pose proof (days_in_month_pos y1 mo1) as Hdim1.
  pose proof (days_in_month_pos y2 mo2) as Hdim2.
  unfold strftime. cbn [dt_date year month day hour minute].
  intros H.
  change (" " ++ ?x)%string with (String " " x) in H.
  apply split_at in H; [|now apply month_name_free_of_space..].
  destruct H as [Hmo H]. apply month_name_inj in Hmo; [|lia..].
  apply split_length in H; [|rewrite !two_digits_length by lia; reflexivity].
  destruct H as [Hday H]. apply two_digits_inj in Hday; [|lia..].
  cbn [append] in H. inversion H as [Hrest]. clear H.
  apply split_at in Hrest; [|apply decimal_free_of_space..].
  destruct Hrest as [Hy H]. apply decimal_inj in Hy; [|lia..].
  apply split_length in H; [|rewrite !two_digits_length by lia; reflexivity].
  destruct H as [Hh H]. apply two_digits_inj in Hh; [|lia..].
  cbn [append] in H. inversion H as [Hrest]. clear H.
  apply split_length in Hrest; [|rewrite !two_digits_length by lia; reflexivity].
  destruct Hrest as [Hmi _]. apply two_digits_inj in Hmi; [|lia..].
  subst. now split.
Qed.

End TimestampText.

Lemma timestamp_text_names_the_minute_witness :
  strftime (mkdatetime (mkdate 2026 11 3) 9 30 0)
  = strftime (mkdatetime (mkdate 2026 11 3) 9 30 59)
  <-> dt_date (mkdatetime (mkdate 2026 11 3) 9 30 0)
      = dt_date (mkdatetime (mkdate 2026 11 3) 9 30 59)
      /\ hour (mkdatetime (mkdate 2026 11 3) 9 30 0)
         = hour (mkdatetime (mkdate 2026 11 3) 9 30 59)
      /\ minute (mkdatetime (mkdate 2026 11 3) 9 30 0)
         = minute (mkdatetime (mkdate 2026 11 3) 9 30 59).
Proof.
  apply (timestamp_text_names_the_minute
           (mkdatetime (mkdate 2026 11 3) 9 30 0)
           (mkdatetime (mkdate 2026 11 3) 9 30 59));
    unfold valid_time, valid_date; vm_compute; intuition discriminate.
Defined.

(** ** The audit shows the last period *)

Section AuditLastPeriod.

Context {L : Libraries}.

Local Open Scope Z_scope.

Lemma stated_rows_last (seed : Z) (n : nat) :
  last (stated_rows seed (Z.of_nat (S n))) []
  = map (stated_cell seed (Z.of_nat (S n)) n) (seq 0 3).
Proof.
  unfold stated_rows. rewrite Nat2Z.id.
  exact (last_map_seq (fun i => map (stated_cell seed (Z.of_nat (S n)) i) (seq 0 3)) n []).
Qed.

(** The three scores of the audit are those of the twelfth period of the
    series for seed 42: the end of the ramp, 85, plus the draws number 33, 34
    and 35 of the generator seeded with 42, clipped and rounded. *)
Theorem audit_shows_last_period (org : string) (w : world) :
  valid_clock w -> cache_ok w ->
  exists v w',
    run_simulated_audit org w = (Ok v, w')
    /\ audit_df v
       = [("Governance"%string, stated_round (stated_clip (85 + stated_noise 42 33)));
          ("ESG"%string, stated_round (stated_clip (85 + stated_noise 42 34)));
          ("Finance"%string, stated_round (stated_clip (85 + stated_noise 42 35)))].
Proof.
  intros Hc Hok.
  destruct (run_simulated_audit_run org w Hc Hok)
    as (v & w' & now & Hrun & Hdf & _).
  exists v, w'. split; [exact Hrun|]. rewrite Hdf. unfold audit_scores.
  rewrite series_rows_stated by (unfold default_periods; lia).
  change default_periods with (Z.of_nat 12). rewrite stated_rows_last.
  cbn [seq map combine]. unfold stated_cell.
  change (Z.of_nat 12) with 12. change (Z.of_nat 11) with (12 - 1).
  rewrite (stated_baseline_end 12) by lia. reflexivity.
Qed.

End AuditLastPeriod.

Lemma audit_shows_last_period_witness :
  exists v w',
    run_simulated_audit "Acme Global" (Toy.toy_world (mkdate 2026 11 3)) = (Ok v, w')
    /\ audit_df v
       = [("Governance"%string,
           stated_round (stated_clip (85 + stated_noise (L := Toy.toy_libraries) 42 33)));
          ("ESG"%string,
           stated_round (stated_clip (85 + stated_noise (L := Toy.toy_libraries) 42 34)));
          ("Finance"%string,
           stated_round (stated_clip (85 + stated_noise (L := Toy.toy_libraries) 42 35)))].
Proof.
  apply (audit_shows_last_period "Acme Global" (Toy.toy_world (mkdate 2026 11 3))).
  - apply toy_clock_valid. unfold valid_date. vm_compute. intuition discriminate.
  - apply empty_cache_ok. reflexivity.
Defined.

(** ** Scores follow the raw values *)

Section ScoreOrder.

Local Open Scope Z_scope.

(** Positions at the same exponent are ordered like the numbers. *)
Lemma position_order (x1 x2 : R) (M1 M2 E : Z) (l1 l2 : location) :
  inbetween x1 M1 E l1 -> inbetween x2 M2 E l2 -> (x1 <= x2)%R ->
  M1 < M2 \/ (M1 = M2 /\ loc_rank l1 <= loc_rank l2).
Proof.
  intros Hin1 Hin2 Hle.
  pose proof (inbetween_bounds x1 M1 E l1 Hin1) as [Hlo1 Hup1].
  pose proof (inbetween_bounds x2 M2 E l2 Hin2) as [Hlo2 Hup2].
  assert (HM : M1 < M2 + 1) by (apply (F2R_lt_inv M1 (M2 + 1) E); lra).
  destruct (Z.eq_dec M1 M2) as [HMeq|HMne]; [right|left; lia].
  split; [exact HMeq|]. subst M2.
  pose proof (bpow_gt_0 E).
  destruct l1 as [|[| |]], l2 as [|[| |]]; cbn [loc_rank inbetween] in *; try lia; lra.
Qed.

(** [rint] of a non-negative float, by the position of the float among the
    integers. *)
Lemma rint_position (t : float) :
  fin_nn t ->
  exists M l, 0 <= M /\ inbetween (B2R t) M 0 l
              /\ rint t = Z2F (round_nearest_even M l).
Proof.
  intros [Hz|(m & e & Hf)].
  - exists 0, loc_Exact. split; [lia|]. split.
    + cbn [inbetween]. rewrite (B2R_zero t false Hz). unfold F2R. lra.
    + unfold rint. rewrite Hz. reflexivity.
  - rewrite (B2R_finite t m e Hf).
    destruct (Z.leb_spec 0 e) as [He|He].
    + exists (Z.pos m * 2 ^ e), loc_Exact.
      split; [pose proof (Z.pow_nonneg 2 e); nia|]. split.
      * cbn [inbetween]. rewrite F2R_integer by assumption. now rewrite F2R_0.
      * unfold rint. rewrite Hf. cbn [rintSF round_nearest_even].
        destruct (Z.leb_spec 0 e) as [_|]; [|lia].
        rewrite <- Hf, SF2Prim_Prim2SF. apply Prim2SF_inj.
        apply (rounds_to_unique (IZR (Z.pos m * 2 ^ e))).
        -- rewrite <- F2R_integer by assumption. rewrite Hf.
           apply rounds_to_valid. exact (valid_of_prim t false m e Hf).
        -- apply Z2F_rounds. pose proof (Z.pow_nonneg 2 e). nia.
    + assert (Hloc : located (F2R (Z.pos m) e)
                       (shr_record_of_loc (Z.pos m) loc_Exact) e).
      { split; [rewrite shr_m_shr_record_of_loc; lia|].
        rewrite shr_m_shr_record_of_loc, loc_of_shr_record_of_loc. reflexivity. }
      destruct (shr_located _ _ e (- e) Hloc) as [[HM Hin] He0].
      unfold rint. rewrite Hf. cbn [rintSF].
      destruct (Z.leb_spec 0 e) as [|_]; [lia|].
      destruct (shr (shr_record_of_loc (Z.pos m) loc_Exact) e (- e)) as [mrs e'].
      cbn [fst snd] in *.
      assert (He' : e' = 0) by lia. clear He0. subst e'.
      exists (shr_m mrs), (loc_of_shr_record mrs).
      split; [exact HM|]. split; [exact Hin|reflexivity].
Qed.

Lemma rint_mono (t1 t2 : float) :
  fin_nn t1 -> fin_nn t2 -> (B2R t1 <= B2R t2)%R ->
  exists k1 k2, 0 <= k1 <= k2 /\ rint t1 = Z2F k1 /\ rint t2 = Z2F k2.
Proof.
  intros H1 H2 Hle.
  destruct (rint_position t1 H1) as (M1 & l1 & HM1 & Hin1 & Hr1).
  destruct (rint_position t2 H2) as (M2 & l2 & HM2 & Hin2 & Hr2).
  pose proof (round_nearest_even_mono M1 M2 l1 l2
                (position_order _ _ _ _ _ _ _ Hin1 Hin2 Hle)) as Hk.
  pose proof (round_nearest_even_bounds M1 l1).
  exists (round_nearest_even M1 l1), (round_nearest_even M2 l2).
  split; [lia|]. split; assumption.
Qed.

Lemma round_cell_class (c : float) :
  clipped c ->
  Prim2SF (round_cell 1 c) = S754_zero true \/ nonneg (round_cell 1 c).
Proof.
  intros Hc. destruct (round_cell_tenths c Hc) as [Hz|(k & Hk & ->)]; [now left|].
  right.
  exact (proj1 (proj2 (div_mono_l (Z2F k) (Z2F k) 10 ten_finite_pos
           (Z2F_nonneg k ltac:(lia)) (Z2F_nonneg k ltac:(lia))
           (Z2F_mono k k ltac:(lia))))).
Qed.

Lemma round_cell_mono (c1 c2 : float) :
  clipped c1 -> clipped c2 -> PrimFloat.leb c1 c2 = true ->
  PrimFloat.leb (round_cell 1 c1) (round_cell 1 c2) = true.
Proof.
  intros H1 H2 Hle.
  destruct H1 as [Hz1|[Hf1 Hb1]].
  - (* the first is a negative zero: so is its rounding *)
    assert (Hr1 : Prim2SF (round_cell 1 c1) = S754_zero true).
    { destruct (round_cell_tenths c1 (or_introl Hz1)) as [H|(k & Hk & H)]; [exact H|].
      exfalso. revert H. unfold round_cell. rewrite power_of_ten_1. intros H.
      apply (f_equal Prim2SF) in H. rewrite div_spec in H. unfold rint in H.
      assert (Hm : Prim2SF (c1 * 10) = S754_zero true)
        by (rewrite mul_spec, Hz1; reflexivity).
      rewrite Hm in H. cbn [rintSF] in H.
      rewrite Prim2SF_SF2Prim in H by reflexivity.
      pose proof (div_mono_l (Z2F k) (Z2F k) 10 ten_finite_pos
                    (Z2F_nonneg k ltac:(lia)) (Z2F_nonneg k ltac:(lia))
                    (Z2F_mono k k ltac:(lia))) as (_ & Hn & _).
      change (Prim2SF 10) with (S754_finite false 5629499534213120 (-49)) in H.
      cbn in H. destruct Hn as [[Hn|(m & e & Hn)]|Hn]; rewrite Hn in H; discriminate. }
    rewrite leb_spec, Hr1.
    destruct (round_cell_class c2 H2) as [Hr2|[[Hr2|(m & e & Hr2)]|Hr2]];
      rewrite Hr2; reflexivity.
  - destruct H2 as [Hz2|[Hf2 Hb2]].
    + (* the second is a negative zero: the first is a zero *)
      assert (Hc1 : c1 = 0%float).
      { apply Prim2SF_inj. rewrite leb_spec, Hz2 in Hle.
        destruct Hf1 as [Hf1|(m & e & Hf1)]; rewrite Hf1 in *; [reflexivity|discriminate]. }
      assert (Hc2 : c2 = (-0)%float) by (apply Prim2SF_inj; rewrite Hz2; reflexivity).
      rewrite Hc1, Hc2. vm_compute. reflexivity.
    + apply (leb_B2R c1 c2 Hf1 Hf2) in Hle.
      pose proof (fin_nn_B2R c1 Hf1) as H01.
      unfold round_cell. rewrite power_of_ten_1.
      pose proof (mul_rounds c1 10 Hf1 (finite_pos_fin_nn _ ten_finite_pos)) as Hm1.
      pose proof (mul_rounds c2 10 Hf2 (finite_pos_fin_nn _ ten_finite_pos)) as Hm2.
      rewrite B2R_10 in Hm1, Hm2.
      destruct (rounds_to_below _ (c1 * 10) 1000 Hm1 thousand_finite_pos
                  ltac:(rewrite B2R_1000; lra)) as [Hft1 _].
      destruct (rounds_to_below _ (c2 * 10) 1000 Hm2 thousand_finite_pos
                  ltac:(rewrite B2R_1000; lra)) as [Hft2 _].
      assert (Ht : (B2R (c1 * 10) <= B2R (c2 * 10))%R).
      { apply leb_B2R; [exact Hft1|exact Hft2|].
        apply (leb_of_rounds _ _ _ _ Hm1 Hm2). lra. }
      destruct (rint_mono _ _ Hft1 Hft2 Ht) as (k1 & k2 & Hk & -> & ->).
      exact (proj1 (div_mono_l (Z2F k1) (Z2F k2) 10 ten_finite_pos
               (Z2F_nonneg k1 ltac:(lia)) (Z2F_nonneg k2 ltac:(lia))
               (Z2F_mono k1 k2 ltac:(lia)))).
Qed.

Lemma clip_cell_mono (x y : float) :
  PrimFloat.is_nan x = false -> PrimFloat.is_nan y = false ->
  PrimFloat.leb x y = true ->
  PrimFloat.leb (clip_cell 0 100 x) (clip_cell 0 100 y) = true.
Proof.
  intros Hnx Hny Hle. unfold clip_cell. rewrite Hnx, Hny.
  rewrite is_nan_SF in Hnx, Hny. rewrite leb_spec in Hle.
  destruct (PrimFloat.ltb x 0) eqn:Hx0.
  { (* x is clipped to 0 *)
    destruct (PrimFloat.ltb y 0) eqn:Hy0; [reflexivity|].
    destruct (PrimFloat.ltb 100 y) eqn:Hy1; [reflexivity|].
    rewrite ltb_spec in Hy0. rewrite leb_spec.
    change (Prim2SF 0) with (S754_zero false) in *.
    destruct (Prim2SF y) as [s|s| |s m e]; try discriminate; try reflexivity;
      destruct s; try discriminate; reflexivity. }
  destruct (PrimFloat.ltb 100 x) eqn:Hx1.
  { (* x is clipped to 100: so is y *)
    rewrite ltb_spec in Hx0, Hx1. rewrite !ltb_spec.
    change (Prim2SF 0) with (S754_zero false) in *.
    change (Prim2SF 100) with (S754_finite false 7036874417766400 (-46)) in *.
    destruct (Prim2SF x) as [sx|sx| |sx mx ex]; try discriminate;
      destruct sx; try discriminate;
      destruct (Prim2SF y) as [sy|sy| |sy my ey]; try discriminate;
      destruct sy; try discriminate; try reflexivity.
    rewrite SFltb_finite in Hx1. rewrite SFleb_finite in Hle.
    assert (Hy1 : SFltb (S754_finite false 7036874417766400 (-46))
                        (S754_finite false my ey) = true).
    { rewrite SFltb_finite.
      apply orb_true_iff in Hx1, Hle. apply orb_true_iff.
      rewrite !andb_true_iff, !Z.ltb_lt, !Z.eqb_eq in *.
      rewrite Z.leb_le in Hle. lia. }
    rewrite Hy1.
    replace (SFltb (S754_finite false my ey) (S754_zero false)) with false
      by reflexivity.
    reflexivity. }
  (* x is kept *)
  destruct (PrimFloat.ltb y 0) eqn:Hy0.
  { exfalso. rewrite ltb_spec in Hx0, Hx1, Hy0.
    change (Prim2SF 0) with (S754_zero false) in *.
    change (Prim2SF 100) with (S754_finite false 7036874417766400 (-46)) in *.
    destruct (Prim2SF x) as [sx|sx| |sx mx ex]; try discriminate;
      destruct (Prim2SF y) as [sy|sy| |sy my ey]; try discriminate;
      try destruct sx; try destruct sy; discriminate. }
  destruct (PrimFloat.ltb 100 y) eqn:Hy1.
  { rewrite ltb_spec in Hx0, Hx1. rewrite leb_spec.
    change (Prim2SF 0) with (S754_zero false) in *.
    change (Prim2SF 100) with (S754_finite false 7036874417766400 (-46)) in *.
    destruct (Prim2SF x) as [sx|sx| |sx mx ex]; try discriminate;
      try destruct sx; try discriminate; try reflexivity.
    now apply SFltb_false_SFleb. }
  now rewrite leb_spec.
Qed.

(** A larger raw value never gives a smaller score: clipping into [0, 100]
    and rounding to one decimal keep the order of two cells that are not
    NaN. *)
Theorem score_follows_raw_value (x y : float) :
  PrimFloat.is_nan x = false -> PrimFloat.is_nan y = false ->
  PrimFloat.leb x y = true ->
  PrimFloat.leb (round_cell 1 (clip_cell 0 100 x))
                (round_cell 1 (clip_cell 0 100 y)) = true.
Proof.
  intros Hnx Hny Hle. apply round_cell_mono.
  - exact (clip_cell_cases x Hnx).
  - exact (clip_cell_cases y Hny).
  - now apply clip_cell_mono.
Qed.

End ScoreOrder.

Lemma score_follows_raw_value_witness :
  PrimFloat.leb (round_cell 1 (clip_cell 0 100 (-3.5)))
                (round_cell 1 (clip_cell 0 100 72.375)) = true.
Proof.
  apply (score_follows_raw_value (-3.5) 72.375); reflexivity.
Defined.
